(** * navette-mapf: prioritized space-time planning

    A shallow embedding of the planning core of the repository:
    - [environment.py]: the corridor-and-rooms grid ([Position], [Robot],
      [Environment] with its moves and heuristic);
    - [solver.py]: [AStarNode], the space-time A* search [find_path] with its
      collision test [_has_collision], and the prioritized planner
      [solve_multi_robot_path];
    - [orders.py]: the [OrderManager];
    - [simulator.py]: [_get_other_robot_paths], [_assign_orders] and
      [_move_robots];
    - [demo.py]: the [ReservationTable].

    Python integers are [Z]; list indices and time steps, which the code only
    ever counts up from 0, are [nat]; dictionaries are [gmap]; the binary heap
    of the Python standard library ([heapq]) is transcribed on lists. *)

From Stdlib Require Import ZArith Lia ZifyNat List String Sorted.
From stdpp Require Import base decidable option list gmap strings pretty.

Local Open Scope Z_scope.

(** ** environment.py *)

Definition GRID_WIDTH : Z := 5.
Definition GRID_HEIGHT : Z := 2.

(** [class Position(NamedTuple)]: a pair of ints compared by value. *)
Record Position : Type := mkPosition { row : Z; col : Z }.

#[global] Instance Position_eq_dec : EqDecision Position.
Proof. solve_decision. Defined.

Inductive RobotStatus : Type := IDLE | MOVING.

#[global] Instance RobotStatus_eq_dec : EqDecision RobotStatus.
Proof. solve_decision. Defined.

Module Robot.
(** [@dataclass class Robot]. *)
Record t : Type := mk {
  id : Z;
  position : Position;
  path : list Position;
  path_index : nat;
  priority : Z;
  status : RobotStatus;
  is_waiting : bool
}.
End Robot.

(** [class Environment]: [__init__] stores the grid constants. *)
Record Environment : Type := mkEnvironment { width : Z; height : Z }.

Definition Environment_init : Environment :=
  {| width := GRID_WIDTH; height := GRID_HEIGHT |}.

Definition is_valid_position (self : Environment) (pos : Position) : bool :=
  (0 <=? row pos) && (row pos <? height self) &&
  (0 <=? col pos) && (col pos <? width self).

(** [get_valid_moves]: the out-edges of a cell with their costs, in the order
    in which the code appends them. *)
Definition get_valid_moves (self : Environment) (pos : Position)
  : list (Position * Z) :=
  if row pos =? 1 then
    (if 0 <? col pos then [(mkPosition 1 (col pos - 1), 1)] else []) ++
    (if col pos <? width self - 1 then [(mkPosition 1 (col pos + 1), 1)] else []) ++
    [(mkPosition 0 (col pos), 1); (mkPosition 1 (col pos), 1)]
  else if row pos =? 0 then
    [(mkPosition 1 (col pos), 1); (mkPosition 0 (col pos), 1)]
  else [].

Definition manhattan_distance (pos1 pos2 : Position) : Z :=
  Z.abs (row pos1 - row pos2) + Z.abs (col pos1 - col pos2).

Definition heuristic (current goal : Position) : Z :=
  if row goal =? 0 then
    let corridor_steps := Z.abs (col current - col goal) in
    let room_steps := if row current =? 0 then 1 else 2 in
    corridor_steps + room_steps
  else manhattan_distance current goal.

(** ** heapq (Python standard library), on a list used as an array

    [lt] is the [__lt__] of the stored items.  The index errors of the Python
    code cannot happen on the calls made by [heappush] and [heappop]; the
    corresponding branches return the heap unchanged. *)

Section heapq.
Context {A : Type} (lt : A -> A -> bool).

(** The [while pos > startpos] loop of [_siftdown]; every round at least
    decrements [pos], so [pos] rounds are enough. *)
Fixpoint _siftdown_loop (fuel : nat) (heap : list A) (newitem : A)
    (startpos pos : nat) : list A :=
  match fuel with
  | S fuel' =>
      if bool_decide (startpos < pos)%nat then
        let parentpos := ((pos - 1) / 2)%nat in
        match heap !! parentpos with
        | Some parent =>
            if lt newitem parent
            then _siftdown_loop fuel' (<[pos := parent]> heap) newitem
                   startpos parentpos
            else <[pos := newitem]> heap
        | None => heap
        end
      else <[pos := newitem]> heap
  | O => <[pos := newitem]> heap
  end.

Definition _siftdown (heap : list A) (startpos pos : nat) : list A :=
  match heap !! pos with
  | Some newitem => _siftdown_loop pos heap newitem startpos pos
  | None => heap
  end.

(** The [while childpos < endpos] loop of [_siftup]: moves the smaller
    child up until a leaf is reached; returns the heap and the leaf. *)
Fixpoint _siftup_loop (fuel : nat) (heap : list A) (endpos pos : nat)
    : list A * nat :=
  match fuel with
  | S fuel' =>
      let childpos := (2 * pos + 1)%nat in
      if bool_decide (childpos < endpos)%nat then
        let rightpos := (childpos + 1)%nat in
        let childpos :=
          if bool_decide (rightpos < endpos)%nat then
            match heap !! childpos, heap !! rightpos with
            | Some c, Some r => if lt c r then childpos else rightpos
            | _, _ => childpos
            end
          else childpos in
        match heap !! childpos with
        | Some c => _siftup_loop fuel' (<[pos := c]> heap) endpos childpos
        | None => (heap, pos)
        end
      else (heap, pos)
  | O => (heap, pos)
  end.

Definition _siftup (heap : list A) (pos : nat) : list A :=
  let endpos := length heap in
  let startpos := pos in
  match heap !! pos with
  | Some newitem =>
      let '(heap, pos) := _siftup_loop endpos heap endpos pos in
      _siftdown (<[pos := newitem]> heap) startpos pos
  | None => heap
  end.

Definition heappush (heap : list A) (item : A) : list A :=
  let heap := heap ++ [item] in
  _siftdown heap 0 (length heap - 1).

(** [heappop]: [None] is the [IndexError] of popping an empty heap. *)
Definition heappop (heap : list A) : option (A * list A) :=
  match last heap with
  | None => None
  | Some lastelt =>
      let heap := take (length heap - 1) heap in
      match heap with
      | [] => Some (lastelt, [])
      | returnitem :: _ => Some (returnitem, _siftup (<[0%nat := lastelt]> heap) 0)
      end
  end.
End heapq.

(** ** solver.py *)

Module AStarNode.
(** [@dataclass class AStarNode]; [time] starts at 0 and is only ever
    incremented. *)
Record t : Type := mk {
  position : Position;
  time : nat;
  g_cost : Z;
  f_cost : Z;
  path : list Position
}.

(** [__lt__]: nodes are compared on [f_cost] alone. *)
Definition lt (self other : t) : bool := f_cost self <? f_cost other.
End AStarNode.

(** The test of one obstacle path in the loop body of [_has_collision]. *)
Definition path_collides (current_pos next_pos : Position) (next_time : nat)
    (other_path : list Position) : bool :=
  (* vertex collision: same position at the same time *)
  (bool_decide (next_time < length other_path)%nat &&
   bool_decide (other_path !! next_time = Some next_pos))
  ||
  (* edge collision: the two robots swap positions *)
  (bool_decide (0 < next_time)%nat &&
   bool_decide (next_time - 1 < length other_path)%nat &&
   bool_decide (next_time < length other_path)%nat &&
   bool_decide (Some current_pos = other_path !! next_time) &&
   bool_decide (Some next_pos = other_path !! (next_time - 1)%nat)).

Definition _has_collision (current_pos next_pos : Position) (next_time : nat)
    (other_robot_paths : list (list Position)) : bool :=
  existsb (path_collides current_pos next_pos next_time) other_robot_paths.

Section find_path.
Variable env : Environment.
Variables (goal : Position) (other_robot_paths : list (list Position))
          (max_time : Z).

(** One round of [for next_pos, move_cost in get_valid_moves(...)]. *)
Definition expand_move (current : AStarNode.t)
    (closed_set : list (Position * nat)) (open_set : list AStarNode.t)
    (move : Position * Z) : list AStarNode.t :=
  let '(next_pos, move_cost) := move in
  let next_time := (AStarNode.time current + 1)%nat in
  if _has_collision (AStarNode.position current) next_pos next_time
       other_robot_paths then open_set
  else if bool_decide ((next_pos, next_time) ∈ closed_set) then open_set
  else
    let g_cost := AStarNode.g_cost current + move_cost in
    let h_cost := heuristic next_pos goal in
    let f_cost := g_cost + h_cost in
    heappush AStarNode.lt open_set
      (AStarNode.mk next_pos next_time g_cost f_cost
         (AStarNode.path current ++ [AStarNode.position current])).

(** The [while open_set] loop.  [None] means that [fuel] rounds were not
    enough; [Some []] is the code's "no path found". *)
Fixpoint find_path_loop (fuel : nat) (open_set : list AStarNode.t)
    (closed_set : list (Position * nat)) : option (list Position) :=
  match fuel with
  | O => None
  | S fuel' =>
      match heappop AStarNode.lt open_set with
      | None => Some []
      | Some (current, open_set) =>
          if bool_decide (AStarNode.position current = goal) then
            Some (AStarNode.path current ++ [AStarNode.position current])
          else
            let state := (AStarNode.position current, AStarNode.time current) in
            if bool_decide (state ∈ closed_set) then
              find_path_loop fuel' open_set closed_set
            else
              let closed_set := state :: closed_set in
              if max_time <=? Z.of_nat (AStarNode.time current) then
                find_path_loop fuel' open_set closed_set
              else
                find_path_loop fuel'
                  (fold_left (expand_move current closed_set)
                     (get_valid_moves env (AStarNode.position current))
                     open_set)
                  closed_set
      end
  end.
End find_path.

(** A number of rounds that the [while] loop of [find_path] never exceeds
    (see [find_path_loop_fuel_enough]): with [T] the horizon, at most
    [1 + 2 * T * (2 * T + 1)] states can be closed, and every closed state
    pushes at most four nodes. *)
Definition closable_states (max_time : Z) : nat :=
  let T := Z.to_nat max_time in
  (1 + T * (2 * (2 * T + 1)))%nat.

Definition search_fuel (max_time : Z) : nat :=
  (5 * closable_states max_time + 2)%nat.

Definition find_path (env : Environment) (start goal : Position)
    (other_robot_paths : list (list Position)) (max_time : Z)
    : list Position :=
  let open_set :=
    heappush AStarNode.lt []
      (AStarNode.mk start 0 0 (heuristic start goal) []) in
  match find_path_loop env goal other_robot_paths max_time
          (search_fuel max_time) open_set [] with
  | Some path => path
  | None => []
  end.

(** The state of the [while open_set] loop of [find_path] at the head of its
    round [k], counted from 0, when the loop is entered with [open_set] and
    [closed_set]: the open set and the closed set that the round finds.
    [None] once the loop has been left. *)
Section find_path_rounds.
Variable env : Environment.
Variables (goal : Position) (other_robot_paths : list (list Position))
          (max_time : Z).

Fixpoint loop_state (k : nat) (open_set : list AStarNode.t)
    (closed_set : list (Position * nat))
    : option (list AStarNode.t * list (Position * nat)) :=
  match k with
  | O => Some (open_set, closed_set)
  | S k' =>
      match heappop AStarNode.lt open_set with
      | None => None
      | Some (current, open_set) =>
          if bool_decide (AStarNode.position current = goal) then None
          else
            let state := (AStarNode.position current, AStarNode.time current) in
            if bool_decide (state ∈ closed_set) then
              loop_state k' open_set closed_set
            else
              let closed_set := state :: closed_set in
              if max_time <=? Z.of_nat (AStarNode.time current) then
                loop_state k' open_set closed_set
              else
                loop_state k'
                  (fold_left (expand_move goal other_robot_paths current
                                closed_set)
                     (get_valid_moves env (AStarNode.position current))
                     open_set)
                  closed_set
      end
  end.
End find_path_rounds.

(** [sorted(robots, key=lambda r: r.priority)]: Python's sort is stable, so
    its result is the stable insertion sort on the key. *)
Fixpoint insert_by_priority (r : Robot.t) (l : list Robot.t) : list Robot.t :=
  match l with
  | [] => [r]
  | x :: l' =>
      if Robot.priority r <=? Robot.priority x then r :: l
      else x :: insert_by_priority r l'
  end.

Definition sorted (robots : list Robot.t) : list Robot.t :=
  foldr insert_by_priority [] robots.

(** The body of [for robot in sorted_robots]; the state is the pair of
    [paths] and [robot_paths_list].  [find_path] is called with its default
    horizon [max_time = 50]. *)
Definition plan_robot (env : Environment) (goals : gmap Z Position)
    (st : gmap Z (list Position) * list (list Position)) (robot : Robot.t)
    : gmap Z (list Position) * list (list Position) :=
  let '(paths, robot_paths_list) := st in
  match goals !! Robot.id robot with
  | None => st
  | Some goal =>
      let path := find_path env (Robot.position robot) goal robot_paths_list 50 in
      match path with
      | _ :: _ => (<[Robot.id robot := path]> paths, robot_paths_list ++ [path])
      | [] => (<[Robot.id robot := [Robot.position robot]]> paths, robot_paths_list)
      end
  end.

Definition solve_multi_robot_path (env : Environment) (robots : list Robot.t)
    (goals : gmap Z Position) : gmap Z (list Position) :=
  let sorted_robots := sorted robots in
  (fold_left (plan_robot env goals) sorted_robots (∅, [])).1.

Definition find_single_robot_path (env : Environment) (robot : Robot.t)
    (goal : Position) (other_robot_paths : list (list Position))
    : list Position :=
  find_path env (Robot.position robot) goal other_robot_paths 50.

(** ** simulator.py *)

Definition _get_other_robot_paths (robots : list Robot.t) (exclude_robot_id : Z)
    : list (list Position) :=
  flat_map (fun robot =>
    if bool_decide (Robot.id robot = exclude_robot_id) then []
    else if bool_decide (Robot.status robot = MOVING) &&
            negb (bool_decide (Robot.path robot = [])) then
      [Robot.position robot :: drop (Robot.path_index robot) (Robot.path robot)]
    else if bool_decide (Robot.status robot = IDLE) then
      [replicate 20 (Robot.position robot)]
    else []) robots.

(** The two robots of [MAPFSimulator.__init__]. *)
Definition initial_robots : list Robot.t :=
  [ Robot.mk 1 (mkPosition 1 0) [] 0 1 IDLE false;
    Robot.mk 2 (mkPosition 1 4) [] 0 2 IDLE false ].

(** ** demo.py: the reservation table *)

Module ReservationTable.
(** [vertex_table[time][(x,y)] = agent_id] and
    [edge_table[time][((x1,y1),(x2,y2))] = agent_id]; both are
    [defaultdict(dict)]. *)
Record t : Type := mk {
  vertex_table : gmap Z (gmap (Z * Z) Z);
  edge_table : gmap Z (gmap ((Z * Z) * (Z * Z)) Z)
}.

Definition init : t := mk ∅ ∅.

(** [d[key]] on a [defaultdict(dict)]: a missing key is first bound to a
    fresh empty dictionary, so even a read updates the table. *)
Definition defaultdict_getitem `{Countable K} (d : gmap Z (gmap K Z))
    (key : Z) : gmap K Z * gmap Z (gmap K Z) :=
  match d !! key with
  | Some v => (v, d)
  | None => (∅, <[key := ∅]> d)
  end.

Definition is_vertex_free (self : t) (x y time agent_id : Z) : bool * t :=
  let '(at_time, vertex_table') :=
    defaultdict_getitem (vertex_table self) time in
  let self' := mk vertex_table' (edge_table self) in
  match at_time !! (x, y) with
  | Some owner => (bool_decide (owner = agent_id), self')
  | None => (true, self')
  end.

Definition is_edge_free (self : t) (from_pos to_pos : Z * Z)
    (time agent_id : Z) : bool * t :=
  let reverse_edge := (to_pos, from_pos) in
  let '(at_time, edge_table') :=
    defaultdict_getitem (edge_table self) time in
  let self' := mk (vertex_table self) edge_table' in
  match at_time !! reverse_edge with
  | Some owner => (bool_decide (owner = agent_id), self')
  | None => (true, self')
  end.

(** [self.vertex_table[t][pos] = agent_id] and its edge counterpart. *)
Definition setitem2 `{Countable K} (d : gmap Z (gmap K Z)) (t : Z) (k : K)
    (agent_id : Z) : gmap Z (gmap K Z) :=
  let '(at_time, d') := defaultdict_getitem d t in
  <[t := <[k := agent_id]> at_time]> d'.

(** The body of [for i, pos in enumerate(path)]. *)
Definition reserve_step (path : list (Z * Z)) (start_time agent_id : Z)
    (self : t) (ipos : nat * (Z * Z)) : t :=
  let '(i, pos) := ipos in
  let t := start_time + Z.of_nat i in
  let vertex_table' := setitem2 (vertex_table self) t pos agent_id in
  if bool_decide (0 < i)%nat then
    match path !! (i - 1)%nat with
    | Some prev_pos =>
        mk vertex_table'
           (setitem2 (edge_table self) t (prev_pos, pos) agent_id)
    | None => mk vertex_table' (edge_table self)
    end
  else mk vertex_table' (edge_table self).

Definition reserve_path (self : t) (path : list (Z * Z))
    (start_time agent_id : Z) : t :=
  fold_left (reserve_step path start_time agent_id) (imap pair path) self.

Definition clear_agent_reservations (self : t) (agent_id : Z) : t :=
  mk (filter (fun kv => kv.2 ≠ agent_id) <$> vertex_table self)
     (filter (fun kv => kv.2 ≠ agent_id) <$> edge_table self).
End ReservationTable.

(** ** environment.py: room names *)

Definition ROOMS : list string :=
  ["in"; "A"; "B"; "C"; "out"]%string.

(** [self.rooms]: [__init__] binds it to [ROOMS] and nothing rebinds it. *)
Definition rooms (self : Environment) : list string := ROOMS.

(** [l[i]] for a Python list: a negative index counts from the end; [None] is
    the [IndexError]. *)
Definition py_getitem {A : Type} (l : list A) (i : Z) : option A :=
  if 0 <=? i then l !! Z.to_nat i
  else if - Z.of_nat (length l) <=? i then l !! Z.to_nat (Z.of_nat (length l) + i)
  else None.

(** [l.index(x)]: the first index at which [x] occurs; [None] is the
    [ValueError]. *)
Fixpoint py_index `{EqDecision A} (x : A) (l : list A) : option nat :=
  match l with
  | [] => None
  | y :: l' => if decide (y = x) then Some 0%nat else S <$> py_index x l'
  end.

(** [get_position_name]; [None] is the [IndexError] of [self.rooms[col]]. *)
Definition get_position_name (self : Environment) (row col : Z)
    : option string :=
  if row =? 0 then py_getitem (rooms self) col
  else Some ("corridor-" +:+ pretty col).

(** [find_room_position]; the [ValueError] of [index] becomes [None]. *)
Definition find_room_position (self : Environment) (room_name : string)
    : option Position :=
  match py_index room_name (rooms self) with
  | Some col => Some (mkPosition 0 (Z.of_nat col))
  | None => None
  end.

(** ** environment.py: orders *)

Inductive OrderStatus : Type := PENDING | ASSIGNED | COMPLETED.

#[global] Instance OrderStatus_eq_dec : EqDecision OrderStatus.
Proof. solve_decision. Defined.

Module Order.
(** [@dataclass class Order]. *)
Record t : Type := mk {
  id : Z;
  from_room : string;
  to_room : string;
  request_time : Z;
  status : OrderStatus;
  assigned_robot : option Z;
  start_time : option Z;
  completion_time : option Z
}.
End Order.

#[global] Instance Order_eq_dec : EqDecision Order.t.
Proof. solve_decision. Defined.

#[global] Instance Robot_eq_dec : EqDecision Robot.t.
Proof. solve_decision. Defined.

(** ** orders.py *)

(** [l.remove(x)]: drops the first item equal to [x]. *)
Fixpoint py_remove `{EqDecision A} (x : A) (l : list A) : list A :=
  match l with
  | [] => []
  | y :: l' => if decide (y = x) then l' else y :: py_remove x l'
  end.

(** The index of the first item that satisfies [f]. *)
Fixpoint find_index {A : Type} (f : A -> bool) (l : list A) : option nat :=
  match l with
  | [] => None
  | y :: l' => if f y then Some 0%nat else S <$> find_index f l'
  end.

(** The comparison of Python tuples of two ints. *)
Definition pair_leb (a b : Z * Z) : bool :=
  (a.1 <? b.1) || ((a.1 =? b.1) && (a.2 <=? b.2)).

(** [list.sort(key=...)] with a key of two ints: stable, so it is the stable
    insertion sort. *)
Section sort_by_key.
Context {A : Type} (key : A -> Z * Z).

Fixpoint insert_by_key (x : A) (l : list A) : list A :=
  match l with
  | [] => [x]
  | y :: l' =>
      if pair_leb (key x) (key y) then x :: l else y :: insert_by_key x l'
  end.

Definition sort_by_key (l : list A) : list A := foldr insert_by_key [] l.
End sort_by_key.

Module OrderManager.
(** The state of [class OrderManager].  An order object of [self.orders] is
    denoted by its index in that list. *)
Record t : Type := mk {
  orders : list Order.t;
  completed_orders : list Order.t;
  next_order_id : Z
}.

Definition init : t := mk [] [] 1.

(** [generate_random_order]; the two draws of [random.choice] are given as the
    indices [draw1] and [draw2] that they pick. *)
Definition generate_random_order (env : Environment) (self : t)
    (current_time : Z) (draw1 draw2 : nat) : option (Order.t * t) :=
  let available_rooms := rooms env in
  from_room ← available_rooms !! draw1;
  let available_rooms := py_remove from_room available_rooms in
  to_room ← available_rooms !! draw2;
  let order :=
    Order.mk (next_order_id self) from_room to_room current_time PENDING
      None None None in
  Some (order,
        mk (orders self ++ [order]) (completed_orders self)
           (next_order_id self + 1)).

Definition add_manual_order := generate_random_order.

Definition get_pending_orders (self : t) : list Order.t :=
  List.filter (fun order => bool_decide (Order.status order = PENDING))
    (orders self).

Definition get_assigned_orders (self : t) : list Order.t :=
  List.filter (fun order => bool_decide (Order.status order = ASSIGNED))
    (orders self).

(** [assign_order_to_robot], on the order at index [k]. *)
Definition assign_order_to_robot (self : t) (k : nat) (robot : Robot.t)
    (current_time : Z) : t :=
  match orders self !! k with
  | Some order =>
      let order' :=
        Order.mk (Order.id order) (Order.from_room order) (Order.to_room order)
          (Order.request_time order) ASSIGNED (Some (Robot.id robot))
          (Some current_time) (Order.completion_time order) in
      mk (<[k := order']> (orders self)) (completed_orders self)
         (next_order_id self)
  | None => self
  end.

(** [complete_order], on the order at index [k]: the order is updated in
    place, appended to the completed orders and removed from the active
    ones. *)
Definition complete_order (self : t) (k : nat) (current_time : Z) : t :=
  match orders self !! k with
  | Some order =>
      let order' :=
        Order.mk (Order.id order) (Order.from_room order) (Order.to_room order)
          (Order.request_time order) COMPLETED (Order.assigned_robot order)
          (Order.start_time order)
          (Some (current_time - Order.request_time order)) in
      mk (py_remove order' (<[k := order']> (orders self)))
         (completed_orders self ++ [order'])
         (next_order_id self)
  | None => self
  end.

(** [find_order_by_robot]: the index of the first order assigned to the
    robot. *)
Definition find_order_by_robot (self : t) (robot_id : Z) : option nat :=
  find_index (fun order =>
    bool_decide (Order.assigned_robot order = Some robot_id) &&
    bool_decide (Order.status order = ASSIGNED)) (orders self).

(** The key by which [get_best_robot_for_order] sorts: the distance to the
    pickup room, then the priority. *)
Definition pickup_key (from_room_pos : Position) (robot : Robot.t) : Z * Z :=
  let corridor_distance :=
    Z.abs (col (Robot.position robot) - col from_room_pos) in
  let room_access_distance :=
    if row (Robot.position robot) =? 1 then 1 else 2 in
  (corridor_distance + room_access_distance, Robot.priority robot).

Definition get_best_robot_for_order (env : Environment) (order : Order.t)
    (available_robots : list Robot.t) : option Robot.t :=
  match available_robots with
  | [] => None
  | _ =>
      match find_room_position env (Order.from_room order) with
      | None => None
      | Some from_room_pos =>
          let robot_distances :=
            map (fun robot => (robot, (pickup_key from_room_pos robot).1))
              available_robots in
          fst <$> head (sort_by_key
                          (fun x => (x.2, Robot.priority x.1))
                          robot_distances)
      end
  end.

Definition reset (self : t) : t := init.
End OrderManager.

(** ** simulator.py: assigning orders and moving robots *)

Module MAPFSimulator.
(** The part of the state of [class MAPFSimulator] that the simulation steps
    use. *)
Record t : Type := mk {
  robots : list Robot.t;
  order_manager : OrderManager.t;
  time_elapsed : Z;
  is_running : bool
}.

Definition init : t := mk initial_robots OrderManager.init 0 false.

Definition reset (self : t) : t := init.

Definition toggle_simulation (self : t) : t :=
  mk (robots self) (order_manager self) (time_elapsed self)
     (negb (is_running self)).

(** [_assign_orders]. *)
Definition _assign_orders (env : Environment) (self : t) : t :=
  let pending_orders := OrderManager.get_pending_orders (order_manager self) in
  let available_robots :=
    List.filter (fun robot => bool_decide (Robot.status robot = IDLE))
      (robots self) in
  match pending_orders, available_robots with
  | [], _ | _, [] => self
  | order :: _, _ :: _ =>
  match OrderManager.get_best_robot_for_order env order available_robots with
  | None => self
  | Some best_robot =>
  match find_room_position env (Order.from_room order),
        find_room_position env (Order.to_room order) with
  | Some from_pos, Some to_pos =>
      let other_robot_paths :=
        _get_other_robot_paths (robots self) (Robot.id best_robot) in
      match find_single_robot_path env best_robot from_pos other_robot_paths with
      | [] => self
      | path_to_pickup =>
          let temp_robot :=
            Robot.mk (Robot.id best_robot) from_pos [] 0
              (Robot.priority best_robot) MOVING false in
          match find_single_robot_path env temp_robot to_pos
                  other_robot_paths with
          | [] => self
          | path_to_destination =>
              let full_path :=
                take (length path_to_pickup - 1) path_to_pickup ++
                path_to_destination in
              let best_robot' :=
                Robot.mk (Robot.id best_robot) (Robot.position best_robot)
                  full_path 0 (Robot.priority best_robot) MOVING false in
              match py_index best_robot (robots self),
                    find_index
                      (fun o => bool_decide (Order.status o = PENDING))
                      (OrderManager.orders (order_manager self)) with
              | Some j, Some k =>
                  mk (<[j := best_robot']> (robots self))
                     (OrderManager.assign_order_to_robot (order_manager self)
                        k best_robot (time_elapsed self))
                     (time_elapsed self) (is_running self)
              | _, _ => self
              end
          end
      end
  | _, _ => self
  end
  end
  end.

(** The test of the first loop of [_move_robots]. *)
Definition wants_to_move (robot : Robot.t) : bool :=
  bool_decide (Robot.status robot = MOVING) &&
  negb (bool_decide (Robot.path robot = [])) &&
  bool_decide (Robot.path_index robot < length (Robot.path robot))%nat.

(** The first loop of [_move_robots]: [intended_moves] and
    [position_conflicts]. *)
Definition record_move
    (tables : gmap Z Position * gmap (Z * Z) (list Robot.t)) (robot : Robot.t)
    : gmap Z Position * gmap (Z * Z) (list Robot.t) :=
  let '(intended_moves, position_conflicts) := tables in
  if wants_to_move robot then
    match Robot.path robot !! Robot.path_index robot with
    | Some next_pos =>
        let pos_key := (row next_pos, col next_pos) in
        (<[Robot.id robot := next_pos]> intended_moves,
         <[pos_key := default [] (position_conflicts !! pos_key) ++ [robot]]>
           position_conflicts)
    | None => tables
    end
  else tables.

(** [min(conflicting_robots, key=lambda r: r.priority)]: the first robot of
    least priority number. *)
Fixpoint min_by_priority (l : list Robot.t) : option Robot.t :=
  match l with
  | [] => None
  | r :: l' =>
      match min_by_priority l' with
      | Some m => if Robot.priority m <? Robot.priority r then Some m else Some r
      | None => Some r
      end
  end.

(** The body of the second loop of [_move_robots]. *)
Definition move_robot
    (tables : gmap Z Position * gmap (Z * Z) (list Robot.t))
    (time_elapsed : Z) (om : OrderManager.t) (robot : Robot.t)
    : Robot.t * OrderManager.t :=
  let '(intended_moves, position_conflicts) := tables in
  let set_waiting (w : bool) :=
    Robot.mk (Robot.id robot) (Robot.position robot) (Robot.path robot)
      (Robot.path_index robot) (Robot.priority robot) (Robot.status robot) w in
  match intended_moves !! Robot.id robot with
  | None => (set_waiting false, om)
  | Some next_pos =>
      let pos_key := (row next_pos, col next_pos) in
      (* the key is present: the robot that recorded the move recorded it *)
      let conflicting_robots := default [] (position_conflicts !! pos_key) in
      let loses :=
        bool_decide (1 < length conflicting_robots)%nat &&
        match min_by_priority conflicting_robots with
        | Some highest_priority_robot =>
            negb (bool_decide (Robot.id robot = Robot.id highest_priority_robot))
        | None => false
        end in
      if loses then (set_waiting true, om)
      else
        let path_index := (Robot.path_index robot + 1)%nat in
        if bool_decide (length (Robot.path robot) <= path_index)%nat then
          (Robot.mk (Robot.id robot) next_pos [] 0 (Robot.priority robot)
             IDLE false,
           match OrderManager.find_order_by_robot om (Robot.id robot) with
           | Some k => OrderManager.complete_order om k time_elapsed
           | None => om
           end)
        else
          (Robot.mk (Robot.id robot) next_pos (Robot.path robot) path_index
             (Robot.priority robot) (Robot.status robot) false,
           om)
  end.

Definition _move_robots (self : t) : t :=
  let tables := fold_left record_move (robots self) (∅, ∅) in
  let '(robots', om') :=
    fold_left (fun acc robot =>
                 let '(moved, om) := acc in
                 let '(robot', om') :=
                   move_robot tables (time_elapsed self) om robot in
                 (moved ++ [robot'], om'))
      (robots self) ([], order_manager self) in
  mk robots' om' (time_elapsed self) (is_running self).

(** [_simulation_step]; [new_order] holds the two draws when the random test
    decides to generate an order. *)
Definition _simulation_step (env : Environment) (self : t)
    (new_order : option (nat * nat)) : t :=
  let time_elapsed := time_elapsed self + 1 in
  let om :=
    match new_order with
    | Some (draw1, draw2) =>
        match OrderManager.generate_random_order env (order_manager self)
                time_elapsed draw1 draw2 with
        | Some (_, om) => om
        | None => order_manager self
        end
    | None => order_manager self
    end in
  let self := mk (robots self) om time_elapsed (is_running self) in
  _move_robots (_assign_orders env self).

Definition get_robot_at_position (self : t) (position : Position)
    : option Robot.t :=
  List.find (fun robot => bool_decide (Robot.position robot = position))
    (robots self).

Definition is_position_in_robot_path (position : Position) (robot : Robot.t)
    : bool :=
  match Robot.path robot with
  | [] => false
  | _ =>
      bool_decide
        (position ∈ drop (Robot.path_index robot) (Robot.path robot))
  end.

Definition get_path_step_number (position : Position) (robot : Robot.t) : nat :=
  match Robot.path robot with
  | [] => 0%nat
  | _ =>
      match py_index position
              (drop (Robot.path_index robot) (Robot.path robot)) with
      | Some k => (k + 1)%nat
      | None => 0%nat
      end
  end.
End MAPFSimulator.

(** ** Specification vocabulary *)

(** The cost of a walk along the edges of [get_valid_moves]. *)
Inductive walk_cost (env : Environment) : Position -> Position -> Z -> Prop :=
  | walk_here p : walk_cost env p p 0
  | walk_step p q g c k :
      In (q, c) (get_valid_moves env p) ->
      walk_cost env q g k ->
      walk_cost env p g (c + k).

(** A path, read as the positions at times 0, 1, ..., whose every move passes
    the collision check against [others]. *)
Definition collision_free (others : list (list Position))
    (p : list Position) : Prop :=
  forall (t : nat) cur next,
    p !! t = Some cur -> p !! S t = Some next ->
    _has_collision cur next (S t) others = false.

(** What every node of the open set satisfies during a search from [start]. *)
Definition node_ok (start : Position) (others : list (list Position))
    (n : AStarNode.t) : Prop :=
  AStarNode.time n = length (AStarNode.path n) /\
  head (AStarNode.path n ++ [AStarNode.position n]) = Some start /\
  collision_free others (AStarNode.path n ++ [AStarNode.position n]).

(** Two paths that share no cell and swap no cells at the times [t >= 1] which
    both cover. *)
Definition compatible (P Q : list Position) : Prop :=
  forall t : nat,
    (S t < length P)%nat -> (S t < length Q)%nat ->
    P !! S t <> Q !! S t /\
    ~ (P !! t = Q !! S t /\ P !! S t = Q !! t).

(** The state of the planner's loop: later obstacle paths are compatible with
    earlier ones, and every entry of [paths] starts at the position of a robot
    with that id and is either a single cell or the obstacle path recorded for
    that id. *)
Definition planner_inv (robots : list Robot.t)
    (st : gmap Z (list Position) * list (list Position)) : Prop :=
  exists owners : list Z,
    length owners = length st.2 /\
    (forall (k1 k2 : nat) Q P,
       (k1 < k2)%nat -> st.2 !! k1 = Some Q -> st.2 !! k2 = Some P ->
       compatible P Q) /\
    (forall i P,
       st.1 !! i = Some P ->
       exists r, r ∈ robots /\ Robot.id r = i /\
         head P = Some (Robot.position r) /\
         (length P = 1%nat \/
          exists k : nat, owners !! k = Some i /\ st.2 !! k = Some P)).

(** The heap order on an array: no item is smaller than its parent.  [key]
    is what [__lt__] compares. *)
Definition heap_ok {A : Type} (key : A -> Z) (h : list A) : Prop :=
  forall (i : nat) x p,
    (0 < i)%nat -> h !! i = Some x -> h !! ((i - 1) / 2)%nat = Some p ->
    key p <= key x.

(** The heap order everywhere but between [pos] and its parent, the children
    of [pos] being no smaller than that parent: the state of [_siftdown]
    with the new item written at [pos]. *)
Definition heap_ok_but {A : Type} (key : A -> Z) (h : list A) (pos : nat)
    : Prop :=
  (forall (i : nat) x p,
     (0 < i)%nat -> i <> pos ->
     h !! i = Some x -> h !! ((i - 1) / 2)%nat = Some p -> key p <= key x) /\
  (forall (c : nat) x g,
     (0 < pos)%nat -> (0 < c)%nat -> ((c - 1) / 2)%nat = pos ->
     h !! c = Some x -> h !! ((pos - 1) / 2)%nat = Some g -> key g <= key x).

(** The state of the first loop of [_siftup]: while [pos] is the root, the
    heap order holds below the children of the root; once a child has been
    moved up, it holds everywhere. *)
Definition heap_ok_under {A : Type} (key : A -> Z) (h : list A) (pos : nat)
    : Prop :=
  forall (i : nat) x p,
    (0 < i)%nat -> (pos = 0%nat -> ((i - 1) / 2)%nat <> 0%nat) ->
    h !! i = Some x -> h !! ((i - 1) / 2)%nat = Some p -> key p <= key x.

(** The states that a search from [start] with horizon [max_time] can close:
    the start at time 0 and, at a time [t] from 1 to the horizon, the cells of
    the two rows within [t] columns of the start. *)
Definition state_universe (start : Position) (max_time : Z)
    : list (Position * nat) :=
  let T := Z.to_nat max_time in
  (start, 0%nat) ::
  flat_map (fun t =>
    flat_map (fun r =>
      map (fun dc => (mkPosition r (col start + Z.of_nat dc - Z.of_nat T), S t))
          (seq 0 (2 * T + 1)))
      [0; 1])
    (seq 0 T).

Definition state_in_range (start : Position) (max_time : Z)
    (s : Position * nat) : Prop :=
  s = (start, 0%nat) \/
  ((1 <= s.2 <= Z.to_nat max_time)%nat /\
   (row s.1 = 0 \/ row s.1 = 1) /\
   Z.abs (col s.1 - col start) <= Z.of_nat s.2).

Definition node_in_range (start : Position) (max_time : Z)
    (n : AStarNode.t) : Prop :=
  state_in_range start max_time (AStarNode.position n, AStarNode.time n).

(** The open sets that pushes and pops can build. *)
Inductive open_set_reachable : list AStarNode.t -> Prop :=
  | reachable_empty : open_set_reachable []
  | reachable_push h n :
      open_set_reachable h ->
      open_set_reachable (heappush AStarNode.lt h n)
  | reachable_pop h n h' :
      open_set_reachable h ->
      heappop AStarNode.lt h = Some (n, h') ->
      open_set_reachable h'.

(** The open sets that the rounds of a call of [find_path] find. *)
Definition open_set_in_run (env : Environment) (start goal : Position)
    (others : list (list Position)) (max_time : Z) (h : list AStarNode.t)
    : Prop :=
  exists (k : nat) closed_set,
    loop_state env goal others max_time k
      (heappush AStarNode.lt []
         (AStarNode.mk start 0 0 (heuristic start goal) [])) [] =
    Some (h, closed_set).

(** What a tie-breaking rule on [g_cost] and position looks at. *)
Definition tie_break_key (n : AStarNode.t) : Z * Position :=
  (AStarNode.g_cost n, AStarNode.position n).

(** In some round of the call, a node of key [kn] is popped while a node of
    key [km] and of the same [f_cost] stays in the open set. *)
Definition popped_over (env : Environment) (start goal : Position)
    (others : list (list Position)) (max_time : Z) (kn km : Z * Position)
    : Prop :=
  exists h n h' m,
    open_set_in_run env start goal others max_time h /\
    heappop AStarNode.lt h = Some (n, h') /\
    m ∈ h' /\ AStarNode.f_cost m = AStarNode.f_cost n /\
    tie_break_key n = kn /\ tie_break_key m = km.

(** A tie-breaking rule [prefer] on the keys is respected when, in every call
    of [find_path], no node left in the open set is preferred to the popped
    node of equal [f_cost]. *)
Definition tie_break_respected
    (prefer : Z * Position -> Z * Position -> Prop) : Prop :=
  forall env start goal others max_time kn km,
    popped_over env start goal others max_time kn km -> ~ prefer km kn.

(** The failure kinds that the specification names. *)
Inductive FailureKind : Type :=
  | NoPathWithinHorizon
  | SearchNodeCapExceeded
  | InvalidGoal
  | InvalidStart.

(** ** Example inputs *)

(** The goals of a head-on crossing of the simulator's two robots. *)
Definition crossing_goals : gmap Z Position :=
  {[ 1 := mkPosition 0 4; 2 := mkPosition 0 0 ]}.

(** A robot whose goal lies beyond the last room: no search reaches it. *)
Definition stranded_robot : Robot.t :=
  Robot.mk 1 (mkPosition 1 0) [] 0 1 IDLE false.

Definition unreachable_goals : gmap Z Position := {[ 1 := mkPosition 0 5 ]}.

(** Two nodes of equal [f_cost] that differ in [g_cost] and in position. *)
Definition tie_shallow : AStarNode.t :=
  AStarNode.mk (mkPosition 1 1) 1 1 3 [mkPosition 1 1].

Definition tie_deep : AStarNode.t :=
  AStarNode.mk (mkPosition 1 2) 2 2 3 [mkPosition 1 1; mkPosition 1 1].

(** ** Vocabulary for walks and for the search graph *)

(** A list of cells in which each cell is followed by one of its moves. *)
Definition valid_walk (env : Environment) (p : list Position) : Prop :=
  forall (t : nat) cur next,
    p !! t = Some cur -> p !! S t = Some next ->
    exists c, In (next, c) (get_valid_moves env cur).

(** One expansion of the search: from the state [s], before the horizon, along
    a move that passes the collision check. *)
Definition search_step (env : Environment) (others : list (list Position))
    (max_time : Z) (s s' : Position * nat) : Prop :=
  Z.of_nat s.2 < max_time /\ s'.2 = S s.2 /\
  (exists c, In (s'.1, c) (get_valid_moves env s.1)) /\
  _has_collision s.1 s'.1 s'.2 others = false.

(** A state that is closed or waits in the open set. *)
Definition covered (open_set : list AStarNode.t)
    (closed_set : list (Position * nat)) (s : Position * nat) : Prop :=
  s ∈ closed_set \/
  exists n, n ∈ open_set /\ (AStarNode.position n, AStarNode.time n) = s.

(** What the loop of [find_path] keeps: no closed state is on the goal, the
    start state is covered, and so is every successor of a closed state. *)
Definition search_inv (env : Environment) (start goal : Position)
    (others : list (list Position)) (max_time : Z)
    (open_set : list AStarNode.t) (closed_set : list (Position * nat))
    : Prop :=
  (forall s, s ∈ closed_set -> s.1 <> goal) /\
  covered open_set closed_set (start, 0%nat) /\
  (forall s s', s ∈ closed_set -> search_step env others max_time s s' ->
                covered open_set closed_set s').

(** What the nodes of the open set are, beyond [node_ok]: the cells of a node
    form a walk, and a node made by an expansion lies within the horizon. *)
Definition node_walk (env : Environment) (max_time : Z) (n : AStarNode.t)
    : Prop :=
  AStarNode.time n = length (AStarNode.path n) /\
  valid_walk env (AStarNode.path n ++ [AStarNode.position n]) /\
  (AStarNode.time n = 0%nat \/ Z.of_nat (AStarNode.time n) <= max_time).

(** ** Vocabulary for the entries of the planner *)

(** An entry [P] under the id [i]: it belongs to a robot of that id which has
    a goal, starts on the cell of the robot, is either that single cell or
    ends on the goal, follows moves of the environment, and is no longer than
    the default horizon of 50 moves allows. *)
Definition entry_shape (env : Environment) (goals : gmap Z Position)
    (robots : list Robot.t) (i : Z) (P : list Position) : Prop :=
  exists r g,
    In r robots /\ Robot.id r = i /\ goals !! i = Some g /\
    head P = Some (Robot.position r) /\
    (P = [Robot.position r] \/ last P = Some g) /\
    valid_walk env P /\ (length P <= 51)%nat.

(** The robots that have a goal. *)
Definition has_goal (goals : gmap Z Position) (r : Robot.t) : bool :=
  bool_decide (is_Some (goals !! Robot.id r)).

(** The order in which the planner takes the robots. *)
Definition priority_le (a b : Robot.t) : Prop :=
  Robot.priority a <= Robot.priority b.

(** ** Vocabulary for the reservation table *)

(** The owner of a cell, or of a directed edge, at a time, if any. *)
Definition vertex_owner (self : ReservationTable.t) (time : Z) (pos : Z * Z)
    : option Z :=
  ReservationTable.vertex_table self !! time ≫= (.!! pos).

Definition edge_owner (self : ReservationTable.t) (time : Z)
    (edge : (Z * Z) * (Z * Z)) : option Z :=
  ReservationTable.edge_table self !! time ≫= (.!! edge).

(** A table in which every reservation belongs to [agent_id]. *)
Definition owned_only_by (agent_id : Z) (self : ReservationTable.t) : Prop :=
  (forall time pos o, vertex_owner self time pos = Some o -> o = agent_id) /\
  (forall time edge o, edge_owner self time edge = Some o -> o = agent_id).

(** ** Vocabulary for orders and for the simulation steps *)

(** The order of Python on pairs of ints. *)
Definition pair_le (a b : Z * Z) : Prop :=
  a.1 < b.1 \/ (a.1 = b.1 /\ a.2 <= b.2).

(** The cell that a robot is about to enter, as the key of
    [position_conflicts]. *)
Definition next_key (robot : Robot.t) : option (Z * Z) :=
  (fun p => (row p, col p)) <$> Robot.path robot !! Robot.path_index robot.

(** The robots that are about to enter the cell [key], in list order. *)
Definition contenders (robots : list Robot.t) (key : Z * Z) : list Robot.t :=
  List.filter (fun r => MAPFSimulator.wants_to_move r &&
                        bool_decide (next_key r = Some key)) robots.

(** A robot is idle with no path, or moving with a step of its path left. *)
Definition robot_wf (r : Robot.t) : Prop :=
  (Robot.status r = IDLE /\ Robot.path r = [] /\ Robot.path_index r = 0%nat) \/
  (Robot.status r = MOVING /\
   (Robot.path_index r < length (Robot.path r))%nat).

(** Three robots on the move, two of them towards the same cell. *)
Definition two_movers : MAPFSimulator.t :=
  MAPFSimulator.mk
    [ Robot.mk 1 (mkPosition 1 1) [mkPosition 1 2] 0 1 MOVING false;
      Robot.mk 2 (mkPosition 1 3) [mkPosition 1 2] 0 2 MOVING false;
      Robot.mk 3 (mkPosition 1 0) [mkPosition 1 1] 0 3 MOVING false ]
    OrderManager.init 0 true.

(** * Facts about the heap *)

Section heapq_facts.
Context {A : Type} (lt : A -> A -> bool).

Lemma heappush_nil (x : A) : heappush lt [] x = [x].
Proof. reflexivity. Qed.

Lemma heappop_singleton (x : A) : heappop lt [x] = Some (x, []).
Proof. reflexivity. Qed.

(** *** The heap operations neither invent items nor change the size *)

Variable P : A -> Prop.

Lemma siftdown_loop_Forall fuel heap newitem startpos pos :
  Forall P heap -> P newitem ->
  Forall P (_siftdown_loop lt fuel heap newitem startpos pos).
Proof.
  revert heap pos.
  induction fuel as [|fuel IH]; intros heap pos Hh Hn; cbn [_siftdown_loop].
  - by apply Forall_insert.
  - case_bool_decide; [| by apply Forall_insert].
    destruct (heap !! ((pos - 1) / 2)%nat) as [parent|] eqn:Hp; [| done].
    destruct (lt newitem parent); [| by apply Forall_insert].
    apply IH; [| done].
    apply Forall_insert; [done |]. by eapply Forall_lookup_1.
Qed.

Lemma siftdown_Forall heap startpos pos :
  Forall P heap -> Forall P (_siftdown lt heap startpos pos).
Proof.
  intros Hh. unfold _siftdown.
  destruct (heap !! pos) as [newitem|] eqn:Hn; [| done].
  apply siftdown_loop_Forall; [done |]. by eapply Forall_lookup_1.
Qed.

Lemma siftup_loop_Forall fuel heap endpos pos :
  Forall P heap -> Forall P (_siftup_loop lt fuel heap endpos pos).1.
Proof.
  revert heap pos.
  induction fuel as [|fuel IH]; intros heap pos Hh; cbn [_siftup_loop];
    [done |].
  case_bool_decide; [| done].
  match goal with |- context [heap !! ?c] =>
    match c with (if _ then _ else _) =>
      generalize c; intros childpos end end.
  destruct (heap !! childpos) as [c|] eqn:Hc; [| done].
  apply IH. apply Forall_insert; [done |]. by eapply Forall_lookup_1.
Qed.

Lemma siftup_Forall heap pos :
  Forall P heap -> Forall P (_siftup lt heap pos).
Proof.
  intros Hh. unfold _siftup.
  destruct (heap !! pos) as [newitem|] eqn:Hn; [| done].
  pose proof (siftup_loop_Forall (length heap) heap (length heap) pos Hh) as Hl.
  destruct (_siftup_loop lt (length heap) heap (length heap) pos) as [heap' pos'].
  apply siftdown_Forall, Forall_insert; [exact Hl |].
  exact (Forall_lookup_1 _ _ _ _ Hh Hn).
Qed.

Lemma heappush_Forall heap item :
  Forall P heap -> P item -> Forall P (heappush lt heap item).
Proof.
  intros Hh Hi. unfold heappush. apply siftdown_Forall.
  apply Forall_app; split; [done |]. by constructor.
Qed.

Lemma heappop_Forall heap item heap' :
  Forall P heap -> heappop lt heap = Some (item, heap') ->
  P item /\ Forall P heap'.
Proof.
  intros Hh. unfold heappop.
  destruct (last heap) as [lastelt|] eqn:Hlast; [| done].
  assert (P lastelt) as Hl.
  { rewrite last_lookup in Hlast. by eapply Forall_lookup_1. }
  pose proof (Forall_take P (length heap - 1)%nat heap Hh) as Ht.
  destruct (take (length heap - 1)%nat heap) as [|returnitem rest] eqn:Htake.
  - intros [= <- <-]. by split.
  - intros [= <- <-]. inversion Ht; subst. split; [done |].
    apply siftup_Forall. cbn. by constructor.
Qed.
End heapq_facts.

Section heapq_length.
Context {A : Type} (lt : A -> A -> bool).

Lemma siftdown_loop_length fuel heap (newitem : A) startpos pos :
  length (_siftdown_loop lt fuel heap newitem startpos pos) = length heap.
Proof.
  revert heap pos.
  induction fuel as [|fuel IH]; intros heap pos; cbn [_siftdown_loop].
  - by rewrite length_insert.
  - case_bool_decide; [| by rewrite length_insert].
    destruct (heap !! ((pos - 1) / 2)%nat) as [parent|]; [| done].
    destruct (lt newitem parent); [| by rewrite length_insert].
    by rewrite IH, length_insert.
Qed.

Lemma siftdown_length (heap : list A) startpos pos :
  length (_siftdown lt heap startpos pos) = length heap.
Proof.
  unfold _siftdown. destruct (heap !! pos); [| done].
  apply siftdown_loop_length.
Qed.

Lemma siftup_loop_length fuel (heap : list A) endpos pos :
  length (_siftup_loop lt fuel heap endpos pos).1 = length heap.
Proof.
  revert heap pos.
  induction fuel as [|fuel IH]; intros heap pos; cbn [_siftup_loop];
    [done |].
  case_bool_decide; [| done].
  match goal with |- context [heap !! ?c] =>
    match c with (if _ then _ else _) =>
      generalize c; intros childpos end end.
  destruct (heap !! childpos) as [c|]; [| done].
  by rewrite IH, length_insert.
Qed.

Lemma siftup_length (heap : list A) pos :
  length (_siftup lt heap pos) = length heap.
Proof.
  unfold _siftup. destruct (heap !! pos); [| done].
  pose proof (siftup_loop_length (length heap) heap (length heap) pos) as Hl.
  destruct (_siftup_loop lt (length heap) heap (length heap) pos) as [heap' pos'].
  cbn in Hl. by rewrite siftdown_length, length_insert.
Qed.

Lemma heappush_length (heap : list A) item :
  length (heappush lt heap item) = S (length heap).
Proof.
  unfold heappush. rewrite siftdown_length, length_app. cbn. lia.
Qed.

Lemma heappop_length (heap : list A) item heap' :
  heappop lt heap = Some (item, heap') ->
  length heap = S (length heap').
Proof.
  unfold heappop.
  destruct (last heap) as [lastelt|] eqn:Hlast; [| done].
  assert (0 < length heap)%nat as Hpos.
  { destruct heap; [done | cbn; lia]. }
  pose proof (length_take heap (length heap - 1)%nat) as Ht.
  destruct (take (length heap - 1)%nat heap) as [|returnitem rest] eqn:Htake.
  - intros [= <- <-]. cbn in *. lia.
  - intros [= <- <-]. rewrite siftup_length. cbn in *. lia.
Qed.

Lemma heappop_nil_iff (heap : list A) : heappop lt heap = None <-> heap = [].
Proof.
  unfold heappop. split.
  - destruct (last heap) eqn:Hlast.
    + by destruct (take (length heap - 1)%nat heap).
    + intros _. by apply last_None.
  - by intros ->.
Qed.
End heapq_length.

(** *** The heap order *)

Section heap_order.
Context {A : Type} (lt : A -> A -> bool) (key : A -> Z).
Hypothesis lt_key : forall a b, lt a b = (key a <? key b).

Local Ltac Zify.zify_post_hook ::= Z.div_mod_to_equations.

Lemma heap_ok_nil : heap_ok key [].
Proof. intros i x p _ Hx. by rewrite lookup_nil in Hx. Qed.

(** The root of a heap is a least item. *)
Lemma heap_ok_root_least h r :
  heap_ok key h -> h !! 0%nat = Some r ->
  Forall (fun y => key r <= key y) h.
Proof.
  intros Hh Hr. apply Forall_lookup. intros i.
  induction i as [i IH] using lt_wf_ind. intros y Hy.
  destruct (decide (i = 0%nat)) as [->|Hi].
  - rewrite Hr in Hy. injection Hy as <-. lia.
  - destruct (lookup_lt_is_Some_2 h ((i - 1) / 2)%nat) as [p Hp].
    { apply lookup_lt_Some in Hy. lia. }
    pose proof (IH ((i - 1) / 2)%nat ltac:(lia) p Hp).
    pose proof (Hh i y p ltac:(lia) Hy Hp). lia.
Qed.

Lemma siftdown_loop_heap_ok fuel heap newitem pos :
  (pos <= fuel)%nat -> (pos < length heap)%nat ->
  heap_ok_but key (<[pos := newitem]> heap) pos ->
  heap_ok key (_siftdown_loop lt fuel heap newitem 0 pos).
Proof.
  revert heap pos.
  induction fuel as [|fuel IH]; intros heap pos Hfuel Hlen [H1 H2];
    cbn [_siftdown_loop].
  { intros i x p Hi. apply H1; lia. }
  case_bool_decide as Hpos.
  2:{ intros i x p Hi. apply H1; lia. }
  destruct (lookup_lt_is_Some_2 heap ((pos - 1) / 2)%nat) as [parent Hpar];
    [lia |].
  rewrite Hpar, lt_key.
  destruct (key newitem <? key parent) eqn:Hlt.
  - (* the parent moves down to [pos] *)
    apply Z.ltb_lt in Hlt.
    assert (forall j : nat,
              <[((pos - 1) / 2)%nat := newitem]> (<[pos := parent]> heap) !! j =
              if decide (j = ((pos - 1) / 2)%nat) then Some newitem
              else if decide (j = pos) then Some parent
              else <[pos := newitem]> heap !! j) as Hnew.
    { intros j. repeat case_decide; subst.
      - apply list_lookup_insert_eq. rewrite length_insert. lia.
      - rewrite list_lookup_insert_ne by lia.
        apply list_lookup_insert_eq. lia.
      - by rewrite !list_lookup_insert_ne by lia. }
    assert (<[pos := newitem]> heap !! ((pos - 1) / 2)%nat = Some parent)
      as Hpar'.
    { by rewrite list_lookup_insert_ne by lia. }
    apply IH; [lia | rewrite length_insert; lia |]. split.
    + intros i x p Hi Hne. rewrite !Hnew.
      destruct (decide (i = ((pos - 1) / 2)%nat)) as [|_]; [lia |].
      destruct (decide (i = pos)) as [->|Hip].
      * rewrite decide_True by done. intros [= <-] [= <-]. lia.
      * intros Hx.
        destruct (decide (((i - 1) / 2)%nat = ((pos - 1) / 2)%nat)) as [Hpp|Hpp].
        -- intros [= <-].
           pose proof (H1 i x parent Hi Hip Hx ltac:(by rewrite Hpp)). lia.
        -- destruct (decide (((i - 1) / 2)%nat = pos)) as [Hc|Hc].
           ++ intros [= <-]. by apply (H2 i x parent).
           ++ by apply H1.
    + intros c x g Hpp Hc Hcp. rewrite !Hnew.
      destruct (decide (c = ((pos - 1) / 2)%nat)) as [|_]; [lia |].
      rewrite (decide_False (P := (((pos - 1) / 2 - 1) / 2 = (pos - 1) / 2)%nat))
        by lia.
      rewrite (decide_False (P := (((pos - 1) / 2 - 1) / 2 = pos)%nat)) by lia.
      intros Hx Hg.
      pose proof (H1 ((pos - 1) / 2)%nat parent g Hpp ltac:(lia) Hpar' Hg).
      destruct (decide (c = pos)) as [->|Hcpos].
      * injection Hx as <-. lia.
      * pose proof (H1 c x parent Hc Hcpos Hx ltac:(by rewrite Hcp)). lia.
  - (* the new item has found its place *)
    apply Z.ltb_ge in Hlt.
    intros i x p Hi Hx Hp.
    destruct (decide (i = pos)) as [->|Hip]; [| by apply (H1 i)].
    rewrite list_lookup_insert_eq in Hx by lia.
    rewrite list_lookup_insert_ne, Hpar in Hp by lia.
    injection Hx as <-. injection Hp as <-. lia.
Qed.

Lemma siftdown_heap_ok heap pos :
  (pos < length heap)%nat -> heap_ok_but key heap pos ->
  heap_ok key (_siftdown lt heap 0 pos).
Proof.
  intros Hlen Hh. unfold _siftdown.
  destruct (lookup_lt_is_Some_2 heap pos Hlen) as [newitem Hn]. rewrite Hn.
  apply siftdown_loop_heap_ok; [lia | done |].
  by rewrite list_insert_id.
Qed.

Lemma heappush_heap_ok heap item :
  heap_ok key heap -> heap_ok key (heappush lt heap item).
Proof.
  intros Hh. unfold heappush.
  rewrite length_app. cbn [length].
  replace (length heap + 1 - 1)%nat with (length heap) by lia.
  apply siftdown_heap_ok; [rewrite length_app; cbn; lia |]. split.
  - intros i x p Hi Hne Hx Hp.
    assert (i < length heap)%nat.
    { apply lookup_lt_Some in Hx. rewrite length_app in Hx. cbn in Hx. lia. }
    rewrite lookup_app_l in Hx, Hp by lia. by apply (Hh i).
  - intros c x g _ Hc Hcp Hx.
    apply lookup_lt_Some in Hx. rewrite length_app in Hx. cbn in Hx. lia.
Qed.

(** The first loop of [_siftup] ends on a leaf and leaves the heap order
    everywhere. *)
Lemma siftup_loop_heap_ok fuel heap pos :
  (length heap <= fuel + pos)%nat -> (pos < length heap)%nat ->
  heap_ok_under key heap pos ->
  let '(heap', pos') := _siftup_loop lt fuel heap (length heap) pos in
  length heap' = length heap /\ (pos' < length heap)%nat /\
  (length heap <= 2 * pos' + 1)%nat /\ heap_ok_under key heap' pos'.
Proof.
  revert heap pos.
  induction fuel as [|fuel IH]; intros heap pos Hfuel Hlen Hh;
    cbn [_siftup_loop].
  { repeat split; [lia.. | done]. }
  case_bool_decide as Hchild.
  2:{ repeat split; [lia.. | done]. }
  destruct (lookup_lt_is_Some_2 heap (2 * pos + 1)%nat Hchild) as [c Hc].
  set (rightpos := (2 * pos + 1 + 1)%nat).
  (* the child that is chosen is no larger than either child *)
  assert (exists (childpos : nat) m,
            (if bool_decide (rightpos < length heap)%nat then
               match heap !! (2 * pos + 1)%nat, heap !! rightpos with
               | Some c, Some r => if lt c r then (2 * pos + 1)%nat else rightpos
               | _, _ => (2 * pos + 1)%nat
               end
             else (2 * pos + 1)%nat) = childpos /\
            heap !! childpos = Some m /\
            ((childpos - 1) / 2)%nat = pos /\ (pos < childpos)%nat /\
            (childpos < length heap)%nat /\
            forall (i : nat) x,
              ((i - 1) / 2)%nat = pos -> (0 < i)%nat ->
              heap !! i = Some x -> key m <= key x)
    as (childpos & m & -> & Hm & Hcp & Hcgt & Hclen & Hmin).
  { case_bool_decide as Hright.
    - destruct (lookup_lt_is_Some_2 heap rightpos Hright) as [r Hr].
      rewrite Hc, Hr, lt_key.
      destruct (key c <? key r) eqn:Hlt.
      + apply Z.ltb_lt in Hlt.
        exists (2 * pos + 1)%nat, c. repeat split; [done | lia | lia | done |].
        intros i x Hi Hi0 Hx.
        assert (i = (2 * pos + 1)%nat \/ i = rightpos) as [->| ->]
          by (unfold rightpos; lia).
        * rewrite Hc in Hx. injection Hx as <-. lia.
        * rewrite Hr in Hx. injection Hx as <-. lia.
      + apply Z.ltb_ge in Hlt.
        exists rightpos, r. repeat split;
          [done | unfold rightpos; lia | unfold rightpos; lia | done |].
        intros i x Hi Hi0 Hx.
        assert (i = (2 * pos + 1)%nat \/ i = rightpos) as [->| ->]
          by (unfold rightpos; lia).
        * rewrite Hc in Hx. injection Hx as <-. lia.
        * rewrite Hr in Hx. injection Hx as <-. lia.
    - exists (2 * pos + 1)%nat, c. repeat split; [done | lia | lia | done |].
      intros i x Hi Hi0 Hx.
      assert (i = (2 * pos + 1)%nat) as ->.
      { apply lookup_lt_Some in Hx. unfold rightpos in Hright. lia. }
      rewrite Hc in Hx. injection Hx as <-. lia. }
  rewrite Hm.
  specialize (IH (<[pos := m]> heap) childpos).
  rewrite length_insert in IH.
  destruct (_siftup_loop lt fuel (<[pos := m]> heap) (length heap) childpos)
    as [heap' pos'].
  apply IH; [lia | done |].
  intros i x p Hi _ Hx Hp.
  destruct (decide (((i - 1) / 2)%nat = pos)) as [Hipar|Hipar].
  - (* a child of [pos] against the item moved up *)
    rewrite Hipar, list_lookup_insert_eq in Hp by lia. injection Hp as <-.
    rewrite list_lookup_insert_ne in Hx by lia. by apply (Hmin i).
  - rewrite list_lookup_insert_ne in Hp by lia.
    destruct (decide (i = pos)) as [->|Hipos].
    + (* [pos] against its own parent *)
      rewrite list_lookup_insert_eq in Hx by lia. injection Hx as <-.
      destruct (lookup_lt_is_Some_2 heap pos Hlen) as [old Hold].
      pose proof (Hh pos old p Hi ltac:(lia) Hold Hp).
      pose proof (Hh childpos m old ltac:(lia) ltac:(lia) Hm
                    ltac:(by rewrite Hcp)).
      lia.
    + rewrite list_lookup_insert_ne in Hx by lia.
      apply (Hh i x p); [done | lia | done | done].
Qed.

Lemma siftup_root_heap_ok heap :
  (0 < length heap)%nat -> heap_ok_under key heap 0 ->
  heap_ok key (_siftup lt heap 0).
Proof.
  intros Hlen Hh. unfold _siftup.
  destruct (lookup_lt_is_Some_2 heap 0%nat Hlen) as [newitem Hn]. rewrite Hn.
  pose proof (siftup_loop_heap_ok (length heap) heap 0%nat
                ltac:(lia) Hlen Hh) as Hloop.
  destruct (_siftup_loop lt (length heap) heap (length heap) 0)
    as [heap' pos'].
  destruct Hloop as (Hlen' & Hpos' & Hleaf & Hh').
  apply siftdown_heap_ok; [rewrite length_insert; lia |]. split.
  - intros i x p Hi Hne Hx Hp.
    assert (i < length heap')%nat as Hil.
    { apply lookup_lt_Some in Hx. rewrite length_insert in Hx. lia. }
    rewrite list_lookup_insert_ne in Hx, Hp by lia.
    apply (Hh' i x p); [done | lia | done | done].
  - intros c x g _ Hc Hcp Hx.
    apply lookup_lt_Some in Hx. rewrite length_insert in Hx. lia.
Qed.

Lemma heappop_heap_ok heap item heap' :
  heap_ok key heap -> heappop lt heap = Some (item, heap') ->
  heap_ok key heap'.
Proof.
  intros Hh. unfold heappop.
  destruct (last heap) as [lastelt|]; [| done].
  destruct (take (length heap - 1)%nat heap) as [|returnitem rest] eqn:Htake.
  { intros [= <- <-]. apply heap_ok_nil. }
  intros [= <- <-]. apply siftup_root_heap_ok.
  { cbn. lia. }
  assert (forall j : nat, j <> 0%nat ->
            <[0%nat:=lastelt]> (returnitem :: rest) !! j =
            take (length heap - 1)%nat heap !! j) as Hsame.
  { intros [|j] Hj; [done | by rewrite Htake]. }
  intros i x p Hi Hpar Hx Hp.
  rewrite Hsame in Hx, Hp by lia.
  rewrite lookup_take in Hx, Hp. repeat case_decide; try done.
  by apply (Hh i).
Qed.

(** [heappop] returns a least item of a heap. *)
Lemma heappop_least heap item heap' :
  heap_ok key heap -> heappop lt heap = Some (item, heap') ->
  Forall (fun y => key item <= key y) heap'.
Proof.
  intros Hh Hpop.
  destruct heap as [|r heap0] eqn:Hheap; [done |].
  rewrite <- Hheap in *.
  assert (heap !! 0%nat = Some r) as Hr by (by rewrite Hheap).
  clear Hheap.
  pose proof (heap_ok_root_least heap r Hh Hr) as Hleast.
  destruct (heappop_Forall lt _ heap item heap' Hleast Hpop) as [Hitem Hrest].
  assert (key item = key r) as ->; [| done].
  revert Hpop. unfold heappop.
  destruct (last heap) as [lastelt|] eqn:Hlast; [| done].
  destruct (take (length heap - 1)%nat heap) as [|returnitem rest] eqn:Htake.
  - intros [= <- <-].
    assert (length heap = 1%nat) as Hone.
    { pose proof (length_take heap (length heap - 1)%nat) as Ht.
      rewrite Htake in Ht. cbn in Ht.
      apply lookup_lt_Some in Hr. lia. }
    rewrite last_lookup, Hone in Hlast. cbn in Hlast. congruence.
  - intros [= <- <-].
    assert (take (length heap - 1)%nat heap !! 0%nat = Some returnitem) as H0
      by (by rewrite Htake).
    rewrite lookup_take in H0. case_decide; [| done]. congruence.
Qed.
End heap_order.

(** * Start equal to goal *)

Lemma search_fuel_pos max_time : exists n, search_fuel max_time = S n.
Proof.
  unfold search_fuel. exists (5 * closable_states max_time + 1)%nat. lia.
Qed.

(** C10: a search whose start is its goal returns the one-element path [[g]],
    whatever the other robots' paths and the horizon are. *)
Theorem find_path_start_is_goal (env : Environment) (g : Position)
    (other_robot_paths : list (list Position)) (max_time : Z) :
  find_path env g g other_robot_paths max_time = [g].
Proof.
  unfold find_path.
  destruct (search_fuel_pos max_time) as [n ->].
  rewrite heappush_nil. cbn [find_path_loop].
  rewrite heappop_singleton. cbn [AStarNode.position AStarNode.path].
  rewrite bool_decide_eq_true_2 by reflexivity. reflexivity.
Qed.

(** * The heuristic *)

(** C3: for a room goal the heuristic is not admissible.  At the goal itself
    it is 1 instead of 0, and from the corridor cell below the room it is 2
    although one move of cost 1 reaches the goal. *)
Theorem heuristic_overestimates_room_goal (env : Environment) (c : Z) :
  let g := mkPosition 0 c in
  heuristic g g = 1 /\
  walk_cost env (mkPosition 1 c) g 1 /\
  heuristic (mkPosition 1 c) g = 2.
Proof.
  cbn zeta. unfold heuristic. cbn [row col].
  replace (c - c) with 0 by lia. cbn.
  split; [reflexivity | split; [| reflexivity]].
  apply (walk_step env (mkPosition 1 c) (mkPosition 0 c) (mkPosition 0 c) 1 0);
    [| constructor].
  unfold get_valid_moves. cbn [row col]. cbn [Z.eqb Pos.eqb].
  apply in_or_app. right. apply in_or_app. right. left. reflexivity.
Qed.

(** * Obstacle paths end *)

Lemma path_collides_after_end cur next (t : nat) (Q : list Position) :
  (length Q <= t)%nat -> path_collides cur next t Q = false.
Proof.
  intros Hlen. unfold path_collides.
  rewrite (bool_decide_eq_false_2 (t < length Q)%nat) by lia.
  cbn. rewrite !andb_false_r. reflexivity.
Qed.

(** C4 (as the code has it): an obstacle path constrains only the time steps
    it covers.  From time [len(Q)] on, an obstacle path [Q] rejects no move at
    all, in particular not a move into its last cell: the collision check
    gives the same answer with [Q] as without it. *)
Theorem has_collision_ignores_ended_path cur next (t : nat)
    (Q : list Position) (before after : list (list Position)) :
  (length Q <= t)%nat ->
  _has_collision cur next t (before ++ Q :: after) =
  _has_collision cur next t (before ++ after).
Proof.
  intros Hlen. unfold _has_collision. rewrite !existsb_app. cbn [existsb].
  rewrite path_collides_after_end by exact Hlen. reflexivity.
Qed.

Lemma has_collision_ignores_ended_path_witness :
  (length [mkPosition 1 1] <= 1)%nat /\
  _has_collision (mkPosition 1 0) (mkPosition 1 1) 1 [[mkPosition 1 1]] =
  _has_collision (mkPosition 1 0) (mkPosition 1 1) 1 [].
Proof.
  split; [cbn; lia |].
  apply (has_collision_ignores_ended_path (mkPosition 1 0) (mkPosition 1 1) 1
           [mkPosition 1 1] [] []).
  cbn; lia.
Defined.

(** C4, against the claim: the idle robot 1 of the simulator is represented
    by 20 copies of its cell, and at time 20 a move into that cell passes the
    collision check. *)
Lemma has_collision_idle_robot_expires :
  let Q := replicate 20 (mkPosition 1 0) in
  _get_other_robot_paths initial_robots 2 = [Q] /\
  (length Q <= 20)%nat /\
  last Q = Some (mkPosition 1 0) /\
  _has_collision (mkPosition 1 1) (mkPosition 1 0) 20 [Q] = false.
Proof. vm_compute. repeat split; reflexivity || lia. Qed.

(** * The reservation table *)

Section fold_left_idempotent.
Context {St X : Type} (f : St -> X -> St).
Hypothesis f_idem : forall s x, f (f s x) x = f s x.
Hypothesis f_comm : forall s x y, f (f s x) y = f (f s y) x.

Lemma fold_left_comm_step (l : list X) (s : St) (x : X) :
  f (fold_left f l s) x = fold_left f l (f s x).
Proof.
  revert s. induction l as [|y l IH]; intros s; cbn; [reflexivity |].
  rewrite IH, f_comm. reflexivity.
Qed.

Lemma fold_left_twice (l : list X) (s : St) :
  fold_left f l (fold_left f l s) = fold_left f l s.
Proof.
  revert s. induction l as [|x l IH]; intros s; cbn; [reflexivity |].
  rewrite fold_left_comm_step, f_idem. apply IH.
Qed.
End fold_left_idempotent.

Module ReservationTableFacts.
Import ReservationTable.

Section setitem2.
Context `{Countable K}.
Implicit Types (d : gmap Z (gmap K Z)) (k : K).

Lemma setitem2_insert d (t : Z) k (a : Z) :
  setitem2 d t k a = <[t := <[k := a]> (default ∅ (d !! t))]> d.
Proof.
  unfold setitem2, defaultdict_getitem.
  destruct (d !! t) as [v|]; cbn; [reflexivity |].
  apply insert_insert_eq.
Qed.

Lemma setitem2_idem d (t : Z) k (a : Z) :
  setitem2 (setitem2 d t k a) t k a = setitem2 d t k a.
Proof.
  rewrite !setitem2_insert, lookup_insert_eq. cbn.
  rewrite !insert_insert_eq. reflexivity.
Qed.

Lemma setitem2_comm d (t t' : Z) k k' (a : Z) :
  setitem2 (setitem2 d t k a) t' k' a = setitem2 (setitem2 d t' k' a) t k a.
Proof.
  rewrite !setitem2_insert.
  destruct (decide (t = t')) as [<-|Hne].
  - rewrite !lookup_insert_eq. cbn. rewrite !insert_insert_eq.
    destruct (decide (k = k')) as [<-|Hk]; [reflexivity |].
    f_equal. apply insert_insert_ne. congruence.
  - rewrite !lookup_insert_ne by congruence.
    apply insert_insert_ne. congruence.
Qed.
End setitem2.

Lemma reserve_step_idem path start_time agent_id self ipos :
  reserve_step path start_time agent_id
    (reserve_step path start_time agent_id self ipos) ipos =
  reserve_step path start_time agent_id self ipos.
Proof.
  destruct ipos as [i pos]. unfold reserve_step.
  destruct (bool_decide (0 < i)%nat); [destruct (path !! (i - 1)%nat) |];
    cbn [vertex_table edge_table]; rewrite ?setitem2_idem; reflexivity.
Qed.

Lemma reserve_step_comm path start_time agent_id self ipos jpos :
  reserve_step path start_time agent_id
    (reserve_step path start_time agent_id self ipos) jpos =
  reserve_step path start_time agent_id
    (reserve_step path start_time agent_id self jpos) ipos.
Proof.
  destruct ipos as [i pos], jpos as [j pos']. unfold reserve_step.
  destruct (bool_decide (0 < i)%nat), (bool_decide (0 < j)%nat);
    try destruct (path !! (i - 1)%nat); try destruct (path !! (j - 1)%nat);
    cbn [vertex_table edge_table]; f_equal; apply setitem2_comm.
Qed.

Lemma reserve_path_twice self path start_time agent_id :
  reserve_path (reserve_path self path start_time agent_id)
    path start_time agent_id =
  reserve_path self path start_time agent_id.
Proof.
  unfold reserve_path. apply fold_left_twice.
  - intros; apply reserve_step_idem.
  - intros; apply reserve_step_comm.
Qed.

(** C8: reserving the same path a second time for the same agent changes
    nothing that a query can see: every [is_vertex_free] and every
    [is_edge_free] query gives the same answer (and leaves the same table)
    after two reservations as after one. *)
Theorem reserve_path_idempotent (self : t) (path : list (Z * Z))
    (start_time agent_id : Z) :
  let once := reserve_path self path start_time agent_id in
  let twice := reserve_path once path start_time agent_id in
  (forall x y time a, is_vertex_free twice x y time a = is_vertex_free once x y time a) /\
  (forall from_pos to_pos time a,
     is_edge_free twice from_pos to_pos time a =
     is_edge_free once from_pos to_pos time a).
Proof.
  cbn zeta. rewrite reserve_path_twice. split; reflexivity.
Qed.
End ReservationTableFacts.

(** * The space-time search *)

Lemma has_collision_false_elem cur next t others Q :
  _has_collision cur next t others = false -> Q ∈ others ->
  path_collides cur next t Q = false.
Proof.
  unfold _has_collision. intros Hex HQ.
  destruct (path_collides cur next t Q) eqn:Hc; [| done].
  assert (existsb (path_collides cur next t) others = true) as Ht; [| congruence].
  apply existsb_exists. exists Q. split; [by apply list_elem_of_In | done].
Qed.

Lemma path_collides_false cur next (t : nat) (Q : list Position) :
  path_collides cur next (S t) Q = false ->
  (S t < length Q)%nat ->
  Q !! S t <> Some next /\
  ~ (Some cur = Q !! S t /\ Some next = Q !! t).
Proof.
  unfold path_collides. intros Hc Hlen.
  apply orb_false_elim in Hc as [Hv He].
  rewrite (bool_decide_eq_true_2 _ Hlen) in Hv, He. cbn in Hv.
  rewrite (bool_decide_eq_true_2 (0 < S t)%nat) in He by lia.
  rewrite (bool_decide_eq_true_2 (S t - 1 < length Q)%nat) in He by lia.
  cbn [andb] in He. replace (S t - 1)%nat with t in He by lia.
  split.
  - by apply bool_decide_eq_false in Hv.
  - intros [H1 H2].
    rewrite (bool_decide_eq_true_2 _ H1), (bool_decide_eq_true_2 _ H2) in He.
    done.
Qed.

Lemma collision_free_compatible others P Q :
  collision_free others P -> Q ∈ others -> compatible P Q.
Proof.
  intros Hfree HQ t HtP HtQ.
  destruct (lookup_lt_is_Some_2 P t) as [cur Hcur]; [lia |].
  destruct (lookup_lt_is_Some_2 P (S t)) as [next Hnext]; [lia |].
  pose proof (Hfree t cur next Hcur Hnext) as Hc.
  apply has_collision_false_elem with (Q := Q) in Hc; [| done].
  apply path_collides_false in Hc as [Hv He]; [| done].
  rewrite Hcur, Hnext. split; [congruence |].
  intros [H1 H2]. apply He. by split.
Qed.

Lemma compatible_sym P Q : compatible P Q -> compatible Q P.
Proof.
  intros H t HQ HP. destruct (H t HP HQ) as [Hv He].
  split; [congruence |]. intros [H1 H2]. apply He. by split.
Qed.

Section find_path_facts.
Variable env : Environment.
Variables (start goal : Position) (others : list (list Position))
          (max_time : Z).

Lemma node_ok_start h :
  node_ok start others (AStarNode.mk start 0 0 h []).
Proof.
  repeat split.
  intros t cur next _ Hnext. by destruct t.
Qed.

Lemma node_ok_successor current next_pos g f :
  node_ok start others current ->
  _has_collision (AStarNode.position current) next_pos
    (AStarNode.time current + 1) others = false ->
  node_ok start others
    (AStarNode.mk next_pos (AStarNode.time current + 1) g f
       (AStarNode.path current ++ [AStarNode.position current])).
Proof.
  intros (Htime & Hhead & Hfree) Hcol.
  set (full := AStarNode.path current ++ [AStarNode.position current]) in *.
  assert (length full = S (AStarNode.time current)) as Hlen.
  { unfold full. rewrite length_app, Htime. cbn. lia. }
  unfold node_ok. cbn [AStarNode.time AStarNode.path AStarNode.position].
  split; [lia |]. split.
  - destruct full; [done | exact Hhead].
  - intros t cur next Hcur Hnext.
    destruct (decide (S t < length full)%nat) as [Hlt|Hge].
    + rewrite lookup_app_l in Hcur, Hnext by lia. by eapply Hfree.
    + assert (S t = length full) as Ht.
      { apply lookup_lt_Some in Hnext. rewrite length_app in Hnext.
        cbn in Hnext. lia. }
      rewrite lookup_app_l in Hcur by lia.
      rewrite lookup_app_r in Hnext by lia.
      replace (S t - length full)%nat with 0%nat in Hnext by lia.
      injection Hnext as <-.
      assert (cur = AStarNode.position current) as ->.
      { unfold full in Hcur. rewrite lookup_app_r in Hcur by lia.
        replace (t - length (AStarNode.path current))%nat with 0%nat
          in Hcur by lia.
        by injection Hcur. }
      rewrite Ht, Hlen. by replace (S (AStarNode.time current))
        with (AStarNode.time current + 1)%nat by lia.
Qed.

Lemma expand_move_ok current closed_set open_set move :
  node_ok start others current ->
  Forall (node_ok start others) open_set ->
  Forall (node_ok start others)
    (expand_move goal others current closed_set open_set move).
Proof.
  intros Hcur Hopen. destruct move as [next_pos move_cost].
  unfold expand_move.
  destruct (_has_collision _ _ _ _) eqn:Hcol; [done |].
  case_bool_decide; [done |].
  apply heappush_Forall; [done |]. by apply node_ok_successor.
Qed.

Lemma expand_moves_ok current closed_set moves open_set :
  node_ok start others current ->
  Forall (node_ok start others) open_set ->
  Forall (node_ok start others)
    (fold_left (expand_move goal others current closed_set) moves open_set).
Proof.
  intros Hcur. revert open_set.
  induction moves as [|m moves IH]; intros open_set Hopen; cbn; [done |].
  apply IH. by apply expand_move_ok.
Qed.

Lemma find_path_loop_ok fuel open_set closed_set p :
  Forall (node_ok start others) open_set ->
  find_path_loop env goal others max_time fuel open_set closed_set = Some p ->
  p = [] \/ (head p = Some start /\ collision_free others p).
Proof.
  revert open_set closed_set.
  induction fuel as [|fuel IH]; intros open_set closed_set Hopen; cbn; [done |].
  destruct (heappop AStarNode.lt open_set) as [[current open_set']|] eqn:Hpop.
  2:{ intros [= <-]. by left. }
  destruct (heappop_Forall _ _ _ _ _ Hopen Hpop) as [Hcur Hopen'].
  case_bool_decide.
  { intros [= <-]. right. by destruct Hcur as (_ & ? & ?). }
  case_bool_decide; [by apply IH |].
  destruct (max_time <=? _); [by apply IH |].
  apply IH. by apply expand_moves_ok.
Qed.

(** A path returned by the search starts at [start] and each of its moves
    passes the collision check. *)
Lemma find_path_ok p :
  find_path env start goal others max_time = p -> p <> [] ->
  head p = Some start /\ collision_free others p.
Proof.
  unfold find_path. intros Hp Hne.
  destruct (find_path_loop _ _ _ _ _ _ _) as [q|] eqn:Hloop; [| congruence].
  subst q. apply find_path_loop_ok in Hloop as [?|?]; [congruence | done |].
  rewrite heappush_nil. constructor; [apply node_ok_start | constructor].
Qed.
End find_path_facts.

(** * The prioritized planner *)

Lemma insert_by_priority_perm r l : insert_by_priority r l ≡ₚ r :: l.
Proof.
  induction l as [|x l IH]; cbn; [done |].
  destruct (Robot.priority r <=? Robot.priority x); [done |].
  rewrite IH. apply Permutation_swap.
Qed.

Lemma sorted_perm robots : sorted robots ≡ₚ robots.
Proof.
  induction robots as [|r robots IH]; cbn; [done |].
  by rewrite insert_by_priority_perm, IH.
Qed.

Lemma sorted_elem_of r robots : r ∈ sorted robots <-> r ∈ robots.
Proof. by rewrite sorted_perm. Qed.

Section planner_facts.
Variable env : Environment.
Variable goals : gmap Z Position.

Lemma planner_inv_init robots : planner_inv robots (∅, []).
Proof.
  exists []. cbn. split; [done |]. split.
  - intros k1 k2 Q P _ HQ. done.
  - intros i P Hi. by rewrite lookup_empty in Hi.
Qed.

Lemma plan_robot_inv robots st r :
  r ∈ robots -> planner_inv robots st ->
  planner_inv robots (plan_robot env goals st r).
Proof.
  intros Hr Hinv. destruct st as [paths plist]. unfold plan_robot.
  destruct (goals !! Robot.id r) as [goal|]; [| done].
  destruct (find_path env (Robot.position r) goal plist 50)
    as [|p0 p] eqn:Hfind.
  - (* the search failed: the robot stays in place *)
    destruct Hinv as (owners & Hlen & Hpair & Hdict).
    exists owners. cbn [fst snd] in *. split; [done |]. split; [done |].
    intros i P. rewrite lookup_insert. case_decide as Hid.
    + intros [= <-]. exists r. split; [done |]. split; [done |].
      split; [done |]. by left.
    + by apply Hdict.
  - (* a path was found and becomes an obstacle *)
    destruct (find_path_ok _ _ _ _ _ _ Hfind) as [Hhead Hfree]; [done |].
    destruct Hinv as (owners & Hlen & Hpair & Hdict).
    exists (owners ++ [Robot.id r]). cbn [fst snd] in *.
    split; [by rewrite !length_app, Hlen |]. split.
    + intros k1 k2 Q P Hk HQ HP.
      destruct (decide (k2 < length plist)%nat) as [Hlt|Hge].
      * rewrite lookup_app_l in HQ, HP by lia.
        exact (Hpair k1 k2 Q P Hk HQ HP).
      * assert (k2 = length plist) as ->.
        { apply lookup_lt_Some in HP. rewrite length_app in HP.
          cbn in HP. lia. }
        rewrite lookup_app_l in HQ by lia.
        rewrite lookup_app_r, Nat.sub_diag in HP by lia.
        injection HP as <-.
        eapply collision_free_compatible; [done |].
        by eapply list_elem_of_lookup_2.
    + intros i P. rewrite lookup_insert. case_decide as Hid.
      * subst i. intros [= <-]. exists r. split; [done |]. split; [done |].
        split; [done |].
        right. exists (length plist). split.
        -- rewrite lookup_app_r by lia.
           by replace (length plist - length owners)%nat with 0%nat by lia.
        -- rewrite lookup_app_r by lia. by rewrite Nat.sub_diag.
      * intros HP. destruct (Hdict i P HP) as (r' & ? & ? & ? & Hcase).
        exists r'. split; [done |]. split; [done |]. split; [done |].
        destruct Hcase as [?|(k & Ho & Hk)]; [by left | right].
        exists k. split.
        -- rewrite lookup_app_l; [done |]. by eapply lookup_lt_Some.
        -- rewrite lookup_app_l; [done |]. by eapply lookup_lt_Some.
Qed.

Lemma plan_robots_inv robots rs st :
  (forall r, r ∈ rs -> r ∈ robots) -> planner_inv robots st ->
  planner_inv robots (fold_left (plan_robot env goals) rs st).
Proof.
  revert st. induction rs as [|r rs IH]; intros st Hsub Hinv; cbn; [done |].
  apply IH.
  - intros r' Hr'. apply Hsub. by right.
  - apply plan_robot_inv; [| done]. apply Hsub. by left.
Qed.

Lemma solve_inv robots :
  planner_inv robots
    (fold_left (plan_robot env goals) (sorted robots) (∅, [])).
Proof.
  apply plan_robots_inv; [| apply planner_inv_init].
  intros r. by rewrite sorted_elem_of.
Qed.

(** Two entries of the result under different ids whose paths both cover
    time [t + 1] are compatible. *)
Lemma solve_compatible robots i j Pi Pj :
  i <> j ->
  solve_multi_robot_path env robots goals !! i = Some Pi ->
  solve_multi_robot_path env robots goals !! j = Some Pj ->
  (1 < length Pi)%nat -> (1 < length Pj)%nat ->
  compatible Pi Pj.
Proof.
  unfold solve_multi_robot_path. intros Hij Hi Hj Hli Hlj.
  destruct (solve_inv robots) as (owners & Hlen & Hpair & Hdict).
  destruct (Hdict i Pi Hi) as (_ & _ & _ & _ & [?|(ki & Hoi & Hki)]); [lia |].
  destruct (Hdict j Pj Hj) as (_ & _ & _ & _ & [?|(kj & Hoj & Hkj)]); [lia |].
  destruct (Nat.lt_trichotomy ki kj) as [Hlt|[->|Hgt]].
  - apply compatible_sym. exact (Hpair ki kj Pi Pj Hlt Hki Hkj).
  - congruence.
  - exact (Hpair kj ki Pj Pi Hgt Hkj Hki).
Qed.
End planner_facts.

(** C1 (as the code ensures it): two paths returned for different robots
    never share a cell at a time [t >= 1]; at time 0 they do not share a cell
    either when the robots of these two ids start on different cells. *)
Theorem planner_vertex_conflict_free (env : Environment)
    (robots : list Robot.t) (goals : gmap Z Position)
    (i j : Z) (Pi Pj : list Position) (t : nat) :
  i <> j ->
  solve_multi_robot_path env robots goals !! i = Some Pi ->
  solve_multi_robot_path env robots goals !! j = Some Pj ->
  (t < length Pi)%nat -> (t < length Pj)%nat ->
  (t = 0%nat ->
   forall r1 r2, r1 ∈ robots -> r2 ∈ robots ->
     Robot.id r1 = i -> Robot.id r2 = j ->
     Robot.position r1 <> Robot.position r2) ->
  Pi !! t <> Pj !! t.
Proof.
  intros Hij Hi Hj Hti Htj Hstart.
  destruct t as [|t].
  - pose proof (solve_inv env goals robots) as (owners & _ & _ & Hdict).
    destruct (Hdict i Pi Hi) as (ri & Hri & Hidi & Hhi & _).
    destruct (Hdict j Pj Hj) as (rj & Hrj & Hidj & Hhj & _).
    rewrite <- !head_lookup, Hhi, Hhj. intros [= Heq].
    by apply (Hstart eq_refl ri rj).
  - apply (solve_compatible env goals robots i j Pi Pj); [done.. | lia | lia | lia | lia].
Qed.

(** C2: two paths returned for different robots never swap two cells between
    consecutive time steps. *)
Theorem planner_swap_conflict_free (env : Environment)
    (robots : list Robot.t) (goals : gmap Z Position)
    (i j : Z) (Pi Pj : list Position) (t : nat) :
  i <> j ->
  solve_multi_robot_path env robots goals !! i = Some Pi ->
  solve_multi_robot_path env robots goals !! j = Some Pj ->
  (1 <= t)%nat -> (t < length Pi)%nat -> (t < length Pj)%nat ->
  ~ (Pi !! (t - 1)%nat = Pj !! t /\ Pi !! t = Pj !! (t - 1)%nat).
Proof.
  intros Hij Hi Hj Ht Hti Htj.
  destruct t as [|t]; [lia |].
  replace (S t - 1)%nat with t by lia.
  apply (solve_compatible env goals robots i j Pi Pj); [done.. | lia | lia | lia | lia].
Qed.

Lemma initial_robots_distinct_starts r1 r2 :
  r1 ∈ initial_robots -> r2 ∈ initial_robots ->
  Robot.id r1 <> Robot.id r2 -> Robot.position r1 <> Robot.position r2.
Proof.
  unfold initial_robots. intros H1 H2.
  apply list_elem_of_In in H1, H2. cbn in H1, H2.
  destruct H1 as [<-|[<-|[]]], H2 as [<-|[<-|[]]]; cbn; congruence.
Qed.

Lemma planner_vertex_conflict_free_witness :
  let P1 := [mkPosition 1 0; mkPosition 1 1; mkPosition 1 2; mkPosition 1 3;
             mkPosition 1 4; mkPosition 0 4] in
  let P2 := [mkPosition 1 4; mkPosition 1 3; mkPosition 0 3; mkPosition 0 3;
             mkPosition 1 3; mkPosition 1 2; mkPosition 1 1; mkPosition 1 0;
             mkPosition 0 0] in
  solve_multi_robot_path Environment_init initial_robots crossing_goals !! 1
    = Some P1 /\
  solve_multi_robot_path Environment_init initial_robots crossing_goals !! 2
    = Some P2 /\
  P1 !! 0%nat <> P2 !! 0%nat.
Proof.
  cbn zeta.
  split; [vm_compute; reflexivity |]. split; [vm_compute; reflexivity |].
  apply (planner_vertex_conflict_free Environment_init initial_robots
           crossing_goals 1 2).
  - lia.
  - vm_compute; reflexivity.
  - vm_compute; reflexivity.
  - cbn; lia.
  - cbn; lia.
  - intros _ r1 r2 Hr1 Hr2 Hid1 Hid2.
    apply initial_robots_distinct_starts; [done | done | lia].
Defined.

(** C1, against the claim: two robots that start on the same cell get paths
    that share that cell at time 0. *)
Lemma planner_shared_start_cell :
  let robots := [ Robot.mk 1 (mkPosition 1 0) [] 0 1 IDLE false;
                  Robot.mk 2 (mkPosition 1 0) [] 0 2 IDLE false ] in
  let goals : gmap Z Position :=
    {[ 1 := mkPosition 0 0; 2 := mkPosition 1 1 ]} in
  let P1 := [mkPosition 1 0; mkPosition 0 0] in
  let P2 := [mkPosition 1 0; mkPosition 1 1] in
  solve_multi_robot_path Environment_init robots goals !! 1 = Some P1 /\
  solve_multi_robot_path Environment_init robots goals !! 2 = Some P2 /\
  (0 < Nat.min (length P1) (length P2))%nat /\
  P1 !! 0%nat = P2 !! 0%nat.
Proof. vm_compute. repeat split; reflexivity || lia. Qed.

Lemma planner_swap_conflict_free_witness :
  let P1 := [mkPosition 1 0; mkPosition 1 1; mkPosition 1 2; mkPosition 1 3;
             mkPosition 1 4; mkPosition 0 4] in
  let P2 := [mkPosition 1 4; mkPosition 1 3; mkPosition 0 3; mkPosition 0 3;
             mkPosition 1 3; mkPosition 1 2; mkPosition 1 1; mkPosition 1 0;
             mkPosition 0 0] in
  solve_multi_robot_path Environment_init initial_robots crossing_goals !! 1
    = Some P1 /\
  solve_multi_robot_path Environment_init initial_robots crossing_goals !! 2
    = Some P2 /\
  ~ (P1 !! (4 - 1)%nat = P2 !! 4%nat /\ P1 !! 4%nat = P2 !! (4 - 1)%nat).
Proof.
  cbn zeta.
  split; [vm_compute; reflexivity |]. split; [vm_compute; reflexivity |].
  apply (planner_swap_conflict_free Environment_init initial_robots
           crossing_goals 1 2).
  - lia.
  - vm_compute; reflexivity.
  - vm_compute; reflexivity.
  - lia.
  - cbn; lia.
  - cbn; lia.
Defined.

(** * Priorities *)

(** The stable sort keeps the robots of priority number at most [p] in front,
    in the order in which it sorts them alone. *)
Lemma insert_by_priority_app_l (p : Z) r A B :
  Robot.priority r <= p ->
  Forall (fun y => p < Robot.priority y) B ->
  insert_by_priority r (A ++ B) = insert_by_priority r A ++ B.
Proof.
  intros Hr HB. induction A as [|a A IH]; cbn.
  - destruct HB as [|y B Hy HB]; cbn; [done |].
    by rewrite (proj2 (Z.leb_le _ _)) by lia.
  - destruct (Robot.priority r <=? Robot.priority a); [done |].
    by rewrite IH.
Qed.

Lemma insert_by_priority_app_r r A B :
  Forall (fun y => Robot.priority y < Robot.priority r) A ->
  insert_by_priority r (A ++ B) = A ++ insert_by_priority r B.
Proof.
  intros HA. induction HA as [|a A Ha HA IH]; cbn; [done |].
  rewrite (proj2 (Z.leb_gt _ _)) by lia. by rewrite IH.
Qed.

Lemma sorted_split (p : Z) robots :
  sorted robots =
  sorted (List.filter (fun x => Robot.priority x <=? p) robots) ++
  sorted (List.filter (fun x => negb (Robot.priority x <=? p)) robots).
Proof.
  induction robots as [|r robots IH]; [done |].
  change (sorted (r :: robots)) with (insert_by_priority r (sorted robots)).
  rewrite IH. cbn [List.filter].
  destruct (Robot.priority r <=? p) eqn:Hr; cbn [negb].
  - change (sorted (r :: ?l)) with (insert_by_priority r (sorted l)).
    apply insert_by_priority_app_l with (p := p); [lia |].
    rewrite sorted_perm. apply Forall_forall. intros y Hy.
    apply list_elem_of_In, filter_In in Hy as [_ Hy].
    apply negb_true_iff, Z.leb_gt in Hy. lia.
  - change (sorted (r :: ?l)) with (insert_by_priority r (sorted l)).
    apply insert_by_priority_app_r.
    rewrite sorted_perm. apply Forall_forall. intros y Hy.
    apply list_elem_of_In, filter_In in Hy as [_ Hy].
    apply Z.leb_le in Hy. apply Z.leb_gt in Hr. lia.
Qed.

Lemma filter_filter_keep {X : Type} (f keep : X -> bool) (l : list X) :
  (forall x, In x l -> f x = true -> keep x = true) ->
  List.filter f (List.filter keep l) = List.filter f l.
Proof.
  induction l as [|x l IH]; intros Hk; cbn; [done |].
  destruct (keep x) eqn:Hkx; cbn.
  - rewrite IH; [done |]. intros y Hy. apply Hk. by right.
  - destruct (f x) eqn:Hfx.
    + rewrite (Hk x) in Hkx; [done | by left | done].
    + apply IH. intros y Hy. apply Hk. by right.
Qed.

Section priority_facts.
Variable env : Environment.
Variable goals : gmap Z Position.

(** Planning a robot only writes the entry of its own id. *)
Lemma plan_robot_other_id st r (i : Z) :
  Robot.id r <> i -> (plan_robot env goals st r).1 !! i = st.1 !! i.
Proof.
  intros Hid. destruct st as [paths plist]. unfold plan_robot.
  destruct (goals !! Robot.id r); [| done].
  destruct (find_path _ _ _ _ _); cbn; by rewrite lookup_insert_ne.
Qed.

Lemma plan_robots_other_id rs st (i : Z) :
  (forall x, In x rs -> Robot.id x <> i) ->
  (fold_left (plan_robot env goals) rs st).1 !! i = st.1 !! i.
Proof.
  revert st. induction rs as [|r rs IH]; intros st Hrs; cbn; [done |].
  rewrite IH by (intros x Hx; apply Hrs; by right).
  apply plan_robot_other_id, Hrs. by left.
Qed.

(** The entry of id [i] is decided by the robots of priority number at most
    [p], when no robot of larger priority number carries that id. *)
Lemma solve_prefix robots (p i : Z) :
  (forall x, In x robots -> Robot.id x = i -> Robot.priority x <= p) ->
  solve_multi_robot_path env robots goals !! i =
  (fold_left (plan_robot env goals)
     (sorted (List.filter (fun x => Robot.priority x <=? p) robots))
     (∅, [])).1 !! i.
Proof.
  intros Hid. unfold solve_multi_robot_path.
  rewrite (sorted_split p robots), fold_left_app.
  apply plan_robots_other_id. intros x Hx Hxi.
  apply list_elem_of_In in Hx. rewrite sorted_perm in Hx.
  apply list_elem_of_In, filter_In in Hx as [Hx Hp].
  apply negb_true_iff, Z.leb_gt in Hp.
  specialize (Hid x Hx Hxi). lia.
Qed.
End priority_facts.

(** C7 (as the code ensures it): when no robot of strictly lower priority
    (larger priority number) carries the id of [r], the path returned for [r],
    which is the entry under its id, is the same whether or not robots of
    strictly lower priority are present: removing any of them with [keep]
    leaves that entry unchanged. *)
Theorem priority_respected (env : Environment) (robots : list Robot.t)
    (goals : gmap Z Position) (keep : Robot.t -> bool) (r : Robot.t) :
  In r robots ->
  (forall x, In x robots ->
     Robot.priority x <= Robot.priority r -> keep x = true) ->
  (forall x, In x robots ->
     Robot.id x = Robot.id r -> Robot.priority x <= Robot.priority r) ->
  solve_multi_robot_path env (List.filter keep robots) goals !! Robot.id r =
  solve_multi_robot_path env robots goals !! Robot.id r.
Proof.
  intros _ Hkeep Hid.
  rewrite (solve_prefix env goals robots (Robot.priority r) (Robot.id r) Hid).
  rewrite (solve_prefix env goals (List.filter keep robots)
             (Robot.priority r) (Robot.id r)).
  - rewrite filter_filter_keep; [done |].
    intros x Hx Hp. apply Hkeep; [done |]. by apply Z.leb_le.
  - intros x Hx. apply filter_In in Hx as [Hx _]. by apply Hid.
Qed.

Lemma priority_respected_witness :
  let r1 := Robot.mk 1 (mkPosition 1 0) [] 0 1 IDLE false in
  let keep := fun x => Robot.id x =? 1 in
  List.filter keep initial_robots = [r1] /\
  solve_multi_robot_path Environment_init [r1] crossing_goals !! 1 =
  solve_multi_robot_path Environment_init initial_robots crossing_goals !! 1.
Proof.
  cbn zeta. split; [reflexivity |].
  apply (priority_respected Environment_init initial_robots crossing_goals
           (fun x => Robot.id x =? 1)
           (Robot.mk 1 (mkPosition 1 0) [] 0 1 IDLE false)).
  - cbn; left; reflexivity.
  - intros x Hx. cbn in Hx. destruct Hx as [<-|[<-|[]]]; cbn; [reflexivity | lia].
  - intros x Hx. cbn in Hx. destruct Hx as [<-|[<-|[]]]; cbn; lia.
Defined.

(** C7, against the claim: the planner stores its paths under the ids of the
    robots, so a robot of strictly lower priority that carries the id of [r]
    is planned later and overwrites the path returned for [r]. *)
Lemma priority_lost_to_shared_id :
  let r := Robot.mk 1 (mkPosition 1 0) [] 0 1 IDLE false in
  let x := Robot.mk 1 (mkPosition 1 4) [] 0 2 IDLE false in
  let goals : gmap Z Position := {[ 1 := mkPosition 0 2 ]} in
  Robot.priority r < Robot.priority x /\
  List.filter (fun y => Robot.priority y <=? Robot.priority r) [r; x] = [r] /\
  solve_multi_robot_path Environment_init [r] goals !! Robot.id r =
    Some [mkPosition 1 0; mkPosition 1 1; mkPosition 1 2; mkPosition 0 2] /\
  solve_multi_robot_path Environment_init [r; x] goals !! Robot.id r =
    Some [mkPosition 1 4; mkPosition 1 3; mkPosition 1 3; mkPosition 1 2;
          mkPosition 0 2] /\
  solve_multi_robot_path Environment_init [r; x] goals !! Robot.id r <>
  solve_multi_robot_path Environment_init [r] goals !! Robot.id r.
Proof.
  cbn zeta.
  assert (solve_multi_robot_path Environment_init
            [Robot.mk 1 (mkPosition 1 0) [] 0 1 IDLE false]
            {[ 1 := mkPosition 0 2 ]} !! 1 =
          Some [mkPosition 1 0; mkPosition 1 1; mkPosition 1 2; mkPosition 0 2])
    as H1 by (vm_compute; reflexivity).
  assert (solve_multi_robot_path Environment_init
            [Robot.mk 1 (mkPosition 1 0) [] 0 1 IDLE false;
             Robot.mk 1 (mkPosition 1 4) [] 0 2 IDLE false]
            {[ 1 := mkPosition 0 2 ]} !! 1 =
          Some [mkPosition 1 4; mkPosition 1 3; mkPosition 1 3; mkPosition 1 2;
                mkPosition 0 2])
    as H2 by (vm_compute; reflexivity).
  cbn [Robot.id Robot.priority]. rewrite H1, H2.
  split; [lia |]. split; [reflexivity |]. repeat split. congruence.
Qed.

(** * Failed searches *)

(** C5 (as the code has it): when the search of robot [r] fails, the planner
    records the one-cell path [[r.position]] under the id of [r] and leaves
    the obstacle list as it was; unless a later robot carries the same id,
    that one-cell path is what the planner returns for [r]. *)
Theorem failed_search_stays_in_place (env : Environment)
    (robots : list Robot.t) (goals : gmap Z Position)
    (before after : list Robot.t) (r : Robot.t) (goal : Position) :
  sorted robots = before ++ r :: after ->
  goals !! Robot.id r = Some goal ->
  find_path env (Robot.position r) goal
    (fold_left (plan_robot env goals) before (∅, [])).2 50 = [] ->
  let st := fold_left (plan_robot env goals) before (∅, []) in
  fold_left (plan_robot env goals) (before ++ [r]) (∅, []) =
    (<[Robot.id r := [Robot.position r]]> st.1, st.2) /\
  ((forall x, In x after -> Robot.id x <> Robot.id r) ->
   solve_multi_robot_path env robots goals !! Robot.id r =
     Some [Robot.position r]).
Proof.
  intros Hsorted Hgoal Hfail. cbn zeta.
  unfold solve_multi_robot_path. rewrite Hsorted.
  rewrite !fold_left_app. cbn [fold_left].
  destruct (fold_left (plan_robot env goals) before (∅, []))
    as [paths plist] eqn:Hst.
  cbn [fst snd] in *.
  assert (plan_robot env goals (paths, plist) r =
          (<[Robot.id r := [Robot.position r]]> paths, plist)) as Hstep.
  { unfold plan_robot. by rewrite Hgoal, Hfail. }
  split; [exact Hstep |].
  intros Hafter.
  rewrite plan_robots_other_id by exact Hafter.
  rewrite Hstep. cbn [fst]. apply lookup_insert_eq.
Qed.

Lemma failed_search_stays_in_place_witness :
  fold_left (plan_robot Environment_init unreachable_goals) [stranded_robot]
    (∅, []) = ({[ 1 := [mkPosition 1 0] ]}, []) /\
  solve_multi_robot_path Environment_init [stranded_robot] unreachable_goals
    !! 1 = Some [mkPosition 1 0].
Proof.
  pose proof (failed_search_stays_in_place Environment_init [stranded_robot]
                unreachable_goals [] [] stranded_robot (mkPosition 0 5)) as H.
  cbn zeta in H.
  destruct H as [H1 H2]; [reflexivity | reflexivity | vm_compute; reflexivity |].
  split; [exact H1 |]. apply H2. intros x [].
Defined.

(** C5, against the claim: the robot whose search failed is given a path, the
    single cell on which it stands. *)
Lemma failed_search_is_given_a_path :
  find_path Environment_init (Robot.position stranded_robot) (mkPosition 0 5)
    [] 50 = [] /\
  solve_multi_robot_path Environment_init [stranded_robot] unreachable_goals
    !! Robot.id stranded_robot = Some [mkPosition 1 0].
Proof. split; vm_compute; reflexivity. Qed.

(** C6, against the claim: a start outside the grid and a horizon that is too
    short are two different kinds of failure, and the search answers both with
    the same empty list, so that nothing computed from the answer can tell the
    kinds apart. *)
Lemma failures_are_not_distinguished :
  let invalid_start :=
    find_path Environment_init (mkPosition 2 0) (mkPosition 0 0) [] 50 in
  let short_horizon :=
    find_path Environment_init (mkPosition 1 0) (mkPosition 0 4) [] 2 in
  is_valid_position Environment_init (mkPosition 2 0) = false /\
  invalid_start = [] /\ short_horizon = [] /\
  ~ exists kind_of : list Position -> FailureKind,
      kind_of invalid_start = InvalidStart /\
      kind_of short_horizon = NoPathWithinHorizon.
Proof.
  cbn zeta.
  assert (find_path Environment_init (mkPosition 2 0) (mkPosition 0 0) [] 50 = [])
    as -> by (vm_compute; reflexivity).
  assert (find_path Environment_init (mkPosition 1 0) (mkPosition 0 4) [] 2 = [])
    as -> by (vm_compute; reflexivity).
  repeat split. intros (kind_of & H1 & H2). congruence.
Qed.

(** [find_path] makes no validity check: a start outside the grid that has
    moves is searched like any other cell. *)
Lemma find_path_from_invalid_start :
  is_valid_position Environment_init (mkPosition 1 7) = false /\
  find_path Environment_init (mkPosition 1 7) (mkPosition 0 3) [] 50 =
    [mkPosition 1 7; mkPosition 1 6; mkPosition 1 5; mkPosition 1 4;
     mkPosition 1 3; mkPosition 0 3].
Proof. split; vm_compute; reflexivity. Qed.

(** * The order of the open set *)

Lemma AStarNode_lt_key a b :
  AStarNode.lt a b = (AStarNode.f_cost a <? AStarNode.f_cost b).
Proof. reflexivity. Qed.

Lemma open_set_reachable_heap_ok h :
  open_set_reachable h -> heap_ok AStarNode.f_cost h.
Proof.
  induction 1 as [|h n _ IH|h n h' _ IH Hpop].
  - apply heap_ok_nil.
  - by apply (heappush_heap_ok _ _ AStarNode_lt_key).
  - by apply (heappop_heap_ok _ _ AStarNode_lt_key h n h').
Qed.

(** The open set of [find_path] is built by pushes and pops only. *)
Lemma expand_moves_reachable goal others current closed_set moves open_set :
  open_set_reachable open_set ->
  open_set_reachable
    (fold_left (expand_move goal others current closed_set) moves open_set).
Proof.
  revert open_set.
  induction moves as [|[next_pos move_cost] moves IH]; intros open_set Hreach;
    cbn [fold_left]; [done |].
  apply IH. unfold expand_move.
  destruct (_has_collision _ _ _ _); [done |].
  case_bool_decide; [done |]. by constructor.
Qed.

(** C9 (as the code has it): the open set is ordered by [f_cost] alone; the
    node that is popped has the least [f_cost] of the open set. *)
Theorem open_set_pops_least_f (h : list AStarNode.t) (n : AStarNode.t)
    (h' : list AStarNode.t) (m : AStarNode.t) :
  open_set_reachable h ->
  heappop AStarNode.lt h = Some (n, h') ->
  m ∈ h' ->
  AStarNode.f_cost n <= AStarNode.f_cost m.
Proof.
  intros Hreach Hpop Hm.
  pose proof (heappop_least AStarNode.lt AStarNode.f_cost h n h'
                (open_set_reachable_heap_ok h Hreach) Hpop) as Hleast.
  rewrite Forall_forall in Hleast. by apply Hleast.
Qed.

Lemma open_set_pops_least_f_witness :
  heappop AStarNode.lt
    (heappush AStarNode.lt (heappush AStarNode.lt [] tie_shallow) tie_deep) =
    Some (tie_shallow, [tie_deep]) /\
  AStarNode.f_cost tie_shallow <= AStarNode.f_cost tie_deep.
Proof.
  split; [reflexivity |].
  apply (open_set_pops_least_f
           (heappush AStarNode.lt (heappush AStarNode.lt [] tie_shallow) tie_deep)
           tie_shallow [tie_deep] tie_deep).
  - repeat constructor.
  - reflexivity.
  - by left.
Defined.

(** The rounds of [loop_state] are those of the loop of [find_path]. *)
Lemma loop_state_find_path_loop env goal others max_time (k fuel : nat)
    open_set closed_set open_set' closed_set' :
  loop_state env goal others max_time k open_set closed_set =
    Some (open_set', closed_set') ->
  find_path_loop env goal others max_time (k + fuel) open_set closed_set =
  find_path_loop env goal others max_time fuel open_set' closed_set'.
Proof.
  revert open_set closed_set.
  induction k as [|k IH]; intros open_set closed_set;
    cbn [loop_state find_path_loop Nat.add].
  - by intros [= -> ->].
  - destruct (heappop AStarNode.lt open_set) as [[current rest]|]; [| done].
    case_bool_decide; [done |].
    case_bool_decide; [apply IH |].
    destruct (max_time <=? Z.of_nat (AStarNode.time current)); apply IH.
Qed.

(** They find open sets built by pushes and pops. *)
Lemma loop_state_reachable env goal others max_time (k : nat)
    open_set closed_set open_set' closed_set' :
  open_set_reachable open_set ->
  loop_state env goal others max_time k open_set closed_set =
    Some (open_set', closed_set') ->
  open_set_reachable open_set'.
Proof.
  revert open_set closed_set.
  induction k as [|k IH]; intros open_set closed_set Hreach;
    cbn [loop_state].
  - by intros [= <- _].
  - destruct (heappop AStarNode.lt open_set) as [[current rest]|] eqn:Hpop;
      [| done].
    pose proof (reachable_pop _ _ _ Hreach Hpop) as Hrest.
    case_bool_decide; [done |].
    case_bool_decide; [by apply IH |].
    destruct (max_time <=? Z.of_nat (AStarNode.time current));
      [by apply IH |].
    apply IH. by apply expand_moves_reachable.
Qed.

Lemma open_set_in_run_reachable env start goal others max_time h :
  open_set_in_run env start goal others max_time h -> open_set_reachable h.
Proof.
  intros (k & closed_set & Hk).
  eapply loop_state_reachable; [| exact Hk]. repeat constructor.
Qed.

Lemma popped_over_intro env start goal others max_time (k i : nat)
    h closed_set n h' m kn km :
  loop_state env goal others max_time k
    (heappush AStarNode.lt []
       (AStarNode.mk start 0 0 (heuristic start goal) [])) [] =
    Some (h, closed_set) ->
  heappop AStarNode.lt h = Some (n, h') ->
  h' !! i = Some m ->
  AStarNode.f_cost m = AStarNode.f_cost n ->
  tie_break_key n = kn -> tie_break_key m = km ->
  popped_over env start goal others max_time kn km.
Proof.
  intros Hk Hpop Hm Hf Hn Hkm. exists h, n, h', m.
  split; [by exists k, closed_set |]. split; [done |].
  split; [by eapply list_elem_of_lookup_2 | done].
Qed.

(** C9, against the claim: in the second search that the planner makes for the
    head-on crossing of the simulator's two robots (from (1,4) to (0,0),
    against the path found for the first robot), round 9 pops a node of
    [g_cost] 2 on (1,4) while a node of [g_cost] 4 on (0,3) and of the same
    [f_cost] waits, and round 10 pops that node while another node of
    [g_cost] 2 on (1,4) and of the same [f_cost] waits.  Whichever of the two
    keys a rule on [g_cost] and position prefers, one of the two rounds pops
    against it. *)
Lemma ties_follow_insertion_order :
  let first_path :=
    find_path Environment_init (mkPosition 1 0) (mkPosition 0 4) [] 50 in
  let popped :=
    popped_over Environment_init (mkPosition 1 4) (mkPosition 0 0)
      [first_path] 50 in
  solve_multi_robot_path Environment_init initial_robots crossing_goals !! 1 =
    Some first_path /\
  solve_multi_robot_path Environment_init initial_robots crossing_goals !! 2 =
    Some (find_path Environment_init (mkPosition 1 4) (mkPosition 0 0)
            [first_path] 50) /\
  popped (2, mkPosition 1 4) (4, mkPosition 0 3) /\
  popped (4, mkPosition 0 3) (2, mkPosition 1 4) /\
  ~ exists prefer : Z * Position -> Z * Position -> Prop,
      (forall k1 k2, k1 <> k2 -> prefer k1 k2 \/ prefer k2 k1) /\
      tie_break_respected prefer.
Proof.
  cbn zeta.
  assert (find_path Environment_init (mkPosition 1 0) (mkPosition 0 4) [] 50 =
          [mkPosition 1 0; mkPosition 1 1; mkPosition 1 2; mkPosition 1 3;
           mkPosition 1 4; mkPosition 0 4]) as ->
    by (vm_compute; reflexivity).
  assert (popped_over Environment_init (mkPosition 1 4) (mkPosition 0 0)
            [[mkPosition 1 0; mkPosition 1 1; mkPosition 1 2; mkPosition 1 3;
              mkPosition 1 4; mkPosition 0 4]] 50
            (2, mkPosition 1 4) (4, mkPosition 0 3)) as H9.
  { eapply (popped_over_intro _ _ _ _ _ 9 0);
      [lazy; reflexivity | lazy; reflexivity | reflexivity..]. }
  assert (popped_over Environment_init (mkPosition 1 4) (mkPosition 0 0)
            [[mkPosition 1 0; mkPosition 1 1; mkPosition 1 2; mkPosition 1 3;
              mkPosition 1 4; mkPosition 0 4]] 50
            (4, mkPosition 0 3) (2, mkPosition 1 4)) as H10.
  { eapply (popped_over_intro _ _ _ _ _ 10 0);
      [lazy; reflexivity | lazy; reflexivity | reflexivity..]. }
  split; [vm_compute; reflexivity |]. split; [vm_compute; reflexivity |].
  split; [done |]. split; [done |].
  intros (prefer & Htotal & Hresp).
  destruct (Htotal (2, mkPosition 1 4) (4, mkPosition 0 3)) as [Hp|Hp];
    [discriminate | |].
  - exact (Hresp _ _ _ _ _ _ _ H10 Hp).
  - exact (Hresp _ _ _ _ _ _ _ H9 Hp).
Qed.

(** * Termination of the search *)

Lemma get_valid_moves_step env p q c :
  In (q, c) (get_valid_moves env p) ->
  (row q = 0 \/ row q = 1) /\ Z.abs (col q - col p) <= 1.
Proof.
  unfold get_valid_moves. intros Hin.
  destruct (row p =? 1).
  - apply in_app_or in Hin as [Hin|Hin].
    { destruct (0 <? col p); [| done].
      destruct Hin as [[= <- <-]|[]]. cbn. lia. }
    apply in_app_or in Hin as [Hin|Hin].
    { destruct (col p <? width env - 1); [| done].
      destruct Hin as [[= <- <-]|[]]. cbn. lia. }
    destruct Hin as [[= <- <-]|[[= <- <-]|[]]]; cbn; lia.
  - destruct (row p =? 0); [| done].
    destruct Hin as [[= <- <-]|[[= <- <-]|[]]]; cbn; lia.
Qed.

Lemma get_valid_moves_length env p :
  (length (get_valid_moves env p) <= 4)%nat.
Proof.
  unfold get_valid_moves.
  destruct (row p =? 1); [| destruct (row p =? 0); cbn; lia].
  destruct (0 <? col p), (col p <? width env - 1); cbn; lia.
Qed.

Lemma length_flat_map_const {X Y : Type} (f : X -> list Y) (k : nat)
    (l : list X) :
  (forall x, length (f x) = k) -> length (flat_map f l) = (length l * k)%nat.
Proof.
  intros Hf. induction l as [|x l IH]; cbn; [done |].
  rewrite length_app, Hf, IH. lia.
Qed.

Lemma state_universe_length start max_time :
  length (state_universe start max_time) = closable_states max_time.
Proof.
  unfold state_universe, closable_states. cbn [length]. f_equal.
  rewrite (length_flat_map_const _ (2 * (2 * Z.to_nat max_time + 1))%nat).
  - by rewrite length_seq.
  - intros t. cbn [flat_map]. rewrite !length_app, !length_map, !length_seq.
    cbn. lia.
Qed.

Lemma state_universe_complete start max_time s :
  state_in_range start max_time s -> s ∈ state_universe start max_time.
Proof.
  intros [->|(Ht & Hrow & Hcol)]; [by left |].
  destruct s as [[r c] t]. cbn [fst snd row col] in *.
  right. apply list_elem_of_In, in_flat_map.
  exists (t - 1)%nat. split; [apply in_seq; lia |].
  apply in_flat_map. exists r. split; [cbn; lia |].
  apply in_map_iff.
  exists (Z.to_nat (c - col start + Z.of_nat (Z.to_nat max_time))).
  split; [| apply in_seq; lia].
  f_equal; [f_equal |]; lia.
Qed.

Section find_path_terminates.
Variable env : Environment.
Variables (start goal : Position) (others : list (list Position))
          (max_time : Z).

Lemma expand_move_in_range current closed_set open_set move :
  node_in_range start max_time current ->
  Z.of_nat (AStarNode.time current) < max_time ->
  In move (get_valid_moves env (AStarNode.position current)) ->
  Forall (node_in_range start max_time) open_set ->
  Forall (node_in_range start max_time)
    (expand_move goal others current closed_set open_set move) /\
  (length (expand_move goal others current closed_set open_set move)
   <= S (length open_set))%nat.
Proof.
  intros Hcur Htime Hmove Hopen. destruct move as [next_pos move_cost].
  unfold expand_move.
  destruct (_has_collision _ _ _ _); [split; [done | lia] |].
  case_bool_decide; [split; [done | lia] |].
  rewrite heappush_length. split; [| lia].
  apply heappush_Forall; [done |].
  apply get_valid_moves_step in Hmove as [Hrow Hcol].
  right. cbn [fst snd AStarNode.position AStarNode.time].
  split; [lia |]. split; [done |].
  destruct Hcur as [[= Hp Ht]|(_ & _ & Hc)]; cbn [fst snd] in *.
  - rewrite Hp in Hcol. lia.
  - lia.
Qed.

Lemma expand_moves_in_range current closed_set moves open_set :
  node_in_range start max_time current ->
  Z.of_nat (AStarNode.time current) < max_time ->
  (forall m, In m moves ->
     In m (get_valid_moves env (AStarNode.position current))) ->
  Forall (node_in_range start max_time) open_set ->
  Forall (node_in_range start max_time)
    (fold_left (expand_move goal others current closed_set) moves open_set) /\
  (length (fold_left (expand_move goal others current closed_set) moves
             open_set)
   <= length open_set + length moves)%nat.
Proof.
  intros Hcur Htime. revert open_set.
  induction moves as [|m moves IH]; intros open_set Hsub Hopen; cbn.
  { split; [done | lia]. }
  destruct (expand_move_in_range current closed_set open_set m)
    as [Hok Hlen]; [done | done | apply Hsub; by left | done |].
  destruct (IH (expand_move goal others current closed_set open_set m))
    as [Hok' Hlen']; [intros m' Hm'; apply Hsub; by right | done |].
  split; [done | lia].
Qed.

(** The loop never runs out of rounds when it is given more of them than
    the nodes which are in the open set or may still be pushed. *)
Lemma find_path_loop_terminates fuel open_set closed_set :
  Forall (node_in_range start max_time) open_set ->
  NoDup closed_set ->
  (forall s, s ∈ closed_set -> s ∈ state_universe start max_time) ->
  (length open_set +
   5 * (closable_states max_time - length closed_set) < fuel)%nat ->
  find_path_loop env goal others max_time fuel open_set closed_set <> None.
Proof.
  revert open_set closed_set.
  induction fuel as [|fuel IH]; intros open_set closed_set Hopen Hnd Hsub Hfuel;
    [lia |].
  cbn [find_path_loop].
  destruct (heappop AStarNode.lt open_set) as [[current open_set']|] eqn:Hpop;
    [| done].
  destruct (heappop_Forall _ _ _ _ _ Hopen Hpop) as [Hcur Hopen'].
  apply heappop_length in Hpop.
  case_bool_decide; [done |].
  case_bool_decide as Hclosed; [apply IH; [done.. | lia] |].
  set (state := (AStarNode.position current, AStarNode.time current)) in *.
  assert (NoDup (state :: closed_set)) as Hnd' by (by apply NoDup_cons).
  assert (forall s, s ∈ state :: closed_set ->
                    s ∈ state_universe start max_time) as Hsub'.
  { intros s [->|Hs]%elem_of_cons; [| by apply Hsub].
    by apply state_universe_complete. }
  assert (length (state :: closed_set) <= closable_states max_time)%nat
    as Hcount.
  { rewrite <- (state_universe_length start).
    by apply submseteq_length, NoDup_submseteq. }
  cbn [length] in Hcount.
  destruct (max_time <=? Z.of_nat (AStarNode.time current)) eqn:Hmax.
  { apply IH; [done.. | cbn [length]; lia]. }
  apply Z.leb_gt in Hmax.
  destruct (expand_moves_in_range current (state :: closed_set)
              (get_valid_moves env (AStarNode.position current)) open_set')
    as [Hok Hlen]; [done.. |].
  pose proof (get_valid_moves_length env (AStarNode.position current)).
  apply IH; [done.. | cbn [length]; lia].
Qed.

(** The number of rounds given to the loop by [find_path] is enough: the
    search ends with a path or with "no path found". *)
Lemma find_path_loop_fuel_enough :
  find_path_loop env goal others max_time (search_fuel max_time)
    (heappush AStarNode.lt []
       (AStarNode.mk start 0 0 (heuristic start goal) [])) [] <> None.
Proof.
  rewrite heappush_nil. apply find_path_loop_terminates.
  - constructor; [by left | constructor].
  - constructor.
  - intros s Hs. by apply not_elem_of_nil in Hs.
  - unfold search_fuel. cbn [length]. lia.
Qed.

(** Hence [find_path] returns exactly what the loop of the code returns. *)
Lemma find_path_total :
  exists p,
    find_path_loop env goal others max_time (search_fuel max_time)
      (heappush AStarNode.lt []
         (AStarNode.mk start 0 0 (heuristic start goal) [])) [] = Some p /\
    find_path env start goal others max_time = p.
Proof.
  pose proof find_path_loop_fuel_enough as Hfuel. unfold find_path.
  destruct (find_path_loop _ _ _ _ _ _ _) as [p|]; [| done].
  by exists p.
Qed.
End find_path_terminates.

(** * The heap keeps its items *)

Section heapq_perm.
Context {A : Type} (lt : A -> A -> bool).

Local Ltac Zify.zify_post_hook ::= Z.div_mod_to_equations.

(** Overwriting the item [v] at index [i] by [x] trades [v] for [x]. *)
Lemma insert_trade (l : list A) (i : nat) (v x : A) :
  l !! i = Some v -> v :: <[i := x]> l ≡ₚ x :: l.
Proof.
  intros Hv. rewrite insert_take_drop by (by eapply lookup_lt_Some).
  rewrite <- (take_drop_middle l i v Hv) at 3.
  rewrite <- !Permutation_middle. apply Permutation_swap.
Qed.

Lemma siftdown_loop_perm fuel heap newitem startpos pos v :
  heap !! pos = Some v ->
  v :: _siftdown_loop lt fuel heap newitem startpos pos ≡ₚ newitem :: heap.
Proof.
  revert heap pos v.
  induction fuel as [|fuel IH]; intros heap pos v Hv; cbn [_siftdown_loop].
  { by apply insert_trade. }
  case_bool_decide; [| by apply insert_trade].
  pose proof (lookup_lt_Some _ _ _ Hv) as Hlen.
  destruct (lookup_lt_is_Some_2 heap ((pos - 1) / 2)%nat) as [parent Hpar];
    [lia |].
  rewrite Hpar. destruct (lt newitem parent); [| by apply insert_trade].
  assert (<[pos := parent]> heap !! ((pos - 1) / 2)%nat = Some parent) as Hpar'.
  { by rewrite list_lookup_insert_ne by lia. }
  pose proof (IH _ _ _ Hpar') as Hrec.
  pose proof (insert_trade heap pos v parent Hv) as Htrade.
  apply (Permutation_cons_inv (a := parent)).
  etrans; [apply Permutation_swap |]. rewrite Hrec.
  etrans; [apply Permutation_swap |]. rewrite Htrade.
  apply Permutation_swap.
Qed.

Lemma siftdown_perm heap startpos pos : _siftdown lt heap startpos pos ≡ₚ heap.
Proof.
  unfold _siftdown. destruct (heap !! pos) as [newitem|] eqn:Hn; [| done].
  apply (Permutation_cons_inv (a := newitem)). by apply siftdown_loop_perm.
Qed.

Lemma siftup_loop_perm fuel heap endpos pos v :
  heap !! pos = Some v ->
  exists w,
    (_siftup_loop lt fuel heap endpos pos).1 !!
      (_siftup_loop lt fuel heap endpos pos).2 = Some w /\
    w :: heap ≡ₚ v :: (_siftup_loop lt fuel heap endpos pos).1.
Proof.
  revert heap pos v.
  induction fuel as [|fuel IH]; intros heap pos v Hv; cbn [_siftup_loop].
  { by exists v. }
  case_bool_decide as Hchild; [| by exists v].
  match goal with |- context [heap !! ?c] =>
    match c with (if _ then _ else _) =>
      assert (pos < c)%nat as Hgt by (repeat case_match; lia);
      generalize dependent c; intros childpos Hgt end end.
  destruct (heap !! childpos) as [c|] eqn:Hc; [| by exists v].
  assert (<[pos := c]> heap !! childpos = Some c) as Hc'.
  { by rewrite list_lookup_insert_ne by lia. }
  destruct (IH _ _ _ Hc') as (w & Hw & Hperm).
  exists w. split; [done |].
  pose proof (insert_trade heap pos v c Hv) as Htrade.
  apply (Permutation_cons_inv (a := c)).
  etrans; [apply Permutation_swap |]. rewrite <- Htrade.
  etrans; [apply Permutation_swap |]. rewrite Hperm.
  apply Permutation_swap.
Qed.

Lemma siftup_perm heap pos : _siftup lt heap pos ≡ₚ heap.
Proof.
  unfold _siftup. destruct (heap !! pos) as [newitem|] eqn:Hn; [| done].
  destruct (siftup_loop_perm (length heap) heap (length heap) pos newitem Hn)
    as (w & Hw & Hperm).
  destruct (_siftup_loop lt (length heap) heap (length heap) pos)
    as [heap' pos']. cbn [fst snd] in *.
  rewrite siftdown_perm.
  apply (Permutation_cons_inv (a := w)).
  by rewrite (insert_trade heap' pos' w newitem Hw), Hperm.
Qed.

Lemma heappush_perm heap item : heappush lt heap item ≡ₚ item :: heap.
Proof.
  unfold heappush. rewrite siftdown_perm. by rewrite Permutation_app_comm.
Qed.

Lemma heappop_perm heap item heap' :
  heappop lt heap = Some (item, heap') -> heap ≡ₚ item :: heap'.
Proof.
  unfold heappop.
  destruct (last heap) as [lastelt|] eqn:Hlast; [| done].
  assert (heap = take (length heap - 1)%nat heap ++ [lastelt]) as Hsplit.
  { rewrite last_lookup in Hlast.
    rewrite <- (take_drop_middle heap (pred (length heap)) lastelt Hlast) at 1.
    replace (length heap - 1)%nat with (pred (length heap)) by lia.
    f_equal. f_equal. apply drop_ge. lia. }
  destruct (take (length heap - 1)%nat heap) as [|returnitem rest] eqn:Htake.
  - intros [= <- <-]. by rewrite Hsplit.
  - intros [= <- <-]. rewrite siftup_perm. cbn.
    rewrite Hsplit. cbn. rewrite <- Permutation_middle, app_nil_r.
    by rewrite Permutation_swap.
Qed.
End heapq_perm.

(** * What the search returns *)

Section find_path_soundness.
Variable env : Environment.
Variables (start goal : Position) (others : list (list Position))
          (max_time : Z).

(** Whatever holds of the start node and passes from a node to the nodes
    that its expansion pushes holds of the node whose cells are returned. *)
Lemma find_path_loop_returns (Pn : AStarNode.t -> Prop) fuel open_set
    closed_set p :
  (forall current next_pos move_cost g f,
     Pn current ->
     In (next_pos, move_cost)
        (get_valid_moves env (AStarNode.position current)) ->
     Z.of_nat (AStarNode.time current) < max_time ->
     Pn (AStarNode.mk next_pos (AStarNode.time current + 1) g f
           (AStarNode.path current ++ [AStarNode.position current]))) ->
  Forall Pn open_set ->
  find_path_loop env goal others max_time fuel open_set closed_set = Some p ->
  p = [] \/
  exists n, Pn n /\ AStarNode.position n = goal /\
            p = AStarNode.path n ++ [AStarNode.position n].
Proof.
  intros Hsucc. revert open_set closed_set.
  induction fuel as [|fuel IH]; intros open_set closed_set Hopen;
    cbn [find_path_loop]; [done |].
  destruct (heappop AStarNode.lt open_set) as [[current open_set']|] eqn:Hpop.
  2:{ intros [= <-]. by left. }
  destruct (heappop_Forall _ _ _ _ _ Hopen Hpop) as [Hcur Hopen'].
  case_bool_decide as Hgoal.
  { intros [= <-]. right. by exists current. }
  case_bool_decide; [by apply IH |].
  destruct (max_time <=? _) eqn:Hmax; [by apply IH |].
  apply Z.leb_gt in Hmax. apply IH.
  assert (forall moves open0,
            (forall m, In m moves ->
               In m (get_valid_moves env (AStarNode.position current))) ->
            Forall Pn open0 ->
            Forall Pn
              (fold_left
                 (expand_move goal others current
                    ((AStarNode.position current, AStarNode.time current)
                     :: closed_set)) moves open0)) as Hfold.
  { induction moves as [|[next_pos move_cost] moves IHm];
      intros open0 Hsub Hopen0; cbn [fold_left]; [done |].
    apply IHm; [intros m Hm; apply Hsub; by right |].
    unfold expand_move.
    destruct (_has_collision _ _ _ _); [done |].
    case_bool_decide; [done |].
    apply heappush_Forall; [done |].
    apply Hsucc with (move_cost := move_cost); [done | | done].
    apply Hsub. by left. }
  by apply Hfold.
Qed.

Lemma node_walk_successor current next_pos move_cost g f :
  node_walk env max_time current ->
  In (next_pos, move_cost) (get_valid_moves env (AStarNode.position current)) ->
  Z.of_nat (AStarNode.time current) < max_time ->
  node_walk env max_time
    (AStarNode.mk next_pos (AStarNode.time current + 1) g f
       (AStarNode.path current ++ [AStarNode.position current])).
Proof.
  intros (Htime & Hwalk & _) Hmove Hmax.
  unfold node_walk. cbn [AStarNode.time AStarNode.path AStarNode.position].
  set (full := AStarNode.path current ++ [AStarNode.position current]) in *.
  assert (length full = S (AStarNode.time current)) as Hlen.
  { unfold full. rewrite length_app, Htime. cbn. lia. }
  split; [lia |]. split; [| right; lia].
  intros t cur next Hcur Hnext.
  destruct (decide (S t < length full)%nat) as [Hlt|Hge].
  - rewrite lookup_app_l in Hcur, Hnext by lia. by eapply Hwalk.
  - assert (S t = length full) as Ht.
    { apply lookup_lt_Some in Hnext. rewrite length_app in Hnext.
      cbn in Hnext. lia. }
    rewrite lookup_app_l in Hcur by lia.
    rewrite lookup_app_r in Hnext by lia.
    replace (S t - length full)%nat with 0%nat in Hnext by lia.
    injection Hnext as <-.
    unfold full in Hcur. rewrite lookup_app_r in Hcur by lia.
    replace (t - length (AStarNode.path current))%nat with 0%nat in Hcur by lia.
    injection Hcur as <-. by exists move_cost.
Qed.

Lemma find_path_walk p :
  find_path env start goal others max_time = p -> p <> [] ->
  head p = Some start /\ last p = Some goal /\
  valid_walk env p /\ collision_free others p /\
  (length p = 1%nat \/ Z.of_nat (length p) <= max_time + 1).
Proof.
  intros Hp Hne.
  destruct (find_path_ok env start goal others max_time p Hp Hne)
    as [Hhead Hfree].
  split; [done |]. revert Hp. unfold find_path.
  destruct (find_path_loop _ _ _ _ _ _ _) as [q|] eqn:Hloop; [| congruence].
  intros ->.
  apply (find_path_loop_returns (node_walk env max_time)) in Hloop
    as [?|(n & (Htime & Hwalk & Hbound) & Hgoal & ->)]; [done | | |].
  - rewrite last_snoc. repeat split; [congruence | done | done |].
    rewrite length_app. cbn [length]. lia.
  - intros. by eapply node_walk_successor.
  - rewrite heappush_nil. constructor; [| constructor].
    repeat split; [| by left]. intros t cur next _ Hnext. by destruct t.
Qed.

(** A path that the search returns leads from the start to the goal along
    moves of the environment, and needs at most [max_time] moves. *)
Theorem find_path_sound p :
  find_path env start goal others max_time = p -> p <> [] ->
  head p = Some start /\ last p = Some goal /\
  valid_walk env p /\ collision_free others p /\
  (length p = 1%nat \/ Z.of_nat (length p) <= max_time + 1).
Proof. apply find_path_walk. Qed.
End find_path_soundness.

Lemma find_path_sound_witness :
  let p := [mkPosition 1 0; mkPosition 1 1; mkPosition 0 1] in
  head p = Some (mkPosition 1 0) /\ last p = Some (mkPosition 0 1) /\
  valid_walk Environment_init p /\ collision_free [] p /\
  (length p = 1%nat \/ Z.of_nat (length p) <= 50 + 1).
Proof.
  apply (find_path_sound Environment_init (mkPosition 1 0) (mkPosition 0 1)
           [] 50); [vm_compute; reflexivity | done].
Defined.

(** * The search fails only when there is no route *)

Lemma covered_mono open_set open_set' closed_set closed_set' s :
  (forall n, n ∈ open_set -> n ∈ open_set' \/
     (AStarNode.position n, AStarNode.time n) ∈ closed_set') ->
  (forall s, s ∈ closed_set -> s ∈ closed_set') ->
  covered open_set closed_set s -> covered open_set' closed_set' s.
Proof.
  intros Hopen Hclosed [Hs|(n & Hn & <-)]; [left; by apply Hclosed |].
  destruct (Hopen n Hn) as [?|?]; [right; by exists n | by left].
Qed.

Section find_path_completeness.
Variable env : Environment.
Variables (start goal : Position) (others : list (list Position))
          (max_time : Z).

Lemma expand_moves_covers current closed_set moves open_set :
  (forall n, n ∈ open_set ->
     n ∈ fold_left (expand_move goal others current closed_set) moves
           open_set) /\
  (forall q c,
     In (q, c) moves ->
     _has_collision (AStarNode.position current) q
       (AStarNode.time current + 1) others = false ->
     covered (fold_left (expand_move goal others current closed_set) moves
                open_set)
       closed_set (q, (AStarNode.time current + 1)%nat)).
Proof.
  revert open_set.
  induction moves as [|[next_pos move_cost] moves IH]; intros open_set;
    cbn [fold_left]; [by split |].
  set (open1 := expand_move goal others current closed_set open_set
                  (next_pos, move_cost)).
  destruct (IH open1) as [IHkeep IHcover].
  assert (forall n, n ∈ open_set -> n ∈ open1) as Hkeep.
  { intros n Hn. unfold open1, expand_move.
    destruct (_has_collision _ _ _ _); [done |].
    case_bool_decide; [done |]. rewrite heappush_perm. by right. }
  split; [intros n Hn; by apply IHkeep, Hkeep |].
  intros q c [[= <- <-]|Hin] Hcol; [| by eapply IHcover].
  unfold open1 at 1. unfold covered.
  destruct (decide ((next_pos, (AStarNode.time current + 1)%nat) ∈ closed_set))
    as [Hclosed|Hclosed]; [by left | right].
  eexists. split.
  - apply IHkeep. unfold open1, expand_move. rewrite Hcol.
    rewrite bool_decide_eq_false_2 by done.
    rewrite heappush_perm. by left.
  - done.
Qed.

Lemma find_path_loop_exhausts fuel open_set closed_set :
  search_inv env start goal others max_time open_set closed_set ->
  find_path_loop env goal others max_time fuel open_set closed_set = Some [] ->
  exists closed_set', search_inv env start goal others max_time [] closed_set'.
Proof.
  revert open_set closed_set.
  induction fuel as [|fuel IH]; intros open_set closed_set Hinv;
    cbn [find_path_loop]; [done |].
  destruct (heappop AStarNode.lt open_set) as [[current open_set']|] eqn:Hpop.
  2:{ intros _. apply heappop_nil_iff in Hpop as ->. by exists closed_set. }
  apply heappop_perm in Hpop.
  destruct Hinv as (Hgoalfree & Hstart & Hsucc).
  set (state := (AStarNode.position current, AStarNode.time current)).
  assert (forall closed_set' : list (Position * nat),
            state ∈ closed_set' ->
            forall n, n ∈ open_set -> n ∈ open_set' \/
              (AStarNode.position n, AStarNode.time n) ∈ closed_set')
    as Hpopped.
  { intros closed_set' Hin n Hn. rewrite Hpop in Hn.
    apply elem_of_cons in Hn as [->|Hn]; [by right | by left]. }
  case_bool_decide as Hgoal.
  { intros [= Hnil]. by destruct (AStarNode.path current). }
  case_bool_decide as Hclosed.
  { (* the state was closed before *)
    apply IH. split; [done |].
    split; [by eapply covered_mono; [apply Hpopped | |] |].
    intros s s' Hs Hstep.
    eapply covered_mono; [by apply Hpopped | done | by eapply Hsucc]. }
  assert (forall s, s ∈ state :: closed_set -> s.1 <> goal) as Hgoalfree'.
  { intros s [->|Hs]%elem_of_cons; [done | by apply Hgoalfree]. }
  assert (forall s, s ∈ closed_set -> s ∈ state :: closed_set) as Hsub
    by (intros s Hs; by right).
  assert (state ∈ state :: closed_set) as Hnew by (by left).
  destruct (max_time <=? Z.of_nat (AStarNode.time current)) eqn:Hmax.
  { (* the horizon is reached: nothing is pushed *)
    apply Z.leb_le in Hmax. apply IH. split; [done |].
    split; [by eapply covered_mono; [apply Hpopped | |] |].
    intros s s' [->|Hs]%elem_of_cons Hstep.
    - destruct Hstep as (Hlt & _). cbn in Hlt. lia.
    - eapply covered_mono; [by apply Hpopped | done | by eapply Hsucc]. }
  (* the node is expanded *)
  destruct (expand_moves_covers current (state :: closed_set)
              (get_valid_moves env (AStarNode.position current)) open_set')
    as [Hkeep Hcover].
  assert (forall n, n ∈ open_set ->
            n ∈ fold_left (expand_move goal others current (state :: closed_set))
                  (get_valid_moves env (AStarNode.position current)) open_set' \/
            (AStarNode.position n, AStarNode.time n) ∈ state :: closed_set)
    as Hpopped'.
  { intros n Hn. destruct (Hpopped _ Hnew n Hn) as [?|?]; [left | by right].
    by apply Hkeep. }
  apply IH. split; [done |].
  split; [by eapply covered_mono; [apply Hpopped' | |] |].
  intros s s' [->|Hs]%elem_of_cons Hstep.
  - destruct Hstep as (_ & Htime & (c & Hmove) & Hcol).
    destruct s' as [q t']. cbn [fst snd state] in *. subst t'.
    replace (S (AStarNode.time current))
      with (AStarNode.time current + 1)%nat in * by lia.
    by eapply Hcover.
  - eapply covered_mono; [by apply Hpopped' | done | by eapply Hsucc].
Qed.

Lemma find_path_finds (p : list Position) :
  head p = Some start -> last p = Some goal ->
  valid_walk env p -> collision_free others p ->
  Z.of_nat (length p) <= max_time + 1 ->
  find_path env start goal others max_time <> [].
Proof.
  intros Hhead Hlast Hwalk Hfree Hlen Hnil.
  destruct (find_path_total env start goal others max_time)
    as (q & Hloop & Hq).
  rewrite Hnil in Hq. subst q.
  apply find_path_loop_exhausts in Hloop as (closed & Hgoalfree & Hstart & Hsucc).
  2:{ rewrite heappush_nil. split; [intros s Hs; by apply not_elem_of_nil in Hs |].
      split.
      - right. eexists. split; [by left | done].
      - intros s s' Hs. by apply not_elem_of_nil in Hs. }
  assert (forall s, covered [] closed s -> s ∈ closed) as Hcov.
  { intros s [?|(n & Hn & _)]; [done | by apply not_elem_of_nil in Hn]. }
  assert (forall (t : nat) cur, p !! t = Some cur -> (cur, t) ∈ closed) as Hall.
  { induction t as [|t IHt]; intros cur Hcur.
    - rewrite <- head_lookup, Hhead in Hcur. injection Hcur as <-.
      by apply Hcov.
    - destruct (lookup_lt_is_Some_2 p t) as [prev Hprev].
      { apply lookup_lt_Some in Hcur. lia. }
      apply Hcov, (Hsucc (prev, t)); [by apply IHt |].
      pose proof (lookup_lt_Some _ _ _ Hcur).
      split; [cbn [fst snd]; lia |]. split; [done |].
      cbn [fst snd]. split; [exact (Hwalk t prev cur Hprev Hcur) |].
      exact (Hfree t prev cur Hprev Hcur). }
  rewrite last_lookup in Hlast.
  by apply (Hgoalfree _ (Hall _ _ Hlast)).
Qed.

(** If some walk from the start to the goal passes the collision check and
    fits the horizon, the search returns a path. *)
Theorem find_path_complete (p : list Position) :
  head p = Some start -> last p = Some goal ->
  valid_walk env p -> collision_free others p ->
  Z.of_nat (length p) <= max_time + 1 ->
  find_path env start goal others max_time <> [].
Proof. apply find_path_finds. Qed.
End find_path_completeness.

Lemma find_path_complete_witness :
  find_path Environment_init (mkPosition 1 0) (mkPosition 0 1) [] 50 <> [].
Proof.
  apply (find_path_complete Environment_init (mkPosition 1 0) (mkPosition 0 1)
           [] 50 [mkPosition 1 0; mkPosition 1 1; mkPosition 0 1]).
  - reflexivity.
  - reflexivity.
  - intros [|[|[|t]]] cur next Hcur Hnext; try done;
      injection Hcur as <-; injection Hnext as <-; exists 1; vm_compute; tauto.
  - intros t cur next _ _. reflexivity.
  - cbn; lia.
Defined.

(** * What the planner reports *)

(** The last robot of a given id in a list. *)
Lemma last_of_id (l : list Robot.t) (i : Z) :
  (exists x, In x l /\ Robot.id x = i) ->
  exists before r' after,
    l = before ++ r' :: after /\ Robot.id r' = i /\
    forall x, In x after -> Robot.id x <> i.
Proof.
  induction l as [|a l IH]; intros (x & Hx & Hid); [done |].
  destruct (decide (Exists (fun y => Robot.id y = i) l)) as [Hex|Hno].
  - apply Exists_exists in Hex as (y & Hy & Hyi).
    destruct IH as (before & r' & after & -> & Hr' & Hafter).
    { exists y. split; [by apply list_elem_of_In | done]. }
    by exists (a :: before), r', after.
  - exists [], a, l. split; [done |].
    assert (forall y, In y l -> Robot.id y <> i) as Hl.
    { intros y Hy Hyi. apply Hno, Exists_exists. exists y.
      split; [by apply list_elem_of_In | done]. }
    split; [| done].
    destruct Hx as [->|Hx]; [done |]. by destruct (Hl x Hx).
Qed.

(** C6 (as the code has it): the planner returns normally with an entry for
    every robot [r] that has a goal.  The entry is written for the last robot
    [r'] of the id of [r] in priority order, by the search of [r'] against the
    obstacle paths left by the robots planned before it: it is the path that
    this search found or, when the search answered with the empty list, the
    one cell on which [r'] stands.  The empty list is the only answer of a
    failed search, given exactly when no walk from the start to the goal
    passes the collision check within the horizon; no kind of failure is
    recorded, and a failure stops the planning of no other robot. *)
Theorem planner_reports_every_robot (env : Environment)
    (robots : list Robot.t) (goals : gmap Z Position)
    (r : Robot.t) (goal : Position) :
  In r robots -> goals !! Robot.id r = Some goal ->
  exists before r' after,
    sorted robots = before ++ r' :: after /\
    Robot.id r' = Robot.id r /\
    (forall x, In x after -> Robot.id x <> Robot.id r) /\
    let others := (fold_left (plan_robot env goals) before (∅, [])).2 in
    let found := find_path env (Robot.position r') goal others 50 in
    solve_multi_robot_path env robots goals !! Robot.id r =
      Some (match found with
            | [] => [Robot.position r']
            | _ :: _ => found
            end) /\
    (found = [] <->
     ~ exists walk,
         head walk = Some (Robot.position r') /\ last walk = Some goal /\
         valid_walk env walk /\ collision_free others walk /\
         Z.of_nat (length walk) <= 50 + 1).
Proof.
  intros Hr Hgoal.
  destruct (last_of_id (sorted robots) (Robot.id r))
    as (before & r' & after & Hsplit & Hid & Hafter).
  { exists r. split; [| done].
    apply list_elem_of_In. rewrite sorted_perm. by apply list_elem_of_In. }
  exists before, r', after. split; [done |]. split; [done |].
  split; [done |]. cbn zeta. split.
  - unfold solve_multi_robot_path. rewrite Hsplit, fold_left_app.
    cbn [fold_left]. rewrite plan_robots_other_id by done.
    destruct (fold_left (plan_robot env goals) before (∅, []))
      as [paths plist]. cbn [snd]. unfold plan_robot.
    rewrite Hid, Hgoal.
    destruct (find_path env (Robot.position r') goal plist 50);
      cbn [fst]; by rewrite lookup_insert_eq.
  - set (others := (fold_left (plan_robot env goals) before (∅, [])).2).
    split.
    + intros Hnil (walk & Hhead & Hlast & Hwalk & Hfree & Hlen).
      by apply (find_path_finds env (Robot.position r') goal others 50 walk).
    + intros Hno.
      destruct (find_path env (Robot.position r') goal others 50)
        as [|p0 p] eqn:Hfound; [done |].
      destruct Hno. exists (p0 :: p).
      destruct (find_path_walk env (Robot.position r') goal others 50
                  (p0 :: p) Hfound)
        as (Hhead & Hlast & Hwalk & Hfree & Hlen); [done |].
      repeat split; [done.. |]. lia.
Qed.

Lemma planner_reports_every_robot_witness :
  exists before r' after,
    sorted [stranded_robot] = before ++ r' :: after /\
    Robot.id r' = Robot.id stranded_robot /\
    (forall x, In x after -> Robot.id x <> Robot.id stranded_robot) /\
    let others :=
      (fold_left (plan_robot Environment_init unreachable_goals) before
         (∅, [])).2 in
    let found :=
      find_path Environment_init (Robot.position r') (mkPosition 0 5) others
        50 in
    solve_multi_robot_path Environment_init [stranded_robot] unreachable_goals
      !! Robot.id stranded_robot =
      Some (match found with
            | [] => [Robot.position r']
            | _ :: _ => found
            end) /\
    (found = [] <->
     ~ exists walk,
         head walk = Some (Robot.position r') /\
         last walk = Some (mkPosition 0 5) /\
         valid_walk Environment_init walk /\ collision_free others walk /\
         Z.of_nat (length walk) <= 50 + 1).
Proof.
  apply (planner_reports_every_robot Environment_init [stranded_robot]
           unreachable_goals stranded_robot (mkPosition 0 5)).
  - left; reflexivity.
  - reflexivity.
Defined.

(** * The grid *)

Lemma get_valid_moves_cases env p q c :
  In (q, c) (get_valid_moves env p) ->
  c = 1 /\
  ((row p = 1 /\ 0 < col p /\ q = mkPosition 1 (col p - 1)) \/
   (row p = 1 /\ col p < width env - 1 /\ q = mkPosition 1 (col p + 1)) \/
   (row p = 1 /\ q = mkPosition 0 (col p)) \/
   (row p = 1 /\ q = mkPosition 1 (col p)) \/
   (row p = 0 /\ q = mkPosition 1 (col p)) \/
   (row p = 0 /\ q = mkPosition 0 (col p))).
Proof.
  unfold get_valid_moves. intros Hin.
  destruct (row p =? 1) eqn:Hr1.
  - apply Z.eqb_eq in Hr1.
    apply in_app_or in Hin as [Hin|Hin].
    { destruct (0 <? col p) eqn:Hc; [| done]. apply Z.ltb_lt in Hc.
      destruct Hin as [[= <- <-]|[]]. split; [done |]. by left. }
    apply in_app_or in Hin as [Hin|Hin].
    { destruct (col p <? width env - 1) eqn:Hc; [| done]. apply Z.ltb_lt in Hc.
      destruct Hin as [[= <- <-]|[]]. split; [done |]. right. by left. }
    destruct Hin as [[= <- <-]|[[= <- <-]|[]]]; (split; [done |]).
    + do 2 right. by left.
    + do 3 right. by left.
  - destruct (row p =? 0) eqn:Hr0; [| done]. apply Z.eqb_eq in Hr0.
    destruct Hin as [[= <- <-]|[[= <- <-]|[]]]; (split; [done |]).
    + do 4 right. by left.
    + do 5 right. done.
Qed.

(** From a cell of the grid every move costs 1 and leads to a cell of the
    grid, when the grid has its two rows. *)
Theorem get_valid_moves_stay_in_grid (env : Environment) (p q : Position)
    (c : Z) :
  2 <= height env ->
  is_valid_position env p = true ->
  In (q, c) (get_valid_moves env p) ->
  is_valid_position env q = true /\ c = 1.
Proof.
  intros Hh Hp Hin. unfold is_valid_position in *.
  apply andb_prop in Hp as [Hp Hp4]. apply andb_prop in Hp as [Hp Hp3].
  apply andb_prop in Hp as [Hp1 Hp2].
  apply get_valid_moves_cases in Hin as [-> Hcases]. split; [| done].
  destruct Hcases as [(?&?&->)|[(?&?&->)|[(?&->)|[(?&->)|[(?&->)|(?&->)]]]]];
    cbn [row col]; repeat (apply andb_true_intro; split); lia.
Qed.

Lemma get_valid_moves_stay_in_grid_witness :
  is_valid_position Environment_init (mkPosition 1 3) = true /\ 1 = 1.
Proof.
  apply (get_valid_moves_stay_in_grid Environment_init (mkPosition 1 4)
           (mkPosition 1 3) 1).
  - cbn; unfold GRID_HEIGHT; lia.
  - reflexivity.
  - cbn. tauto.
Defined.

(** A robot may wait in place, at cost 1, exactly on the cells of row 0 and
    row 1; on any other row it has no move at all. *)
Theorem get_valid_moves_wait (env : Environment) (p : Position) :
  (In (p, 1) (get_valid_moves env p) <-> row p = 0 \/ row p = 1) /\
  (row p <> 0 -> row p <> 1 -> get_valid_moves env p = []).
Proof.
  destruct p as [r c]. unfold get_valid_moves. cbn [row col]. split.
  - split.
    + intros Hin. destruct (r =? 1) eqn:H1; [lia |].
      destruct (r =? 0) eqn:H0; [lia | done].
    + intros [->| ->]; cbn.
      * right. by left.
      * apply in_or_app. right. apply in_or_app. right. cbn. tauto.
  - intros H0 H1.
    destruct (r =? 1) eqn:E1; [lia |]. destruct (r =? 0) eqn:E0; [lia | done].
Qed.

(** On the cells of the grid the moves go both ways. *)
Theorem get_valid_moves_symmetric (env : Environment) (p q : Position)
    (c : Z) :
  is_valid_position env p = true ->
  In (q, c) (get_valid_moves env p) ->
  In (p, c) (get_valid_moves env q).
Proof.
  intros Hp Hin. unfold is_valid_position in Hp.
  apply andb_prop in Hp as [Hp Hp4]. apply andb_prop in Hp as [Hp Hp3].
  apply andb_prop in Hp as [Hp1 Hp2].
  apply get_valid_moves_cases in Hin as [-> Hcases].
  destruct p as [r k]. cbn [row col] in *. unfold get_valid_moves.
  destruct Hcases as [(->&?&->)|[(->&?&->)|[(->&->)|[(->&->)|[(->&->)|(->&->)]]]]];
    cbn [row col Z.eqb Pos.eqb].
  - apply in_or_app. right. apply in_or_app. left.
    rewrite (proj2 (Z.ltb_lt _ _)) by lia.
    left. do 2 f_equal. lia.
  - apply in_or_app. left. rewrite (proj2 (Z.ltb_lt _ _)) by lia.
    left. do 2 f_equal. lia.
  - by left.
  - apply in_or_app. right. apply in_or_app. right. cbn. tauto.
  - apply in_or_app. right. apply in_or_app. right. cbn. tauto.
  - right. by left.
Qed.

Lemma get_valid_moves_symmetric_witness :
  In (mkPosition 1 4, 1) (get_valid_moves Environment_init (mkPosition 1 3)).
Proof.
  apply (get_valid_moves_symmetric Environment_init (mkPosition 1 4)
           (mkPosition 1 3) 1).
  - reflexivity.
  - cbn. tauto.
Defined.

(** * The heuristic along the moves *)

Lemma heuristic_step (env : Environment) (p q g : Position) (c : Z) :
  In (q, c) (get_valid_moves env p) ->
  heuristic p g <= c + heuristic q g /\ 0 <= heuristic p g.
Proof.
  intros Hin. apply get_valid_moves_cases in Hin as [-> Hcases].
  unfold heuristic, manhattan_distance.
  destruct Hcases as [(Hr&?&->)|[(Hr&?&->)|[(Hr&->)|[(Hr&->)|[(Hr&->)|(Hr&->)]]]]];
    cbn [row col]; rewrite Hr; cbn [Z.eqb Pos.eqb];
    destruct (row g =? 0); lia.
Qed.

(** The heuristic is consistent: along any move it drops by at most the cost
    of the move.  It is never negative. *)
Theorem heuristic_consistent (env : Environment) (p q g : Position) (c : Z) :
  In (q, c) (get_valid_moves env p) ->
  heuristic p g <= c + heuristic q g /\ 0 <= heuristic p g.
Proof. apply heuristic_step. Qed.

Lemma heuristic_consistent_witness :
  heuristic (mkPosition 1 2) (mkPosition 0 0)
    <= 1 + heuristic (mkPosition 1 1) (mkPosition 0 0) /\
  0 <= heuristic (mkPosition 1 2) (mkPosition 0 0).
Proof.
  apply (heuristic_consistent Environment_init (mkPosition 1 2)
           (mkPosition 1 1) (mkPosition 0 0) 1).
  cbn. tauto.
Defined.

(** For a goal that is not a room the heuristic is admissible: it is at most
    the cost of any walk to the goal. *)
Theorem heuristic_admissible_corridor_goal (env : Environment)
    (p g : Position) (k : Z) :
  row g <> 0 ->
  walk_cost env p g k ->
  heuristic p g <= k.
Proof.
  intros Hg Hwalk. induction Hwalk as [p|p q g c k Hin _ IH].
  - unfold heuristic, manhattan_distance.
    rewrite (proj2 (Z.eqb_neq _ _) Hg). lia.
  - pose proof (heuristic_step env p q g c Hin) as [Hc _].
    specialize (IH Hg). lia.
Qed.

Lemma heuristic_admissible_corridor_goal_witness :
  heuristic (mkPosition 0 0) (mkPosition 1 1) <= 2.
Proof.
  apply (heuristic_admissible_corridor_goal Environment_init).
  - cbn; lia.
  - apply (walk_step Environment_init (mkPosition 0 0) (mkPosition 1 0)
             (mkPosition 1 1) 1 1); [vm_compute; tauto |].
    apply (walk_step Environment_init (mkPosition 1 0) (mkPosition 1 1)
             (mkPosition 1 1) 1 0); [vm_compute; tauto | constructor].
Defined.

(** [manhattan_distance] is a metric on positions. *)
Theorem manhattan_distance_metric (a b c : Position) :
  manhattan_distance a b = manhattan_distance b a /\
  (manhattan_distance a b = 0 <-> a = b) /\
  manhattan_distance a c <= manhattan_distance a b + manhattan_distance b c.
Proof.
  destruct a as [ar ac], b as [br bc], c as [cr cc].
  unfold manhattan_distance. cbn [row col].
  split; [lia |]. split; [| lia].
  split; [intros H; f_equal; lia | intros [= -> ->]; lia].
Qed.

(** * Room names *)

(** The position found for a room name is a cell of row 0 of the grid whose
    name is that room name. *)
Theorem find_room_position_name (room_name : string) (p : Position) :
  find_room_position Environment_init room_name = Some p ->
  row p = 0 /\ is_valid_position Environment_init p = true /\
  get_position_name Environment_init (row p) (col p) = Some room_name.
Proof.
  unfold find_room_position, rooms, ROOMS. cbn [py_index].
  repeat case_decide; subst; cbn; intros [= <-]; done.
Qed.

Lemma find_room_position_name_witness :
  row (mkPosition 0 2) = 0 /\
  is_valid_position Environment_init (mkPosition 0 2) = true /\
  get_position_name Environment_init 0 2 = Some "B"%string.
Proof.
  apply (find_room_position_name "B" (mkPosition 0 2)). reflexivity.
Defined.

(** Every cell of row 0 of the grid has a room name, and the room of that
    name is found on that cell. *)
Theorem get_position_name_room (col : Z) :
  0 <= col < width Environment_init ->
  exists room_name,
    get_position_name Environment_init 0 col = Some room_name /\
    find_room_position Environment_init room_name = Some (mkPosition 0 col).
Proof.
  cbn [width Environment_init]. unfold GRID_WIDTH. intros Hcol.
  assert (col = 0 \/ col = 1 \/ col = 2 \/ col = 3 \/ col = 4)
    as [->|[->|[->|[->| ->]]]] by lia; eexists; split; reflexivity.
Qed.

Lemma get_position_name_room_witness :
  exists room_name,
    get_position_name Environment_init 0 4 = Some room_name /\
    find_room_position Environment_init room_name = Some (mkPosition 0 4).
Proof. apply (get_position_name_room 4). cbn. unfold GRID_WIDTH. lia. Defined.

(** * More on the prioritized planner *)

(** ** The order of planning *)

Lemma insert_by_priority_front r l :
  Forall (priority_le r) l -> insert_by_priority r l = r :: l.
Proof.
  intros [|x l' Hx _]; cbn; [done |].
  by rewrite (proj2 (Z.leb_le _ _) Hx).
Qed.

Lemma insert_by_priority_sorted r l :
  StronglySorted priority_le l ->
  StronglySorted priority_le (insert_by_priority r l).
Proof.
  induction 1 as [|x l Hl IH Hx]; cbn.
  - repeat constructor.
  - destruct (Robot.priority r <=? Robot.priority x) eqn:Hr.
    + apply Z.leb_le in Hr. constructor; [by constructor |].
      constructor; [done |].
      eapply Forall_impl; [exact Hx |]. unfold priority_le. cbn. lia.
    + apply Z.leb_gt in Hr. constructor; [done |].
      rewrite insert_by_priority_perm. constructor; [| done].
      unfold priority_le. lia.
Qed.

Lemma insert_by_priority_filter_eq (p : Z) r l :
  List.filter (fun x => Robot.priority x =? p) (insert_by_priority r l) =
  List.filter (fun x => Robot.priority x =? p) (r :: l).
Proof.
  induction l as [|x l IH]; [done |]. cbn [insert_by_priority].
  destruct (Robot.priority r <=? Robot.priority x) eqn:Hr; [done |].
  apply Z.leb_gt in Hr. cbn [List.filter] in *. rewrite IH.
  destruct (Robot.priority r =? p) eqn:Hrp; [| done].
  apply Z.eqb_eq in Hrp.
  by rewrite (proj2 (Z.eqb_neq (Robot.priority x) p)) by lia.
Qed.

Lemma sorted_sorted robots : StronglySorted priority_le (sorted robots).
Proof.
  induction robots as [|r robots IH]; [constructor |].
  by apply insert_by_priority_sorted.
Qed.

(** The robots are planned in the order of their priority numbers, robots of
    equal priority in the order of the input list, and none is dropped or
    added. *)
Theorem sorted_by_priority_stable (robots : list Robot.t) :
  sorted robots ≡ₚ robots /\
  StronglySorted priority_le (sorted robots) /\
  forall p : Z,
    List.filter (fun x => Robot.priority x =? p) (sorted robots) =
    List.filter (fun x => Robot.priority x =? p) robots.
Proof.
  split; [apply sorted_perm |]. split.
  - apply sorted_sorted.
  - intros p. induction robots as [|r robots IH]; [done |].
    change (sorted (r :: robots)) with (insert_by_priority r (sorted robots)).
    rewrite insert_by_priority_filter_eq. cbn [List.filter]. by rewrite IH.
Qed.

Lemma insert_by_priority_filter (f : Robot.t -> bool) r l :
  StronglySorted priority_le l ->
  List.filter f (insert_by_priority r l) =
  if f r then insert_by_priority r (List.filter f l) else List.filter f l.
Proof.
  induction 1 as [|x l Hl IH Hx]; cbn [insert_by_priority List.filter].
  - by destruct (f r).
  - destruct (Robot.priority r <=? Robot.priority x) eqn:Hr.
    + apply Z.leb_le in Hr. cbn [List.filter].
      destruct (f r); [| done].
      rewrite insert_by_priority_front; [done |].
      apply Forall_forall. intros y Hy.
      apply list_elem_of_In in Hy.
      change (In y (List.filter f (x :: l))) in Hy.
      apply filter_In in Hy as [[<-|Hy] _]; [done |].
      rewrite Forall_forall in Hx. apply list_elem_of_In in Hy.
      specialize (Hx y Hy). unfold priority_le in *. lia.
    + cbn [List.filter]. rewrite IH.
      destruct (f x), (f r); cbn [insert_by_priority]; by rewrite ?Hr.
Qed.

Lemma sorted_filter (f : Robot.t -> bool) robots :
  sorted (List.filter f robots) = List.filter f (sorted robots).
Proof.
  induction robots as [|r robots IH]; [done |].
  change (sorted (r :: robots)) with (insert_by_priority r (sorted robots)).
  rewrite insert_by_priority_filter
    by apply sorted_sorted.
  cbn [List.filter]. destruct (f r); [| done].
  change (sorted (r :: ?l)) with (insert_by_priority r (sorted l)).
  by rewrite IH.
Qed.

(** ** The entries of the result *)

Section planner_entries.
Variable env : Environment.
Variable goals : gmap Z Position.

Lemma plan_robot_is_Some st r (i : Z) :
  is_Some ((plan_robot env goals st r).1 !! i) <->
  is_Some (st.1 !! i) \/ (Robot.id r = i /\ is_Some (goals !! i)).
Proof.
  destruct st as [paths plist]. unfold plan_robot.
  destruct (goals !! Robot.id r) as [goal|] eqn:Hgoal.
  - assert (forall (P : list Position) (plist' : list (list Position)),
              is_Some ((<[Robot.id r := P]> paths, plist').1 !! i) <->
              is_Some ((paths, plist).1 !! i) \/
              (Robot.id r = i /\ is_Some (goals !! i))) as Hins.
    { intros P plist'. cbn [fst]. rewrite lookup_insert.
      case_decide as Hid.
      - subst i. rewrite Hgoal. split; [right | ]; eauto.
      - split; [by left |]. by intros [?|[? ?]]. }
    destruct (find_path _ _ _ _ _); apply Hins.
  - cbn [fst]. split; [tauto |]. intros [?|[<- Hs]]; [done |].
    rewrite Hgoal in Hs. by destruct Hs.
Qed.

Lemma plan_robots_is_Some rs st (i : Z) :
  is_Some ((fold_left (plan_robot env goals) rs st).1 !! i) <->
  is_Some (st.1 !! i) \/
  exists r, In r rs /\ Robot.id r = i /\ is_Some (goals !! i).
Proof.
  revert st. induction rs as [|r rs IH]; intros st; cbn [fold_left].
  - split; [tauto |]. intros [?|(r & [] & _)]. done.
  - rewrite IH, plan_robot_is_Some. split.
    + intros [[?|[? ?]]|(x & ? & ? & ?)]; [by left | right | right].
      * exists r. split; [by left | done].
      * exists x. split; [by right | done].
    + intros [?|(x & [<-|?] & ? & ?)]; [left; by left | left; by right |].
      right. by exists x.
Qed.

(** The result has an entry for an id exactly when a robot of that id is in
    the list and the id has a goal. *)
Theorem solve_multi_robot_path_keys (robots : list Robot.t) (i : Z) :
  is_Some (solve_multi_robot_path env robots goals !! i) <->
  exists r, In r robots /\ Robot.id r = i /\ is_Some (goals !! i).
Proof.
  unfold solve_multi_robot_path. rewrite plan_robots_is_Some. cbn [fst].
  rewrite lookup_empty. split.
  - intros [[? ?]|(r & Hr & ?)]; [done |]. exists r. split; [| done].
    apply list_elem_of_In. apply list_elem_of_In in Hr.
    by rewrite sorted_perm in Hr.
  - intros (r & Hr & ?). right. exists r. split; [| done].
    apply list_elem_of_In. rewrite sorted_perm. by apply list_elem_of_In.
Qed.

Lemma plan_robot_shape robots st r :
  In r robots ->
  (forall i P, st.1 !! i = Some P -> entry_shape env goals robots i P) ->
  forall i P, (plan_robot env goals st r).1 !! i = Some P ->
              entry_shape env goals robots i P.
Proof.
  intros Hr Hst i P. destruct st as [paths plist]. unfold plan_robot.
  destruct (goals !! Robot.id r) as [goal|] eqn:Hgoal; [| by apply Hst].
  destruct (find_path env (Robot.position r) goal plist 50) as [|p0 p] eqn:Hfind;
    cbn [fst]; rewrite lookup_insert; case_decide as Hid;
    try (by apply Hst); subst i; intros [= <-]; exists r, goal.
  - repeat split; [done.. | by left | | cbn; lia].
    intros [|t] cur next ? Hnext; done.
  - destruct (find_path_walk env _ _ _ _ _ Hfind)
      as (Hhead & Hlast & Hwalk & _ & Hlen); [done |].
    repeat split; [done.. | by right | done | lia].
Qed.

Lemma plan_robots_shape robots rs st :
  (forall r, In r rs -> In r robots) ->
  (forall i P, st.1 !! i = Some P -> entry_shape env goals robots i P) ->
  forall i P, (fold_left (plan_robot env goals) rs st).1 !! i = Some P ->
              entry_shape env goals robots i P.
Proof.
  revert st. induction rs as [|r rs IH]; intros st Hsub Hst; cbn [fold_left];
    [done |].
  apply IH; [intros x Hx; apply Hsub; by right |].
  apply plan_robot_shape; [apply Hsub; by left | done].
Qed.

(** Every path of the result belongs to a robot of its id that has a goal; it
    starts on the cell of that robot and either is that single cell or ends
    on the goal; consecutive cells are linked by moves of the environment;
    and it has at most 51 cells. *)
Theorem solve_multi_robot_path_entries (robots : list Robot.t) (i : Z)
    (P : list Position) :
  solve_multi_robot_path env robots goals !! i = Some P ->
  entry_shape env goals robots i P.
Proof.
  unfold solve_multi_robot_path.
  apply plan_robots_shape.
  - intros r Hr. apply list_elem_of_In. apply list_elem_of_In in Hr.
    by rewrite sorted_perm in Hr.
  - intros i' P'. cbn [fst]. by rewrite lookup_empty.
Qed.

(** Robots without a goal are skipped: the result is the one computed
    without them. *)
Lemma plan_robots_skip rs st :
  fold_left (plan_robot env goals) (List.filter (has_goal goals) rs) st =
  fold_left (plan_robot env goals) rs st.
Proof.
  revert st. induction rs as [|r rs IH]; intros st; [done |].
  cbn [List.filter fold_left]. unfold has_goal at 1.
  case_bool_decide as Hgoal; cbn [fold_left]; [done |].
  rewrite IH. f_equal. destruct st as [paths plist]. unfold plan_robot.
  destruct (goals !! Robot.id r); [| done]. by destruct Hgoal.
Qed.

Theorem solve_multi_robot_path_skips_goalless (robots : list Robot.t) :
  solve_multi_robot_path env (List.filter (has_goal goals) robots) goals =
  solve_multi_robot_path env robots goals.
Proof.
  unfold solve_multi_robot_path. by rewrite sorted_filter, plan_robots_skip.
Qed.

(** The robot of strictly highest priority is planned against no obstacle. *)
Theorem solve_multi_robot_path_first (l1 l2 : list Robot.t) (r : Robot.t)
    (g : Position) :
  (forall x, In x (l1 ++ l2) ->
     Robot.priority r < Robot.priority x /\ Robot.id x <> Robot.id r) ->
  goals !! Robot.id r = Some g ->
  solve_multi_robot_path env (l1 ++ r :: l2) goals !! Robot.id r =
  Some (match find_path env (Robot.position r) g [] 50 with
        | [] => [Robot.position r]
        | p => p
        end).
Proof.
  intros Hothers Hgoal.
  rewrite (solve_prefix env goals _ (Robot.priority r) (Robot.id r)).
  2:{ intros x Hx Hid. apply in_app_or in Hx as [Hx|[<-|Hx]]; [| lia |].
      - destruct (Hothers x) as [_ ?]; [apply in_or_app; by left | done].
      - destruct (Hothers x) as [_ ?]; [apply in_or_app; by right | done]. }
  assert (forall l, (forall x, In x l -> Robot.priority r < Robot.priority x) ->
            List.filter (fun x => Robot.priority x <=? Robot.priority r) l = [])
    as Hnone.
  { induction l as [|x l IH]; intros Hl; [done |]. cbn [List.filter].
    rewrite (proj2 (Z.leb_gt _ _)) by (apply Hl; by left).
    apply IH. intros y Hy. apply Hl. by right. }
  rewrite List.filter_app. cbn [List.filter]. rewrite Z.leb_refl.
  rewrite !Hnone.
  2:{ intros x Hx. apply Hothers, in_or_app. by right. }
  2:{ intros x Hx. apply Hothers, in_or_app. by left. }
  cbn. unfold plan_robot. rewrite Hgoal.
  destruct (find_path _ _ _ _ _); cbn [fst]; by rewrite lookup_insert_eq.
Qed.
End planner_entries.

Lemma solve_multi_robot_path_entries_witness :
  entry_shape Environment_init crossing_goals initial_robots 2
    [mkPosition 1 4; mkPosition 1 3; mkPosition 0 3; mkPosition 0 3;
     mkPosition 1 3; mkPosition 1 2; mkPosition 1 1; mkPosition 1 0;
     mkPosition 0 0].
Proof.
  apply (solve_multi_robot_path_entries Environment_init crossing_goals
           initial_robots 2).
  vm_compute; reflexivity.
Defined.

Lemma solve_multi_robot_path_first_witness :
  solve_multi_robot_path Environment_init initial_robots crossing_goals !! 1 =
  Some (match find_path Environment_init (mkPosition 1 0) (mkPosition 0 4)
                [] 50 with
        | [] => [mkPosition 1 0]
        | p => p
        end).
Proof.
  apply (solve_multi_robot_path_first Environment_init crossing_goals []
           [Robot.mk 2 (mkPosition 1 4) [] 0 2 IDLE false]
           (Robot.mk 1 (mkPosition 1 0) [] 0 1 IDLE false) (mkPosition 0 4)).
  - intros x [<-|[]]. cbn. lia.
  - reflexivity.
Defined.

(** * The paths of the other robots *)

(** Every path handed to the search for the robot [exclude_robot_id] stands
    for another robot of the list and starts on its cell: 20 copies of the
    cell for an idle robot, the cell followed by the rest of its path for a
    moving robot with a path. *)
Theorem get_other_robot_paths_elem (robots : list Robot.t)
    (exclude_robot_id : Z) (P : list Position) :
  In P (_get_other_robot_paths robots exclude_robot_id) ->
  exists r,
    In r robots /\ Robot.id r <> exclude_robot_id /\
    head P = Some (Robot.position r) /\
    ((Robot.status r = IDLE /\ P = replicate 20 (Robot.position r)) \/
     (Robot.status r = MOVING /\ Robot.path r <> [] /\
      P = Robot.position r :: drop (Robot.path_index r) (Robot.path r))).
Proof.
  unfold _get_other_robot_paths. intros Hin.
  apply in_flat_map in Hin as (r & Hr & Hin). exists r.
  case_bool_decide as Hid; [done |].
  destruct (bool_decide (Robot.status r = MOVING)) eqn:Hmov; cbn [andb] in Hin.
  - apply bool_decide_eq_true in Hmov.
    case_bool_decide as Hpath; cbn [negb] in Hin.
    + case_bool_decide as Hidle; [congruence | done].
    + destruct Hin as [<-|[]]. repeat split; try done. right. by repeat split.
  - apply bool_decide_eq_false in Hmov.
    case_bool_decide as Hidle; [| done].
    destruct Hin as [<-|[]]. repeat split; try done. by left.
Qed.

Lemma get_other_robot_paths_elem_witness :
  exists r,
    In r initial_robots /\ Robot.id r <> 2 /\
    head (replicate 20 (mkPosition 1 0)) = Some (Robot.position r) /\
    ((Robot.status r = IDLE /\
      replicate 20 (mkPosition 1 0) = replicate 20 (Robot.position r)) \/
     (Robot.status r = MOVING /\ Robot.path r <> [] /\
      replicate 20 (mkPosition 1 0) =
      Robot.position r :: drop (Robot.path_index r) (Robot.path r))).
Proof.
  apply (get_other_robot_paths_elem initial_robots 2). by left.
Defined.

Lemma get_other_robot_paths_idle robots exclude_robot_id r :
  In r robots -> Robot.id r <> exclude_robot_id -> Robot.status r = IDLE ->
  In (replicate 20 (Robot.position r))
     (_get_other_robot_paths robots exclude_robot_id).
Proof.
  intros Hr Hid Hidle. unfold _get_other_robot_paths.
  apply in_flat_map. exists r. split; [done |].
  rewrite (bool_decide_eq_false_2 _ Hid).
  rewrite (bool_decide_eq_false_2 (Robot.status r = MOVING)) by congruence.
  cbn [andb]. rewrite (bool_decide_eq_true_2 _ Hidle). by left.
Qed.

(** A path planned for one robot against the others does not enter the cell
    of an idle robot at the times 1 to 19. *)
Theorem find_single_robot_path_avoids_idle (env : Environment)
    (robots : list Robot.t) (robot idle : Robot.t) (goal : Position)
    (t : nat) :
  In idle robots -> Robot.id idle <> Robot.id robot ->
  Robot.status idle = IDLE ->
  (1 <= t < 20)%nat ->
  find_single_robot_path env robot goal
    (_get_other_robot_paths robots (Robot.id robot)) !! t
  <> Some (Robot.position idle).
Proof.
  intros Hin Hid Hidle Ht Hat. unfold find_single_robot_path in Hat.
  set (others := _get_other_robot_paths robots (Robot.id robot)) in *.
  set (P := find_path env (Robot.position robot) goal others 50) in *.
  destruct (find_path_ok env (Robot.position robot) goal others 50 P eq_refl)
    as [_ Hfree].
  { intros HP. by rewrite HP in Hat. }
  destruct t as [|t]; [lia |].
  destruct (lookup_lt_is_Some_2 P t) as [cur Hcur].
  { apply lookup_lt_Some in Hat. lia. }
  pose proof (Hfree t cur _ Hcur Hat) as Hcol.
  apply has_collision_false_elem
    with (Q := replicate 20 (Robot.position idle)) in Hcol.
  2:{ apply list_elem_of_In. by apply get_other_robot_paths_idle. }
  apply path_collides_false in Hcol as [Hv _];
    [| rewrite length_replicate; lia].
  apply Hv, lookup_replicate_2. lia.
Qed.

Lemma find_single_robot_path_avoids_idle_witness :
  find_single_robot_path Environment_init
    (Robot.mk 2 (mkPosition 1 4) [] 0 2 IDLE false) (mkPosition 0 0)
    (_get_other_robot_paths initial_robots 2) !! 4%nat
  <> Some (mkPosition 1 0).
Proof.
  apply (find_single_robot_path_avoids_idle Environment_init initial_robots
           (Robot.mk 2 (mkPosition 1 4) [] 0 2 IDLE false)
           (Robot.mk 1 (mkPosition 1 0) [] 0 1 IDLE false)).
  - by left.
  - cbn; lia.
  - reflexivity.
  - lia.
Defined.

(** * More on the reservation table *)

Lemma fold_left_absorb {St X : Type} (f : St -> X -> St) (l : list X)
    (s : St) (x : X) :
  (forall s x, f (f s x) x = f s x) ->
  (forall s x y, f (f s x) y = f (f s y) x) ->
  In x l -> f (fold_left f l s) x = fold_left f l s.
Proof.
  intros Hidem Hcomm. revert s.
  induction l as [|y l IH]; intros s Hin; [done |]. cbn [fold_left].
  destruct Hin as [->|Hin]; [| by apply IH].
  by rewrite (fold_left_comm_step f Hcomm), Hidem.
Qed.

Module ReservationTableMore.
Import ReservationTable ReservationTableFacts.

Lemma defaultdict_getitem_default `{Countable K} (d : gmap Z (gmap K Z))
    (t : Z) :
  (defaultdict_getitem d t).1 = default ∅ (d !! t).
Proof. unfold defaultdict_getitem. by destruct (d !! t). Qed.

Lemma defaultdict_getitem_same `{Countable K} (d : gmap Z (gmap K Z))
    (t t' : Z) :
  default ∅ ((defaultdict_getitem d t).2 !! t') = default ∅ (d !! t').
Proof.
  unfold defaultdict_getitem. destruct (d !! t) eqn:Ht; [done |]. cbn [snd].
  destruct (decide (t = t')) as [<-|Hne].
  - by rewrite lookup_insert_eq, Ht.
  - by rewrite lookup_insert_ne.
Qed.

Lemma is_vertex_free_owner self x y time agent_id :
  (is_vertex_free self x y time agent_id).1 =
  match vertex_owner self time (x, y) with
  | Some o => bool_decide (o = agent_id)
  | None => true
  end.
Proof.
  unfold is_vertex_free, vertex_owner, defaultdict_getitem.
  destruct (vertex_table self !! time) as [d|]; cbn.
  - by destruct (d !! (x, y)).
  - by rewrite lookup_empty.
Qed.

Lemma is_edge_free_owner self from_pos to_pos time agent_id :
  (is_edge_free self from_pos to_pos time agent_id).1 =
  match edge_owner self time (to_pos, from_pos) with
  | Some o => bool_decide (o = agent_id)
  | None => true
  end.
Proof.
  unfold is_edge_free, edge_owner, defaultdict_getitem.
  destruct (edge_table self !! time) as [d|]; cbn.
  - by destruct (d !! (to_pos, from_pos)).
  - by rewrite lookup_empty.
Qed.

Lemma vertex_owner_after_query_v self x y time a t pos :
  vertex_owner (is_vertex_free self x y time a).2 t pos =
  vertex_owner self t pos.
Proof.
  unfold is_vertex_free, vertex_owner.
  pose proof (defaultdict_getitem_same (vertex_table self) time t) as Hsame.
  destruct (defaultdict_getitem (vertex_table self) time) as [d vt'].
  cbn [snd] in Hsame.
  assert (vertex_table (mk vt' (edge_table self)) = vt') as Hvt by done.
  destruct (d !! (x, y)); cbn [snd]; rewrite Hvt;
    destruct (vt' !! t) as [d1|], (vertex_table self !! t) as [d2|];
    cbn in *; subst; by rewrite ?lookup_empty.
Qed.

Lemma edge_owner_after_query_v self x y time a t edge :
  edge_owner (is_vertex_free self x y time a).2 t edge = edge_owner self t edge.
Proof.
  unfold is_vertex_free, edge_owner.
  destruct (defaultdict_getitem (vertex_table self) time) as [d vt'].
  by destruct (d !! (x, y)).
Qed.

Lemma edge_owner_after_query_e self from_pos to_pos time a t edge :
  edge_owner (is_edge_free self from_pos to_pos time a).2 t edge =
  edge_owner self t edge.
Proof.
  unfold is_edge_free, edge_owner.
  pose proof (defaultdict_getitem_same (edge_table self) time t) as Hsame.
  destruct (defaultdict_getitem (edge_table self) time) as [d et'].
  cbn [snd] in Hsame.
  assert (edge_table (mk (vertex_table self) et') = et') as Het by done.
  destruct (d !! (to_pos, from_pos)); cbn [snd]; rewrite Het;
    destruct (et' !! t) as [d1|], (edge_table self !! t) as [d2|];
    cbn in *; subst; by rewrite ?lookup_empty.
Qed.

Lemma vertex_owner_after_query_e self from_pos to_pos time a t pos :
  vertex_owner (is_edge_free self from_pos to_pos time a).2 t pos =
  vertex_owner self t pos.
Proof.
  unfold is_edge_free, vertex_owner.
  destruct (defaultdict_getitem (edge_table self) time) as [d et'].
  by destruct (d !! (to_pos, from_pos)).
Qed.

(** A query creates at most an empty dictionary in the table and so changes
    the answer of no later query. *)
Theorem queries_do_not_interfere (self : t) (x y time a : Z)
    (from_pos to_pos : Z * Z) (time' a' : Z) :
  let after_vertex := (is_vertex_free self x y time a).2 in
  let after_edge := (is_edge_free self from_pos to_pos time' a').2 in
  (forall x1 y1 t1 a1,
     (is_vertex_free after_vertex x1 y1 t1 a1).1 =
     (is_vertex_free self x1 y1 t1 a1).1 /\
     (is_vertex_free after_edge x1 y1 t1 a1).1 =
     (is_vertex_free self x1 y1 t1 a1).1) /\
  (forall f1 g1 t1 a1,
     (is_edge_free after_vertex f1 g1 t1 a1).1 =
     (is_edge_free self f1 g1 t1 a1).1 /\
     (is_edge_free after_edge f1 g1 t1 a1).1 =
     (is_edge_free self f1 g1 t1 a1).1).
Proof.
  cbn zeta. split; intros; split;
    rewrite ?is_vertex_free_owner, ?is_edge_free_owner,
      ?vertex_owner_after_query_v, ?vertex_owner_after_query_e,
      ?edge_owner_after_query_v, ?edge_owner_after_query_e; done.
Qed.
End ReservationTableMore.

Module ReservationTableOwnership.
Import ReservationTable ReservationTableFacts ReservationTableMore.

Lemma setitem2_owner `{Countable K} (d : gmap Z (gmap K Z)) (t t' : Z)
    (k k' : K) (a : Z) :
  setitem2 d t k a !! t' ≫= (.!! k') =
  if decide (t = t' /\ k = k') then Some a else d !! t' ≫= (.!! k').
Proof.
  rewrite setitem2_insert.
  destruct (decide (t = t')) as [<-|Ht].
  - rewrite lookup_insert_eq. cbn.
    destruct (decide (k = k')) as [<-|Hk].
    + rewrite lookup_insert_eq. by rewrite decide_True.
    + rewrite lookup_insert_ne by done. rewrite decide_False by tauto.
      destruct (d !! t); [done |]. cbn. by rewrite lookup_empty.
  - rewrite lookup_insert_ne by done. by rewrite decide_False by tauto.
Qed.

Lemma reserve_path_absorbs self path start_time agent_id (i : nat) pos :
  path !! i = Some pos ->
  reserve_step path start_time agent_id
    (reserve_path self path start_time agent_id) (i, pos) =
  reserve_path self path start_time agent_id.
Proof.
  intros Hpos. unfold reserve_path. apply fold_left_absorb.
  - intros; apply reserve_step_idem.
  - intros; apply reserve_step_comm.
  - apply list_elem_of_In. by apply (elem_of_lookup_imap_2 pair).
Qed.

(** After a path is reserved for an agent, each of its cells, at its time, is
    free for that agent and for nobody else, whatever the table held. *)
Theorem reserve_path_owns_cells (self : t) (path : list (Z * Z))
    (start_time agent_id : Z) (i : nat) (x y other : Z) :
  path !! i = Some (x, y) ->
  (is_vertex_free (reserve_path self path start_time agent_id)
     x y (start_time + Z.of_nat i) other).1 = bool_decide (agent_id = other).
Proof.
  intros Hpos. rewrite is_vertex_free_owner.
  rewrite <- (reserve_path_absorbs self path start_time agent_id i (x, y) Hpos)
    at 1.
  set (T := reserve_path self path start_time agent_id).
  assert (vertex_table (reserve_step path start_time agent_id T (i, (x, y))) =
          setitem2 (vertex_table T) (start_time + Z.of_nat i) (x, y) agent_id)
    as Hvt.
  { unfold reserve_step. case_bool_decide; [| done].
    by destruct (path !! (i - 1)%nat). }
  unfold vertex_owner. rewrite Hvt, setitem2_owner.
  by rewrite decide_True.
Qed.

Lemma reserve_path_owns_cells_witness :
  (is_vertex_free (reserve_path init [(0, 0); (0, 1)] 0 7) 0 1 (0 + 1) 8).1 =
  bool_decide (7 = 8).
Proof.
  apply (reserve_path_owns_cells init [(0, 0); (0, 1)] 0 7 1 0 1 8).
  reflexivity.
Defined.

(** After a path is reserved for an agent, crossing any of its moves in the
    opposite direction at the same time is free for that agent only. *)
Theorem reserve_path_blocks_swap (self : t) (path : list (Z * Z))
    (start_time agent_id : Z) (i : nat) (u v : Z * Z) (other : Z) :
  path !! i = Some u -> path !! S i = Some v ->
  (is_edge_free (reserve_path self path start_time agent_id)
     v u (start_time + Z.of_nat (S i)) other).1 = bool_decide (agent_id = other).
Proof.
  intros Hu Hv. rewrite is_edge_free_owner.
  rewrite <- (reserve_path_absorbs self path start_time agent_id (S i) v Hv)
    at 1.
  set (T := reserve_path self path start_time agent_id).
  assert (edge_table (reserve_step path start_time agent_id T (S i, v)) =
          setitem2 (edge_table T) (start_time + Z.of_nat (S i)) (u, v) agent_id)
    as Het.
  { unfold reserve_step. rewrite bool_decide_eq_true_2 by lia.
    replace (S i - 1)%nat with i by lia. by rewrite Hu. }
  unfold edge_owner. rewrite Het, setitem2_owner.
  by rewrite decide_True.
Qed.

Lemma reserve_path_blocks_swap_witness :
  (is_edge_free (reserve_path init [(0, 0); (0, 1)] 0 7)
     (0, 1) (0, 0) (0 + Z.of_nat 1) 8).1 = bool_decide (7 = 8).
Proof.
  apply (reserve_path_blocks_swap init [(0, 0); (0, 1)] 0 7 0 (0, 0) (0, 1) 8);
    reflexivity.
Defined.

Lemma clear_vertex_owner self agent_id time pos :
  vertex_owner (clear_agent_reservations self agent_id) time pos =
  match vertex_owner self time pos with
  | Some o => if decide (o = agent_id) then None else Some o
  | None => None
  end.
Proof.
  unfold vertex_owner, clear_agent_reservations. cbn [vertex_table].
  rewrite lookup_fmap. destruct (vertex_table self !! time) as [d|]; [| done].
  cbn. destruct (d !! pos) as [o|] eqn:Ho.
  - case_decide as Hoa.
    + apply map_lookup_filter_None. right. intros o' Ho'. cbn. congruence.
    + by apply map_lookup_filter_Some.
  - apply map_lookup_filter_None. by left.
Qed.

Lemma clear_edge_owner self agent_id time edge :
  edge_owner (clear_agent_reservations self agent_id) time edge =
  match edge_owner self time edge with
  | Some o => if decide (o = agent_id) then None else Some o
  | None => None
  end.
Proof.
  unfold edge_owner, clear_agent_reservations. cbn [edge_table].
  rewrite lookup_fmap. destruct (edge_table self !! time) as [d|]; [| done].
  cbn. destruct (d !! edge) as [o|] eqn:Ho.
  - case_decide as Hoa.
    + apply map_lookup_filter_None. right. intros o' Ho'. cbn. congruence.
    + by apply map_lookup_filter_Some.
  - apply map_lookup_filter_None. by left.
Qed.

(** Clearing the reservations of an agent frees exactly what that agent held:
    afterwards a cell or an edge is free for an agent if, before, it was free
    for that agent or for the agent that was cleared. *)
Theorem clear_agent_reservations_frees (self : t) (agent_id other : Z) :
  (forall x y time,
     (is_vertex_free (clear_agent_reservations self agent_id)
        x y time other).1 =
     (is_vertex_free self x y time agent_id).1 ||
     (is_vertex_free self x y time other).1) /\
  (forall from_pos to_pos time,
     (is_edge_free (clear_agent_reservations self agent_id)
        from_pos to_pos time other).1 =
     (is_edge_free self from_pos to_pos time agent_id).1 ||
     (is_edge_free self from_pos to_pos time other).1).
Proof.
  split; intros.
  - rewrite !is_vertex_free_owner, clear_vertex_owner.
    destruct (vertex_owner self time (x, y)) as [o|]; [| done].
    case_decide as Hoa.
    + by rewrite (bool_decide_eq_true_2 _ Hoa).
    + by rewrite (bool_decide_eq_false_2 _ Hoa).
  - rewrite !is_edge_free_owner, clear_edge_owner.
    destruct (edge_owner self time (to_pos, from_pos)) as [o|]; [| done].
    case_decide as Hoa.
    + by rewrite (bool_decide_eq_true_2 _ Hoa).
    + by rewrite (bool_decide_eq_false_2 _ Hoa).
Qed.

Lemma reserve_step_owned_only_by path start_time agent_id self ipos :
  owned_only_by agent_id self ->
  owned_only_by agent_id (reserve_step path start_time agent_id self ipos).
Proof.
  intros [Hv He]. destruct ipos as [i pos].
  assert (forall `{Countable K} (d : gmap Z (gmap K Z)) t k,
            (forall t' k' o, d !! t' ≫= (.!! k') = Some o -> o = agent_id) ->
            forall t' k' o,
              setitem2 d t k agent_id !! t' ≫= (.!! k') = Some o ->
              o = agent_id) as Hset.
  { intros K ? ? d t k Hd t' k' o. rewrite setitem2_owner.
    case_decide; [congruence | apply Hd]. }
  unfold reserve_step.
  destruct (bool_decide (0 < i)%nat); [destruct (path !! (i - 1)%nat) |];
    (split; [apply (Hset _ _ _ _ _ _ Hv) |]); try done.
  apply (Hset _ _ _ _ _ _ He).
Qed.

Lemma reserve_path_owned_only_by self path start_time agent_id :
  owned_only_by agent_id self ->
  owned_only_by agent_id (reserve_path self path start_time agent_id).
Proof.
  unfold reserve_path. generalize (imap pair path). intros l. revert self.
  induction l as [|ipos l IH]; intros self Hself; [done |]. cbn [fold_left].
  by apply IH, reserve_step_owned_only_by.
Qed.

(** Release undoes reserve: when a path is reserved in a fresh table and its
    agent is then cleared, every cell and every edge is free for everybody at
    all times. *)
Theorem clear_after_reserve_is_free (path : list (Z * Z))
    (start_time agent_id : Z) :
  let table :=
    clear_agent_reservations (reserve_path init path start_time agent_id)
      agent_id in
  (forall x y time other, (is_vertex_free table x y time other).1 = true) /\
  (forall from_pos to_pos time other,
     (is_edge_free table from_pos to_pos time other).1 = true).
Proof.
  cbn zeta.
  destruct (reserve_path_owned_only_by init path start_time agent_id)
    as [Hv He].
  { split; intros ? ? o; unfold vertex_owner, edge_owner; cbn;
      by rewrite lookup_empty. }
  split; intros.
  - rewrite is_vertex_free_owner, clear_vertex_owner.
    destruct (vertex_owner _ time (x, y)) as [o|] eqn:Ho; [| done].
    by rewrite decide_True by (by eapply Hv).
  - rewrite is_edge_free_owner, clear_edge_owner.
    destruct (edge_owner _ time (to_pos, from_pos)) as [o|] eqn:Ho; [| done].
    by rewrite decide_True by (by eapply He).
Qed.
End ReservationTableOwnership.

(** * Orders *)

Lemma pair_leb_le a b : pair_leb a b = true <-> pair_le a b.
Proof. unfold pair_leb, pair_le. lia. Qed.

Lemma pair_le_total a b : pair_le a b \/ pair_le b a.
Proof. unfold pair_le. lia. Qed.

Lemma pair_le_trans a b c : pair_le a b -> pair_le b c -> pair_le a c.
Proof. unfold pair_le. lia. Qed.

Section sort_by_key_facts.
Context {A : Type} (key : A -> Z * Z).

Lemma insert_by_key_In x y l :
  In y (insert_by_key key x l) <-> y = x \/ In y l.
Proof.
  induction l as [|z l IH]; cbn; [intuition congruence |].
  destruct (pair_leb (key x) (key z)); cbn; rewrite ?IH; intuition congruence.
Qed.

Lemma sort_by_key_In y l : In y (sort_by_key key l) <-> In y l.
Proof.
  induction l as [|x l IH]; [done |].
  change (sort_by_key key (x :: l))
    with (insert_by_key key x (sort_by_key key l)).
  rewrite insert_by_key_In, IH. cbn. intuition congruence.
Qed.

Lemma insert_by_key_head x l (m : A) :
  head (insert_by_key key x l) = Some m ->
  (forall y, head l = Some y -> forall z, In z l -> pair_le (key y) (key z)) ->
  forall z, In z (x :: l) -> pair_le (key m) (key z).
Proof.
  destruct l as [|y l]; cbn [insert_by_key].
  - intros [= Hm] _ z [Hz|[]]. subst. unfold pair_le. lia.
  - destruct (pair_leb (key x) (key y)) eqn:Hle; cbn [head].
    + apply pair_leb_le in Hle. intros [= Hm] Hmin z [Hz|Hz]; subst.
      * unfold pair_le. lia.
      * eapply pair_le_trans; [exact Hle | by apply (Hmin y)].
    + intros [= Hm] Hmin z [Hz|Hz]; subst; [| by apply (Hmin m)].
      destruct (pair_le_total (key m) (key z)) as [?|Hzm]; [done |].
      apply pair_leb_le in Hzm. congruence.
Qed.

Lemma sort_by_key_head l (m : A) :
  head (sort_by_key key l) = Some m ->
  In m l /\ forall z, In z l -> pair_le (key m) (key z).
Proof.
  revert m. induction l as [|x l IH]; intros m; [done |].
  change (sort_by_key key (x :: l))
    with (insert_by_key key x (sort_by_key key l)).
  intros Hhead. split.
  - apply (sort_by_key_In m (x :: l)).
    change (sort_by_key key (x :: l))
      with (insert_by_key key x (sort_by_key key l)).
    destruct (insert_by_key key x (sort_by_key key l)); [done |].
    injection Hhead as ->. by left.
  - intros z Hz.
    apply (insert_by_key_head x (sort_by_key key l) m Hhead).
    + intros y Hy z' Hz'. apply (IH y Hy), sort_by_key_In, Hz'.
    + destruct Hz as [->|Hz]; [by left | right]. by apply sort_by_key_In.
Qed.

Lemma sort_by_key_nil l : sort_by_key key l = [] -> l = [].
Proof.
  destruct l as [|x l]; [done |]. intros Hnil.
  assert (In x (sort_by_key key (x :: l))) as Hin
    by (apply sort_by_key_In; by left).
  by rewrite Hnil in Hin.
Qed.
End sort_by_key_facts.

Module OrderManagerFacts.
Import OrderManager.

(** The robot chosen for an order is one of the available robots, the pickup
    room of the order exists, and no available robot has a smaller key
    [pickup_key]: the distance estimate of the code (the column distance to
    the pickup room, plus 1 from the corridor row and plus 2 from elsewhere),
    then the priority number. *)
Theorem get_best_robot_for_order_best (env : Environment) (order : Order.t)
    (available_robots : list Robot.t) (best : Robot.t) :
  get_best_robot_for_order env order available_robots = Some best ->
  In best available_robots /\
  exists from_room_pos,
    find_room_position env (Order.from_room order) = Some from_room_pos /\
    forall r, In r available_robots ->
      pair_le (pickup_key from_room_pos best) (pickup_key from_room_pos r).
Proof.
  unfold get_best_robot_for_order.
  destruct available_robots as [|r0 rs] eqn:Havail; [done |].
  rewrite <- Havail. clear Havail.
  destruct (find_room_position env (Order.from_room order)) as [pos|]; [| done].
  set (key := fun x : Robot.t * Z => (x.2, Robot.priority x.1)).
  destruct (head (sort_by_key key _)) as [[b d]|] eqn:Hhead; [| done].
  intros [= <-].
  apply sort_by_key_head in Hhead as [Hin Hmin].
  apply in_map_iff in Hin as (b' & [= <- <-] & Hb').
  split; [done |]. exists pos. split; [done |].
  intros r Hr.
  apply (Hmin (r, (pickup_key pos r).1)).
  apply in_map_iff. by exists r.
Qed.

Lemma get_best_robot_for_order_best_witness :
  In (Robot.mk 2 (mkPosition 1 4) [] 0 2 IDLE false) initial_robots /\
  exists from_room_pos,
    find_room_position Environment_init "out" = Some from_room_pos /\
    forall r, In r initial_robots ->
      pair_le
        (pickup_key from_room_pos (Robot.mk 2 (mkPosition 1 4) [] 0 2 IDLE false))
        (pickup_key from_room_pos r).
Proof.
  apply (get_best_robot_for_order_best Environment_init
           (Order.mk 1 "out" "in" 0 PENDING None None None)).
  reflexivity.
Defined.

(** No robot is chosen exactly when there is no available robot or the pickup
    room of the order does not exist. *)
Theorem get_best_robot_for_order_none (env : Environment) (order : Order.t)
    (available_robots : list Robot.t) :
  get_best_robot_for_order env order available_robots = None <->
  available_robots = [] \/
  find_room_position env (Order.from_room order) = None.
Proof.
  unfold get_best_robot_for_order.
  destruct available_robots as [|r0 rs] eqn:Havail; [by split; [left |] |].
  rewrite <- Havail.
  destruct (find_room_position env (Order.from_room order)) as [pos|];
    [| by split; [right |]].
  split; [| intros [?|?]; congruence].
  destruct (sort_by_key _ _) as [|x l] eqn:Hsort; [| done].
  apply sort_by_key_nil in Hsort. intros _. left.
  by apply map_eq_nil in Hsort.
Qed.

(** A generated order goes between two different rooms of the environment; it
    is pending, takes the next order id and is appended to the orders. *)
Theorem generate_random_order_rooms (env : Environment) (self : t)
    (current_time : Z) (draw1 draw2 : nat) (order : Order.t) (self' : t) :
  generate_random_order env self current_time draw1 draw2
    = Some (order, self') ->
  Order.from_room order <> Order.to_room order /\
  In (Order.from_room order) (rooms env) /\
  In (Order.to_room order) (rooms env) /\
  Order.status order = PENDING /\
  Order.id order = next_order_id self /\
  orders self' = orders self ++ [order] /\
  next_order_id self' = next_order_id self + 1.
Proof.
  unfold generate_random_order, rooms, ROOMS.
  destruct draw1 as [|[|[|[|[|]]]]]; cbn; try done;
    destruct draw2 as [|[|[|[|]]]]; cbn; try done;
    intros [= <- <-]; cbn; repeat split; try done; tauto.
Qed.

Lemma generate_random_order_rooms_witness :
  let order := Order.mk 1 "C" "in" 5 PENDING None None None in
  Order.from_room order <> Order.to_room order /\
  In (Order.from_room order) (rooms Environment_init) /\
  In (Order.to_room order) (rooms Environment_init) /\
  Order.status order = PENDING /\
  Order.id order = next_order_id init /\
  orders (mk [order] [] 2) = orders init ++ [order] /\
  next_order_id (mk [order] [] 2) = next_order_id init + 1.
Proof.
  apply (generate_random_order_rooms Environment_init init 5 3 0).
  reflexivity.
Defined.
End OrderManagerFacts.

Lemma py_remove_perm `{EqDecision A} (x : A) (l : list A) :
  In x l -> l ≡ₚ x :: py_remove x l.
Proof.
  induction l as [|y l IH]; [done |]. cbn [py_remove].
  intros Hin. case_decide as Hy; [by subst |].
  destruct Hin as [?|Hin]; [done |].
  rewrite (IH Hin) at 1. apply Permutation_swap.
Qed.

Lemma find_index_Some {A : Type} (f : A -> bool) (l : list A) (k : nat) :
  find_index f l = Some k ->
  (exists x, l !! k = Some x /\ f x = true) /\
  (forall (j : nat) y, (j < k)%nat -> l !! j = Some y -> f y = false).
Proof.
  revert k. induction l as [|x l IH]; intros k; [done |]. cbn [find_index].
  destruct (f x) eqn:Hfx.
  - intros [= <-]. split; [by exists x | intros; lia].
  - destruct (find_index f l) as [k'|]; [| done]. intros [= <-].
    destruct (IH k' eq_refl) as [Hat Hbefore]. split; [done |].
    intros [|j] y Hj; cbn; [by intros [= <-] |].
    apply Hbefore. lia.
Qed.

Lemma find_index_None {A : Type} (f : A -> bool) (l : list A) :
  find_index f l = None -> forall x, In x l -> f x = false.
Proof.
  induction l as [|y l IH]; [done |]. cbn [find_index].
  destruct (f y) eqn:Hfy; [done |].
  destruct (find_index f l); [done |].
  intros _ x [<-|Hx]; [done | by apply IH].
Qed.

Module OrderManagerMore.
Import OrderManager.

(** Completing an order takes exactly one order out of the active orders and
    appends it, marked completed and with its completion time, to the
    completed orders. *)
Theorem complete_order_moves (self : t) (k : nat) (current_time : Z)
    (order : Order.t) :
  orders self !! k = Some order ->
  exists order',
    orders self ≡ₚ order :: orders (complete_order self k current_time) /\
    completed_orders (complete_order self k current_time) =
      completed_orders self ++ [order'] /\
    Order.id order' = Order.id order /\
    Order.status order' = COMPLETED /\
    Order.completion_time order' =
      Some (current_time - Order.request_time order) /\
    next_order_id (complete_order self k current_time) = next_order_id self.
Proof.
  intros Hk. unfold complete_order. rewrite Hk. cbn [orders completed_orders
    next_order_id].
  eexists. split; [| repeat split; reflexivity].
  set (order' := Order.mk _ _ _ _ _ _ _ _).
  assert (In order' (<[k := order']> (orders self))) as Hin.
  { apply list_elem_of_In, list_elem_of_lookup. exists k.
    apply list_lookup_insert_eq. by eapply lookup_lt_Some. }
  apply (Permutation_cons_inv (a := order')).
  rewrite <- (insert_trade _ k order order' Hk).
  etrans; [| apply Permutation_swap].
  apply Permutation_cons; [done |]. by apply py_remove_perm.
Qed.

Lemma complete_order_moves_witness :
  let order := Order.mk 1 "in" "out" 2 ASSIGNED (Some 1) (Some 2) None in
  exists order',
    [order] ≡ₚ order :: orders (complete_order (mk [order] [] 2) 0 9) /\
    completed_orders (complete_order (mk [order] [] 2) 0 9) = [] ++ [order'] /\
    Order.id order' = Order.id order /\
    Order.status order' = COMPLETED /\
    Order.completion_time order' = Some (9 - Order.request_time order) /\
    next_order_id (complete_order (mk [order] [] 2) 0 9) = 2.
Proof.
  apply (complete_order_moves
           (mk [Order.mk 1 "in" "out" 2 ASSIGNED (Some 1) (Some 2) None] [] 2)
           0 9).
  reflexivity.
Defined.

(** [find_order_by_robot] returns the first order that is assigned to the
    robot, and nothing when no order is. *)
Theorem find_order_by_robot_first (self : t) (robot_id : Z) :
  match find_order_by_robot self robot_id with
  | Some k =>
      (exists order,
         orders self !! k = Some order /\
         Order.assigned_robot order = Some robot_id /\
         Order.status order = ASSIGNED) /\
      (forall (j : nat) order,
         (j < k)%nat -> orders self !! j = Some order ->
         ~ (Order.assigned_robot order = Some robot_id /\
            Order.status order = ASSIGNED))
  | None =>
      forall order,
        In order (orders self) ->
        ~ (Order.assigned_robot order = Some robot_id /\
           Order.status order = ASSIGNED)
  end.
Proof.
  unfold find_order_by_robot.
  destruct (find_index _ (orders self)) as [k|] eqn:Hfind.
  - apply find_index_Some in Hfind as [(order & Hk & Hf) Hbefore]. split.
    + exists order. apply andb_prop in Hf as [H1 H2].
      apply bool_decide_eq_true in H1, H2. done.
    + intros j order' Hj Hlook [H1 H2].
      specialize (Hbefore j order' Hj Hlook). cbn beta in Hbefore.
      by rewrite !bool_decide_eq_true_2 in Hbefore.
  - intros order Hin [H1 H2].
    pose proof (find_index_None _ _ Hfind order Hin) as Hf. cbn beta in Hf.
    by rewrite !bool_decide_eq_true_2 in Hf.
Qed.
End OrderManagerMore.

(** * The simulation steps *)

Lemma nodup_ids_eq (robots : list Robot.t) (a b : Robot.t) :
  NoDup (map Robot.id robots) -> In a robots -> In b robots ->
  Robot.id a = Robot.id b -> a = b.
Proof.
  induction robots as [|r robots IH]; [done |]. cbn [map].
  intros [Hr Hnd]%NoDup_cons [<-|Ha] [<-|Hb] Hid; [done | | | by apply IH].
  - destruct Hr. rewrite Hid. apply list_elem_of_In, in_map. done.
  - destruct Hr. rewrite <- Hid. apply list_elem_of_In, in_map. done.
Qed.

Lemma two_members_length {A : Type} (l : list A) (a b : A) :
  In a l -> In b l -> a <> b -> (1 < length l)%nat.
Proof.
  destruct l as [|x [|y l]]; cbn; [done | | lia].
  intros [<-|[]] [<-|[]]. done.
Qed.

Module MAPFSimulatorFacts.
Import MAPFSimulator.

Lemma wants_to_move_next r :
  wants_to_move r = true ->
  Robot.status r = MOVING /\
  exists p, Robot.path r !! Robot.path_index r = Some p.
Proof.
  unfold wants_to_move. intros [[Hs _]%andb_prop Hlt]%andb_prop.
  apply bool_decide_eq_true in Hs, Hlt. split; [done |].
  by apply lookup_lt_is_Some_2.
Qed.

Lemma min_by_priority_spec l h :
  min_by_priority l = Some h ->
  In h l /\ forall x, In x l -> Robot.priority h <= Robot.priority x.
Proof.
  revert h. induction l as [|r l IH]; intros h; [done |].
  cbn [min_by_priority].
  destruct (min_by_priority l) as [m|] eqn:Hm.
  - destruct (IH m eq_refl) as [Hin Hmin].
    destruct (Robot.priority m <? Robot.priority r) eqn:Hlt; intros [= <-].
    + apply Z.ltb_lt in Hlt. split; [by right |].
      intros x [<-|Hx]; [lia | by apply Hmin].
    + apply Z.ltb_ge in Hlt. split; [by left |].
      intros x [<-|Hx]; [lia |]. specialize (Hmin x Hx). lia.
  - intros [= <-]. split; [by left |]. intros x [<-|Hx]; [lia |].
    destruct l; [done | cbn in Hm; by repeat case_match].
Qed.

Lemma min_by_priority_is_Some l : l <> [] -> is_Some (min_by_priority l).
Proof. destruct l; [done |]. intros _. cbn. by repeat case_match. Qed.

Lemma contenders_cons r l key :
  contenders (r :: l) key =
  if wants_to_move r && bool_decide (next_key r = Some key)
  then r :: contenders l key else contenders l key.
Proof. done. Qed.

Lemma record_moves_conflicts l m1 m2 key :
  default [] ((fold_left record_move l (m1, m2)).2 !! key) =
  default [] (m2 !! key) ++ contenders l key.
Proof.
  revert m1 m2. induction l as [|r l IH]; intros m1 m2; cbn [fold_left].
  { by rewrite app_nil_r. }
  rewrite contenders_cons. unfold record_move at 2.
  destruct (wants_to_move r) eqn:Hw; cbn [andb]; [| apply IH].
  destruct (wants_to_move_next r Hw) as [_ [p Hp]]. rewrite Hp, IH.
  unfold next_key. rewrite Hp. cbn [fmap option_fmap option_map].
  destruct (decide ((row p, col p) = key)) as [<-|Hne].
  - rewrite lookup_insert_eq, bool_decide_eq_true_2 by done.
    change (default [] (Some ?x)) with x. by rewrite <- app_assoc.
  - rewrite lookup_insert_ne by done.
    by rewrite bool_decide_eq_false_2 by congruence.
Qed.

Lemma record_moves_intended l m1 m2 (i : Z) p :
  (fold_left record_move l (m1, m2)).1 !! i = Some p ->
  m1 !! i = Some p \/
  exists r, In r l /\ Robot.id r = i /\ wants_to_move r = true /\
            Robot.path r !! Robot.path_index r = Some p.
Proof.
  revert m1 m2. induction l as [|r l IH]; intros m1 m2; cbn [fold_left];
    [by left |].
  unfold record_move at 2.
  destruct (wants_to_move r) eqn:Hw.
  - destruct (wants_to_move_next r Hw) as [_ [q Hq]]. rewrite Hq.
    intros [Hm|(r' & ? & ? & ? & ?)]%IH.
    + rewrite lookup_insert in Hm. case_decide as Hid; [| by left].
      injection Hm as <-. right. exists r. split; [by left | done].
    + right. exists r'. split; [by right | done].
  - intros [?|(r' & ? & ? & ? & ?)]%IH; [by left |].
    right. exists r'. split; [by right | done].
Qed.

Lemma record_moves_intended_Some l m1 m2 (i : Z) :
  is_Some (m1 !! i) \/
  (exists r, In r l /\ Robot.id r = i /\ wants_to_move r = true) ->
  is_Some ((fold_left record_move l (m1, m2)).1 !! i).
Proof.
  revert m1 m2. induction l as [|r l IH]; intros m1 m2 Hcase; cbn [fold_left].
  { destruct Hcase as [?|(r & [] & _)]. done. }
  assert (is_Some ((record_move (m1, m2) r).1 !! i) \/
          (exists r', In r' l /\ Robot.id r' = i /\ wants_to_move r' = true))
    as Hstep.
  { unfold record_move.
    destruct (wants_to_move r) eqn:Hw.
    - destruct (wants_to_move_next r Hw) as [_ [q Hq]]. rewrite Hq. cbn [fst].
      destruct (decide (Robot.id r = i)) as [<-|Hne].
      + left. rewrite lookup_insert_eq. by eexists.
      + rewrite lookup_insert_ne by done.
        destruct Hcase as [?|(r' & [<-|?] & ? & ?)]; [by left | done |].
        right. by exists r'.
    - cbn [fst]. destruct Hcase as [?|(r' & [<-|?] & ? & ?)];
        [by left | congruence |]. right. by exists r'. }
  destruct (record_move (m1, m2) r) as [m1' m2']. by apply IH.
Qed.

(** With distinct ids, the intended move recorded under the id of a robot is
    its own. *)
Lemma intended_own robots r :
  NoDup (map Robot.id robots) -> In r robots ->
  (fold_left record_move robots (∅, ∅)).1 !! Robot.id r =
  if wants_to_move r then Robot.path r !! Robot.path_index r else None.
Proof.
  intros Hnd Hr.
  destruct ((fold_left record_move robots (∅, ∅)).1 !! Robot.id r)
    as [p|] eqn:Hp.
  - apply record_moves_intended in Hp as [Hp|(r' & Hr' & Hid & Hw & Hp)].
    { by rewrite lookup_empty in Hp. }
    assert (r' = r) as -> by (by apply (nodup_ids_eq robots)).
    by rewrite Hw.
  - destruct (wants_to_move r) eqn:Hw; [| done].
    assert (is_Some ((fold_left record_move robots (∅, ∅)).1 !! Robot.id r))
      as [? Hs].
    { apply record_moves_intended_Some. right. by exists r. }
    congruence.
Qed.

Lemma move_robot_fst tables t om om' r :
  (move_robot tables t om r).1 = (move_robot tables t om' r).1.
Proof.
  unfold move_robot. destruct tables as [im pc].
  repeat case_match; done.
Qed.

Lemma move_robots_robots self :
  robots (_move_robots self) =
  map (fun r =>
         (move_robot (fold_left record_move (robots self) (∅, ∅))
            (time_elapsed self) OrderManager.init r).1)
      (robots self).
Proof.
  unfold _move_robots.
  set (tables := fold_left record_move (robots self) (∅, ∅)).
  assert (forall l acc om,
            (fold_left
               (fun acc robot =>
                  let '(moved, om) := acc in
                  let '(robot', om') :=
                    move_robot tables (time_elapsed self) om robot in
                  (moved ++ [robot'], om'))
               l (acc, om)).1 =
            acc ++ map (fun r =>
                          (move_robot tables (time_elapsed self)
                             OrderManager.init r).1) l) as Hfold.
  { induction l as [|r l IH]; intros acc om; cbn [fold_left map].
    - by rewrite app_nil_r.
    - pose proof (move_robot_fst tables (time_elapsed self) om
                    OrderManager.init r) as Hfst.
      destruct (move_robot tables (time_elapsed self) om r) as [r' om'].
      rewrite IH, <- app_assoc. cbn in *. by rewrite Hfst. }
  specialize (Hfold (robots self) [] (order_manager self)).
  destruct (fold_left _ (robots self) ([], order_manager self)) as [rs om'].
  cbn [robots]. exact Hfold.
Qed.

(** What the second loop does to one robot, when the ids are distinct. *)
Lemma move_robot_cases robots t om r :
  NoDup (map Robot.id robots) -> In r robots ->
  let r' := (move_robot (fold_left record_move robots (∅, ∅)) t om r).1 in
  Robot.id r' = Robot.id r /\ Robot.priority r' = Robot.priority r /\
  ((wants_to_move r = false /\ Robot.is_waiting r' = false /\
    Robot.position r' = Robot.position r /\ Robot.path r' = Robot.path r /\
    Robot.path_index r' = Robot.path_index r /\
    Robot.status r' = Robot.status r) \/
   (wants_to_move r = true /\ Robot.is_waiting r' = true /\
    Robot.position r' = Robot.position r /\ Robot.path r' = Robot.path r /\
    Robot.path_index r' = Robot.path_index r /\
    Robot.status r' = Robot.status r /\
    exists p h,
      Robot.path r !! Robot.path_index r = Some p /\
      (1 < length (contenders robots (row p, col p)))%nat /\
      min_by_priority (contenders robots (row p, col p)) = Some h /\
      Robot.id r <> Robot.id h) \/
   (wants_to_move r = true /\ Robot.is_waiting r' = false /\
    Robot.path r !! Robot.path_index r = Some (Robot.position r') /\
    ((1 < length (contenders robots
                    (row (Robot.position r'), col (Robot.position r'))))%nat ->
     exists h,
       min_by_priority
         (contenders robots
            (row (Robot.position r'), col (Robot.position r'))) = Some h /\
       Robot.id r = Robot.id h) /\
    ((Robot.status r' = IDLE /\ Robot.path r' = [] /\
      Robot.path_index r' = 0%nat /\
      S (Robot.path_index r) = length (Robot.path r)) \/
     (Robot.status r' = MOVING /\ Robot.path r' = Robot.path r /\
      Robot.path_index r' = S (Robot.path_index r) /\
      (S (Robot.path_index r) < length (Robot.path r))%nat)))).
Proof.
  intros Hnd Hr. cbn zeta.
  pose proof (intended_own robots r Hnd Hr) as Hown.
  unfold move_robot.
  destruct (fold_left record_move robots (∅, ∅)) as [im pc] eqn:Htab.
  cbn [fst] in Hown. rewrite Hown.
  destruct (wants_to_move r) eqn:Hw.
  2:{ cbn. split; [done |]. split; [done |]. left. done. }
  destruct (wants_to_move_next r Hw) as [Hmoving [p Hp]]. rewrite Hp.
  assert (default [] (pc !! (row p, col p)) = contenders robots (row p, col p))
    as Hc.
  { pose proof (record_moves_conflicts robots ∅ ∅ (row p, col p)) as H.
    rewrite Htab in H. cbn [snd] in H. by rewrite lookup_empty in H. }
  rewrite Hc.
  set (c := contenders robots (row p, col p)) in *.
  assert (Robot.path_index r < length (Robot.path r))%nat as Hidx
    by (by eapply lookup_lt_Some).
  destruct (bool_decide (1 < length c)%nat) eqn:Hlen; cbn [andb]; subst c.
  - apply bool_decide_eq_true in Hlen.
    destruct (min_by_priority_is_Some (contenders robots (row p, col p)))
      as [h Hh].
    { intros Hnil. rewrite Hnil in Hlen. cbn in Hlen. lia. }
    rewrite Hh. case_bool_decide as Hid; cbn [negb].
    + case_bool_decide as Hfin; cbn; (split; [done |]); (split; [done |]);
        do 2 right; (split; [done |]); (split; [done |]); (split; [done |]);
        (split; [intros _; by exists h |]); [left | right]; repeat split;
        try done; lia.
    + cbn. split; [done |]. split; [done |]. right. left.
      repeat split; try done. by exists p, h.
  - apply bool_decide_eq_false in Hlen.
    case_bool_decide as Hfin; cbn; (split; [done |]); (split; [done |]);
      do 2 right; (split; [done |]); (split; [done |]); (split; [done |]);
      (split; [intros ?; lia |]); [left | right]; repeat split;
      try done; lia.
Qed.
End MAPFSimulatorFacts.

Lemma lookup_map {A B : Type} (f : A -> B) (l : list A) (i : nat) :
  map f l !! i = f <$> l !! i.
Proof.
  revert i. induction l as [|x l IH]; intros [|i]; try done. apply IH.
Qed.

Module MAPFSimulatorSteps.
Import MAPFSimulator MAPFSimulatorFacts.

Lemma contenders_In robots r p :
  In r robots -> wants_to_move r = true ->
  Robot.path r !! Robot.path_index r = Some p ->
  In r (contenders robots (row p, col p)).
Proof.
  intros Hr Hw Hp. unfold contenders. apply filter_In. split; [done |].
  rewrite Hw. cbn [andb]. apply bool_decide_eq_true.
  unfold next_key. by rewrite Hp.
Qed.

Lemma contenders_incl robots key r :
  In r (contenders robots key) -> In r robots.
Proof. unfold contenders. by intros [? _]%filter_In. Qed.

Lemma moved_lookup self (i : nat) r r' :
  robots self !! i = Some r ->
  robots (_move_robots self) !! i = Some r' ->
  r' = (move_robot (fold_left record_move (robots self) (∅, ∅))
          (time_elapsed self) OrderManager.init r).1.
Proof.
  intros Hr. rewrite move_robots_robots, lookup_map, Hr. by intros [= <-].
Qed.

(** One step of [_move_robots], for robots of distinct ids: every robot keeps
    its id and its priority, and either stays where it is with its path
    untouched, or advances to the next cell of its path; a robot that has
    advanced is idle with no path once the path is finished, and otherwise
    moving with a step of its path left. *)
Theorem move_robots_step (self : t) (i : nat) (r : Robot.t) :
  NoDup (map Robot.id (robots self)) ->
  robots self !! i = Some r ->
  exists r',
    robots (_move_robots self) !! i = Some r' /\
    Robot.id r' = Robot.id r /\ Robot.priority r' = Robot.priority r /\
    ((Robot.position r' = Robot.position r /\ Robot.path r' = Robot.path r /\
      Robot.path_index r' = Robot.path_index r /\
      Robot.status r' = Robot.status r) \/
     (Robot.status r = MOVING /\ Robot.is_waiting r' = false /\
      Robot.path r !! Robot.path_index r = Some (Robot.position r') /\
      robot_wf r')).
Proof.
  intros Hnd Hr.
  rewrite move_robots_robots, lookup_map, Hr. cbn. eexists. split; [done |].
  pose proof (move_robot_cases (robots self) (time_elapsed self)
                OrderManager.init r Hnd
                (proj1 (list_elem_of_In _ _) (list_elem_of_lookup_2 _ _ _ Hr)))
    as (Hid & Hprio & Hcases). cbn zeta in Hcases.
  split; [done |]. split; [done |].
  destruct Hcases as [(_ & _ & ? & ? & ? & ?)|[(_ & _ & ? & ? & ? & ? & _)
                     |(Hw & ? & ? & _ & Hend)]]; [by left | by left | right].
  destruct (wants_to_move_next r Hw) as [Hmov _].
  split; [done |]. split; [done |]. split; [done |].
  destruct Hend as [(? & ? & ? & _)|(? & Hpath & Hidx & ?)]; [by left | right].
  split; [done |]. rewrite Hpath, Hidx. done.
Qed.

Lemma two_movers_ids : NoDup (map Robot.id (robots two_movers)).
Proof. by apply (bool_decide_unpack _). Qed.

Lemma move_robots_step_witness :
  let r := Robot.mk 1 (mkPosition 1 1) [mkPosition 1 2] 0 1 MOVING false in
  exists r',
    robots (_move_robots two_movers) !! 0%nat = Some r' /\
    Robot.id r' = Robot.id r /\ Robot.priority r' = Robot.priority r /\
    ((Robot.position r' = Robot.position r /\ Robot.path r' = Robot.path r /\
      Robot.path_index r' = Robot.path_index r /\
      Robot.status r' = Robot.status r) \/
     (Robot.status r = MOVING /\ Robot.is_waiting r' = false /\
      Robot.path r !! Robot.path_index r = Some (Robot.position r') /\
      robot_wf r')).
Proof.
  apply (move_robots_step two_movers 0
           (Robot.mk 1 (mkPosition 1 1) [mkPosition 1 2] 0 1 MOVING false)).
  - exact two_movers_ids.
  - reflexivity.
Defined.

(** The runtime guard: in one step of [_move_robots], two different robots
    that both advance do not enter the same cell. *)
Theorem move_robots_one_per_cell (self : t) (i j : nat)
    (r1 r2 r1' r2' : Robot.t) :
  NoDup (map Robot.id (robots self)) ->
  i <> j ->
  robots self !! i = Some r1 -> robots self !! j = Some r2 ->
  robots (_move_robots self) !! i = Some r1' ->
  robots (_move_robots self) !! j = Some r2' ->
  wants_to_move r1 = true -> wants_to_move r2 = true ->
  Robot.is_waiting r1' = false -> Robot.is_waiting r2' = false ->
  Robot.position r1' <> Robot.position r2'.
Proof.
  intros Hnd Hij Hr1 Hr2 Hr1' Hr2' Hw1 Hw2 Hnw1 Hnw2 Hsame.
  pose proof (proj1 (list_elem_of_In _ _) (list_elem_of_lookup_2 _ _ _ Hr1))
    as Hin1.
  pose proof (proj1 (list_elem_of_In _ _) (list_elem_of_lookup_2 _ _ _ Hr2))
    as Hin2.
  assert (Robot.id r1 <> Robot.id r2) as Hid.
  { intros Heq. apply Hij.
    apply (NoDup_lookup _ i j (Robot.id r1) Hnd).
    - by rewrite lookup_map, Hr1.
    - by rewrite lookup_map, Hr2, Heq. }
  rewrite (moved_lookup self i r1 r1' Hr1 Hr1') in Hsame, Hnw1.
  rewrite (moved_lookup self j r2 r2' Hr2 Hr2') in Hsame, Hnw2.
  pose proof (move_robot_cases (robots self) (time_elapsed self)
                OrderManager.init r1 Hnd Hin1) as (_ & _ & Hc1).
  pose proof (move_robot_cases (robots self) (time_elapsed self)
                OrderManager.init r2 Hnd Hin2) as (_ & _ & Hc2).
  cbn zeta in Hc1, Hc2.
  destruct Hc1 as [(? & _)|[(_ & ? & _)|(_ & _ & Hp1 & Hmin1 & _)]];
    [congruence.. |].
  destruct Hc2 as [(? & _)|[(_ & ? & _)|(_ & _ & Hp2 & Hmin2 & _)]];
    [congruence.. |].
  rewrite <- Hsame in Hp2, Hmin2.
  set (q := Robot.position _) in *.
  assert (1 < length (contenders (robots self) (row q, col q)))%nat as Hlen.
  { apply (two_members_length _ r1 r2); [by apply contenders_In.. |].
    congruence. }
  destruct (Hmin1 Hlen) as (h1 & Hh1 & Hid1).
  destruct (Hmin2 Hlen) as (h2 & Hh2 & Hid2).
  congruence.
Qed.

Lemma move_robots_one_per_cell_witness :
  Robot.position (Robot.mk 1 (mkPosition 1 2) [] 0 1 IDLE false) <>
  Robot.position (Robot.mk 3 (mkPosition 1 1) [] 0 3 IDLE false).
Proof.
  apply (move_robots_one_per_cell two_movers 0 2
           (Robot.mk 1 (mkPosition 1 1) [mkPosition 1 2] 0 1 MOVING false)
           (Robot.mk 3 (mkPosition 1 0) [mkPosition 1 1] 0 3 MOVING false)).
  - exact two_movers_ids.
  - lia.
  - reflexivity.
  - reflexivity.
  - vm_compute; reflexivity.
  - vm_compute; reflexivity.
  - reflexivity.
  - reflexivity.
  - reflexivity.
  - reflexivity.
Defined.

(** The robot that advances into a cell has the least priority number of the
    robots that were about to enter it. *)
Theorem move_robots_winner (self : t) (i : nat) (r1 r1' r2 : Robot.t) :
  NoDup (map Robot.id (robots self)) ->
  robots self !! i = Some r1 ->
  robots (_move_robots self) !! i = Some r1' ->
  wants_to_move r1 = true -> Robot.is_waiting r1' = false ->
  In r2 (robots self) -> wants_to_move r2 = true ->
  Robot.path r2 !! Robot.path_index r2 = Robot.path r1 !! Robot.path_index r1 ->
  Robot.priority r1 <= Robot.priority r2.
Proof.
  intros Hnd Hr1 Hr1' Hw1 Hnw1 Hin2 Hw2 Hnext.
  pose proof (proj1 (list_elem_of_In _ _) (list_elem_of_lookup_2 _ _ _ Hr1))
    as Hin1.
  destruct (decide (r2 = r1)) as [->|Hne]; [lia |].
  rewrite (moved_lookup self i r1 r1' Hr1 Hr1') in Hnw1.
  pose proof (move_robot_cases (robots self) (time_elapsed self)
                OrderManager.init r1 Hnd Hin1) as (_ & _ & Hc1).
  cbn zeta in Hc1.
  destruct Hc1 as [(? & _)|[(_ & ? & _)|(_ & _ & Hp1 & Hmin1 & _)]];
    [congruence.. |].
  set (q := Robot.position _) in *.
  rewrite Hp1 in Hnext.
  pose proof (contenders_In _ _ _ Hin1 Hw1 Hp1) as Hc1.
  pose proof (contenders_In _ _ _ Hin2 Hw2 Hnext) as Hc2.
  destruct Hmin1 as (h & Hh & Hid).
  { by apply (two_members_length _ r2 r1). }
  apply min_by_priority_spec in Hh as [Hhin Hhmin].
  assert (h = r1) as ->.
  { apply (nodup_ids_eq (robots self)); [done | | done | done].
    by eapply contenders_incl. }
  by apply Hhmin.
Qed.

Lemma move_robots_winner_witness :
  Robot.priority (Robot.mk 1 (mkPosition 1 1) [mkPosition 1 2] 0 1 MOVING false)
  <= Robot.priority
       (Robot.mk 2 (mkPosition 1 3) [mkPosition 1 2] 0 2 MOVING false).
Proof.
  apply (move_robots_winner two_movers 0
           (Robot.mk 1 (mkPosition 1 1) [mkPosition 1 2] 0 1 MOVING false)
           (Robot.mk 1 (mkPosition 1 2) [] 0 1 IDLE false)
           (Robot.mk 2 (mkPosition 1 3) [mkPosition 1 2] 0 2 MOVING false)).
  - exact two_movers_ids.
  - reflexivity.
  - vm_compute; reflexivity.
  - reflexivity.
  - reflexivity.
  - right; left; reflexivity.
  - reflexivity.
  - reflexivity.
Defined.
End MAPFSimulatorSteps.

Lemma py_index_Some `{EqDecision A} (x : A) (l : list A) (j : nat) :
  py_index x l = Some j -> l !! j = Some x.
Proof.
  revert j. induction l as [|y l IH]; intros j; [done |]. cbn [py_index].
  case_decide as Hy; [by intros [= <-]; subst |].
  destruct (py_index x l) as [j'|]; [| done]. intros [= <-]. by apply IH.
Qed.

Lemma filter_head_find_index {A : Type} (f : A -> bool) (l : list A) x rest :
  List.filter f l = x :: rest ->
  exists k, find_index f l = Some k /\ l !! k = Some x /\ f x = true.
Proof.
  induction l as [|y l IH]; [done |]. cbn [List.filter find_index].
  destruct (f y) eqn:Hfy.
  - intros [= <- _]. by exists 0%nat.
  - intros (k & -> & ? & ?)%IH. by exists (S k).
Qed.

Lemma find_index_first {A : Type} (f : A -> bool) (l : list A) (k : nat) :
  find_index f l = Some k ->
  forall (j : nat) x, (j < k)%nat -> l !! j = Some x -> f x = false.
Proof.
  revert k. induction l as [|y l IH]; intros k; [done |].
  cbn [find_index]. destruct (f y) eqn:Hfy.
  - intros [= <-] j x Hj. lia.
  - destruct (find_index f l) as [k'|] eqn:Hk'; [| done].
    intros [= <-] [|j] x Hj; cbn.
    + by intros [= <-].
    + apply (IH k' eq_refl). lia.
Qed.

Lemma valid_walk_join env (P1 P2 : list Position) (x : Position) :
  valid_walk env P1 -> valid_walk env P2 ->
  last P1 = Some x -> head P2 = Some x ->
  valid_walk env (take (length P1 - 1) P1 ++ P2).
Proof.
  intros H1 H2 Hlast Hhead t cur next.
  assert (0 < length P1)%nat as Hpos by (destruct P1; [done | cbn; lia]).
  assert (length (take (length P1 - 1) P1) = (length P1 - 1)%nat) as Hlen
    by (rewrite length_take; lia).
  destruct (decide (S t < length P1 - 1)%nat) as [Hlt|Hge].
  - rewrite !lookup_app_l by lia.
    rewrite !lookup_take_lt by lia. apply H1.
  - destruct (decide (t < length P1 - 1)%nat) as [Hlt'|Hge'].
    + rewrite lookup_app_l by lia. rewrite lookup_take_lt by lia.
      rewrite lookup_app_r by lia.
      replace (S t - length (take (length P1 - 1) P1))%nat with 0%nat by lia.
      rewrite <- head_lookup, Hhead. intros Hcur [= <-].
      apply (H1 t cur x Hcur).
      rewrite last_lookup in Hlast. by replace (S t) with (pred (length P1)) by lia.
    + rewrite !lookup_app_r by lia. rewrite Hlen.
      replace (S t - (length P1 - 1))%nat with (S (t - (length P1 - 1))) by lia.
      apply H2.
Qed.

Module MAPFSimulatorAssign.
Import MAPFSimulator.

(** [_assign_orders] either changes nothing, or gives the first pending order
    (no order before it is pending) to one idle robot: the order is marked as
    assigned to it, and the robot starts moving along a path that begins on
    its cell, passes the pickup room, ends on the destination room and follows
    moves of the environment.  No other robot is touched. *)
Theorem assign_orders_effect (env : Environment) (self : t) :
  _assign_orders env self = self \/
  exists (j : nat) r (k : nat) order from_pos to_pos P,
    robots self !! j = Some r /\ Robot.status r = IDLE /\
    OrderManager.orders (order_manager self) !! k = Some order /\
    Order.status order = PENDING /\
    (forall (k' : nat) o,
       (k' < k)%nat ->
       OrderManager.orders (order_manager self) !! k' = Some o ->
       Order.status o <> PENDING) /\
    find_room_position env (Order.from_room order) = Some from_pos /\
    find_room_position env (Order.to_room order) = Some to_pos /\
    robots (_assign_orders env self) =
      <[j := Robot.mk (Robot.id r) (Robot.position r) P 0 (Robot.priority r)
               MOVING false]> (robots self) /\
    order_manager (_assign_orders env self) =
      OrderManager.assign_order_to_robot (order_manager self) k r
        (time_elapsed self) /\
    head P = Some (Robot.position r) /\ last P = Some to_pos /\
    In from_pos P /\ valid_walk env P.
Proof.
  unfold _assign_orders.
  destruct (OrderManager.get_pending_orders (order_manager self))
    as [|order pending] eqn:Hpending; [by left |].
  destruct (List.filter _ (robots self)) as [|a0 avail] eqn:Havail; [by left |].
  rewrite <- Havail.
  destruct (OrderManager.get_best_robot_for_order env order _)
    as [best|] eqn:Hbest; [| by left].
  destruct (find_room_position env (Order.from_room order))
    as [from_pos|] eqn:Hfrom; [| by left].
  destruct (find_room_position env (Order.to_room order))
    as [to_pos|] eqn:Hto; [| by left].
  set (others := _get_other_robot_paths (robots self) (Robot.id best)).
  unfold find_single_robot_path. cbn [Robot.position].
  destruct (find_path env (Robot.position best) from_pos others 50)
    as [|p1 P1] eqn:Hleg1; [by left |].
  destruct (find_path env from_pos to_pos others 50)
    as [|p2 P2] eqn:Hleg2; [by left |].
  destruct (py_index best (robots self)) as [j|] eqn:Hj; [| by left].
  destruct (find_index _ (OrderManager.orders (order_manager self)))
    as [k|] eqn:Hk; [| by left].
  right.
  apply py_index_Some in Hj.
  assert (Robot.status best = IDLE) as Hidle.
  { assert (In best (List.filter
                      (fun robot => bool_decide (Robot.status robot = IDLE))
                      (robots self))) as Hin.
    { unfold OrderManager.get_best_robot_for_order in Hbest.
      rewrite Havail in Hbest. rewrite <- Havail in Hbest.
      rewrite Hfrom in Hbest.
      destruct (head _) as [[b d]|] eqn:Hhead; [| done].
      injection Hbest as <-.
      apply sort_by_key_head in Hhead as [Hin _].
      by apply in_map_iff in Hin as (b' & [= <- <-] & Hb'). }
    apply filter_In in Hin as [_ Hin]. by apply bool_decide_eq_true in Hin. }
  unfold OrderManager.get_pending_orders in Hpending.
  apply filter_head_find_index in Hpending as (k' & Hk' & Horder & Hst).
  rewrite Hk in Hk'. injection Hk' as <-.
  apply bool_decide_eq_true in Hst.
  destruct (find_path_walk env _ _ _ _ _ Hleg1)
    as (Hh1 & Hl1 & Hw1 & _); [done |].
  destruct (find_path_walk env _ _ _ _ _ Hleg2)
    as (Hh2 & Hl2 & Hw2 & _); [done |].
  pose proof (find_index_first _ _ _ Hk) as Hfirst.
  exists j, best, k, order, from_pos, to_pos.
  eexists. split; [done |]. split; [done |]. split; [done |].
  split; [done |]. split.
  { intros k' o Hk' Ho Hpend. specialize (Hfirst k' o Hk' Ho).
    cbn beta in Hfirst. by rewrite bool_decide_eq_true_2 in Hfirst. }
  repeat split; try done.
  - (* the path starts on the cell of the robot *)
    destruct P1 as [|p1' P1].
    + cbn in *. congruence.
    + cbn [length]. replace (S (S (length P1)) - 1)%nat with (S (length P1))
        by lia. cbn. by injection Hh1 as ->.
  - (* and ends on the destination *)
    rewrite last_app, Hl2. done.
  - apply in_or_app. right. left. by injection Hh2.
  - by apply (valid_walk_join env (p1 :: P1) (p2 :: P2) from_pos).
Qed.
End MAPFSimulatorAssign.
